(** * EntityDB: a shallow embedding of [src/index.js]

    The development follows the layout of the JavaScript module: the numeric
    helpers ([cosineSimilarity], [binarizeVector], [hammingDistance]), the
    WebAssembly kernel embedded as a base64 blob, and the [EntityDB] class
    whose methods run against an IndexedDB object store.

    - JavaScript numbers are IEEE-754 binary64 values: Rocq's primitive
      [float], whose operations round exactly as the JavaScript ones do.
    - [BigUint64Array] elements are integers [Z] kept below [2^64].
    - Objects (records, patches) are finite maps from property names to
      values; the object store is a finite map from keys to records.
    - A thrown exception is the [Err] branch of [result]. *)

From Stdlib Require Import ZArith List Lia.
From Stdlib Require Import Floats.PrimFloat Floats.SpecFloat Floats.FloatOps.
From Stdlib Require Import Ascii String.
From Stdlib Require Uint63.
From Stdlib Require Floats.FloatAxioms.
From stdpp Require Import base option list strings gmap fin_maps sorting.

Set Warnings "-inexact-float".
Local Open Scope Z_scope.

(* ===================================================================== *)
(** ** JavaScript values, errors, results                                 *)
(* ===================================================================== *)

Module Js.

(** The values that records of this program hold.  A plain [Array] is
    modelled when it holds numbers (embeddings are such arrays); a
    [BigUint64Array] is the list of its 64-bit words. *)
Inductive value : Type :=
| VUndef
| VNull
| VBool (b : bool)
| VNum (x : float)
| VStr (s : string)
| VArr (l : list float)
| VBig64 (w : list Z).

(** Exceptions.  The first three are the [Error]s the module throws
    itself, named after the message they carry; the others are raised by
    the runtime, the object store or the WebAssembly instance.  [Wrapped]
    is a [catch] block that rethrows with its own prefix. *)
Inductive error : Type :=
| MissingIdentifier            (* "ID is required for ..." *)
| NotFound                     (* "Cannot update non-existent key ..." *)
| LengthMismatch               (* "Vectors must be of the same length" *)
| TypeError
| RangeError
| DataError                    (* the store: value is not a valid key *)
| ConstraintError              (* the store: add on a key already there *)
| TransactionInactiveError     (* the store: request on a finished scope *)
| WasmTrap                     (* memory access out of bounds *)
| EmbedderFailure
| Wrapped (prefix : string) (e : error).

Inductive result (A : Type) : Type :=
| Ok (a : A)
| Err (e : error).
Arguments Ok {A} a.
Arguments Err {A} e.

Definition res_bind {A B} (r : result A) (k : A -> result B) : result B :=
  match r with
  | Ok a => k a
  | Err e => Err e
  end.

(** [x == null] *)
Definition is_nullish (v : value) : bool :=
  match v with
  | VUndef | VNull => true
  | _ => false
  end.

(** [if (x)] *)
Definition truthy (v : value) : bool :=
  match v with
  | VUndef | VNull => false
  | VBool b => b
  | VNum x => negb (is_nan x || is_zero x)
  | VStr s => negb (String.eqb s EmptyString)
  | VArr _ | VBig64 _ => true
  end.

(** [a ?? b] *)
Definition nullish_or (a b : value) : value :=
  if is_nullish a then b else a.

(** [Array.isArray(x) && x.length > 0] *)
Definition is_nonempty_array (v : value) : bool :=
  match v with
  | VArr (_ :: _) => true
  | _ => false
  end.

(** [Array.isArray(x)] *)
Definition is_array (v : value) : bool :=
  match v with
  | VArr _ => true
  | _ => false
  end.

(** [l[i]] on an array of numbers, read in a numeric context: an index
    outside the array gives [undefined], which arithmetic turns into
    [NaN]. *)
Definition num_at (l : list float) (i : Z) : float :=
  if i <? 0 then nan else nth (Z.to_nat i) l nan.

(** [Array.prototype.sort(cmp)]: the comparator's result is a number;
    a positive one asks for its first argument to come after the second,
    anything else (negative, zero, [NaN]) keeps the two in place.  The
    sort is stable; it is written as an insertion from the right.  For a
    comparator that is consistent every stable sort gives this order.  For
    one that is not (a [NaN] among numbers compared by [a - b]) the
    standard leaves the order to the engine, and this function is one
    admissible order, not the engine's. *)
Section Sort.
Context {A : Type} (cmp : A -> A -> float).

Definition after (x y : A) : bool := (0 <? cmp x y)%float.

Fixpoint sort_insert (x : A) (l : list A) : list A :=
  match l with
  | [] => [x]
  | y :: l' => if after x y then y :: sort_insert x l' else x :: y :: l'
  end.

Fixpoint sort (l : list A) : list A :=
  match l with
  | [] => []
  | x :: l' => sort_insert x (sort l')
  end.

(** [x] does not ask to come after [y]. *)
Definition in_place (x y : A) : Prop := after x y = false.
End Sort.

(** [Array.prototype.slice(0, end)] with an integer [end]: a negative
    [end] counts from the end of the array. *)
Definition slice0 {A} (l : list A) (e : Z) : list A :=
  let len := Z.of_nat (length l) in
  let final := if e <? 0 then Z.max (len + e) 0 else Z.min e len in
  firstn (Z.to_nat final) l.

End Js.
Export Js.

Declare Scope res_scope.
Delimit Scope res_scope with res.
Notation "'try!' x := r 'in' k" := (res_bind r (fun x => k))
  (at level 10, x name, r at level 100, k at level 200) : res_scope.
Local Open Scope res_scope.

(* ===================================================================== *)
(** ** Quantizer                                                          *)
(* ===================================================================== *)

Module Quantizer.

(** [binarizeVector(vector, threshold = null)] on an array of numbers.
    The result holds the numbers [1] and [0]. *)
Definition binarizeVector (vector : list float) (threshold : option float)
  : list Z :=
  let threshold :=
    match threshold with
    | Some t => t
    | None =>
        let sorted := sort (fun a b => a - b)%float vector in
        let mid := Z.of_nat (length sorted) / 2 in
        if Z.of_nat (length sorted) mod 2 =? 0
        then ((num_at sorted (mid - 1) + num_at sorted mid) / 2)%float
        else num_at sorted mid
    end in
  map (fun val => if (threshold <=? val)%float then 1 else 0) vector.

(** The same call on whatever value the caller resolved as the embedding.
    Spreading [undefined], [null], a number or a boolean throws; a string
    spreads but has no [map]; a non-empty [BigUint64Array] fails on the
    first mix of BigInt and Number, an empty one goes through. *)
Definition binarize_value (embedding : value) : result (list Z) :=
  match embedding with
  | VArr l => Ok (binarizeVector l None)
  | VBig64 [] => Ok []
  | _ => Err TypeError
  end.

Definition two64 : Z := 2 ^ 64.

(** The packing loop of [insertBinary] (repeated in [queryBinary] and
    [queryBinarySIMD]):
<<
    for (let i = 0; i < binaryEmbedding.length; i++) {
      const bitIndex = i % 64;
      const arrayIndex = Math.floor(i / 64);
      if (binaryEmbedding[i] === 1)
        packedEmbedding[arrayIndex] |= 1n << BigInt(bitIndex);
    }
>>
    [bits] is what is left of [binaryEmbedding] from index [i] on. *)
Fixpoint pack_loop (bits : list Z) (i : Z) (packed : list Z) : list Z :=
  match bits with
  | [] => packed
  | b :: rest =>
      let bitIndex := i mod 64 in
      let arrayIndex := Z.to_nat (i / 64) in
      let packed' :=
        if b =? 1
        then <[arrayIndex :=
                 Z.lor (default 0 (packed !! arrayIndex))
                       (Z.shiftl 1 bitIndex) mod two64]> packed
        else packed in
      pack_loop rest (i + 1) packed'
  end.

(** [Math.ceil(n / 64)] for a length [n]. *)
Definition ceil64 (n : Z) : Z := (n + 63) / 64.

Definition pack (bits : list Z) : list Z :=
  let packed := replicate (Z.to_nat (ceil64 (Z.of_nat (length bits)))) 0 in
  pack_loop bits 0 packed.

(** Bit [j] of a packed vector: bit [j mod 64] of word [j / 64]. *)
Definition bit_at (packed : list Z) (j : Z) : bool :=
  Z.testbit (default 0 (packed !! Z.to_nat (j / 64))) (j mod 64).

(** Every element of a [BigUint64Array] is below [2^64]. *)
Definition words_ok (packed : list Z) : Prop :=
  Forall (fun w => 0 <= w < two64) packed.

(** Modelled from the spec: the source has no unpacking function.
    [unpack(packed, len)] reads, for each [i < len], bit [i mod 64]
    (least significant first) of word [floor(i/64)]. *)
Definition unpack (packed : list Z) (len : nat) : list Z :=
  map (fun i : nat =>
         let i := Z.of_nat i in
         if Z.testbit (default 0 (packed !! Z.to_nat (i / 64))) (i mod 64)
         then 1 else 0)
      (seq 0 len).

(** The median as the specification words it, of values that are sorted:
    an odd count has a middle value, an even count two of them,
    averaged. *)
Definition median_of (sorted : list float) : float :=
  let n := length sorted in
  if Nat.even n
  then ((nth (n / 2 - 1) sorted nan + nth (n / 2) sorted nan) / 2)%float
  else nth (n / 2) sorted nan.

(** No component is [NaN]: the comparator [a - b] is then consistent,
    and the order of the sorted array is the same in every engine. *)
Definition numbers (v : list float) : Prop := Forall (fun x => is_nan x = false) v.

(** Each value is at most the next one. *)
Definition ascending (l : list float) : Prop :=
  Sorted (fun x y => (x <=? y)%float = true) l.

End Quantizer.

Export Quantizer.

(* ===================================================================== *)
(** ** DistanceEngine                                                     *)
(* ===================================================================== *)

Module Distance.

(** [x.toString(2)] for a BigInt. *)
Fixpoint pos_toString2 (p : positive) : string :=
  match p with
  | xH => "1"
  | xO p' => pos_toString2 p' +:+ "0"
  | xI p' => pos_toString2 p' +:+ "1"
  end.

Definition toString2 (x : Z) : string :=
  match x with
  | Z0 => "0"
  | Zpos p => pos_toString2 p
  | Zneg p => "-" +:+ pos_toString2 p
  end.

(** [s.replace(/0/g, EMPTY)] *)
Fixpoint remove_zeros (s : string) : string :=
  match s with
  | EmptyString => EmptyString
  | String c s' =>
      if Ascii.eqb c "0"%char then remove_zeros s' else String c (remove_zeros s')
  end.

(** The popcount of [hammingDistance]: the length of the binary
    numeral once its zeros are removed. *)
Definition popcount_str (x : Z) : Z :=
  Z.of_nat (String.length (remove_zeros (toString2 x))).

(** [v.length]: reading a property of [undefined] or [null] throws; a
    number or a boolean has no such property. *)
Definition length_prop (v : value) : result (option nat) :=
  match v with
  | VUndef | VNull => Err TypeError
  | VArr l => Ok (Some (length l))
  | VBig64 w => Ok (Some (length w))
  | VStr s => Ok (Some (String.length s))
  | VNum _ | VBool _ => Ok None
  end.

(** [new BigUint64Array(v.buffer)]: only a typed array has a buffer; on
    [undefined] the constructor makes an empty array. *)
Definition buffer_words (v : value) : result (list Z) :=
  match v with
  | VUndef | VNull => Err TypeError
  | VBig64 w => Ok w
  | _ => Ok []
  end.

(** The loop of [hammingDistance].  [bitsB[i]] past the end of [bitsB]
    is [undefined], and a BigInt xor with it throws. *)
Fixpoint xor_popcount_loop (bitsA bitsB : list Z) (distance : Z) : result Z :=
  match bitsA with
  | [] => Ok distance
  | a :: restA =>
      match bitsB with
      | [] => Err TypeError
      | b :: restB =>
          let xorResult := Z.lxor a b in
          xor_popcount_loop restA restB (distance + popcount_str xorResult)
      end
  end.

Definition hammingDistance (vectorA vectorB : value) : result Z :=
  try! lenA := length_prop vectorA in
  try! lenB := length_prop vectorB in
  if negb (bool_decide (lenA = lenB)) then Err LengthMismatch
  else
    try! bitsA := buffer_words vectorA in
    try! bitsB := buffer_words vectorB in
    xor_popcount_loop bitsA bitsB 0.

(** *** The WebAssembly kernel

    The module decoded from [wasmBase64] exports one memory of one page
    and one function:
<<
    (func $hamming_distance (param $ptrA i32) (param $ptrB i32)
                            (param $len i32) (result i32)
      (local $dist i32)
      (local.set $dist (i32.const 0))
      (block (loop
        (if (i32.eqz (local.get $len)) (then (br 2)))
        (call $log (local.get $ptrA))
        (local.set $dist (i32.add (local.get $dist)
          (i32.add (i32.popcnt (i32x4.extract_lane 0
                      (v128.xor (v128.load (local.get $ptrA))
                                (v128.load (local.get $ptrB)))))
          (i32.add (i32.popcnt (i32x4.extract_lane 1 ...))
          (i32.add (i32.popcnt (i32x4.extract_lane 2 ...))
                   (i32.popcnt (i32x4.extract_lane 3 ...)))))))
        (local.set $ptrA (i32.add (local.get $ptrA) (i32.const 16)))
        (local.set $ptrB (i32.add (local.get $ptrB) (i32.const 16)))
        (local.set $len  (i32.sub (local.get $len)  (i32.const 16)))
        (br 0)))
      (local.get $dist))
>>
    Memory is the list of its bytes. *)

Definition page_size : Z := 65536.
Definition two32 : Z := 2 ^ 32.
Definition wrap32 (x : Z) : Z := x mod two32.

Definition fresh_memory : list Z := replicate (Z.to_nat page_size) 0.

(** Little-endian bytes of a 64-bit word, and of a [BigUint64Array]:
    [new Uint8Array(a.buffer)]. *)
Fixpoint le_split (n : nat) (w : Z) : list Z :=
  match n with
  | O => []
  | S n' => (w mod 256) :: le_split n' (w / 256)
  end.

Fixpoint le_combine (bytes : list Z) : Z :=
  match bytes with
  | [] => 0
  | b :: rest => b + 256 * le_combine rest
  end.

Definition words_bytes (w : list Z) : list Z := flat_map (le_split 8) w.

(** [new Uint8Array(v.buffer)] *)
Definition buffer_bytes (v : value) : result (list Z) :=
  try! w := buffer_words v in Ok (words_bytes w).

(** [wasmMemory.set(bytes, offset)] *)
Definition memory_set (mem bytes : list Z) (offset : nat) : result (list Z) :=
  if bool_decide (offset + length bytes <= length mem)%nat
  then Ok (take offset mem ++ bytes ++ drop (offset + length bytes) mem)
  else Err RangeError.

(** [v128.load]: sixteen bytes at [addr], or a trap. *)
Definition v128_load (mem : list Z) (addr : Z) : option (list Z) :=
  if bool_decide (addr + 16 <= Z.of_nat (length mem))
  then Some (take 16 (drop (Z.to_nat addr) mem))
  else None.

Definition v128_xor (a b : list Z) : list Z := zip_with Z.lxor a b.

(** [i32x4.extract_lane k] *)
Definition extract_lane (k : nat) (v : list Z) : Z :=
  le_combine (take 4 (drop (4 * k) v)).

(** [i32.popcnt] *)
Fixpoint pos_popcnt (p : positive) : Z :=
  match p with
  | xH => 1
  | xO p' => pos_popcnt p'
  | xI p' => 1 + pos_popcnt p'
  end.

Definition popcnt (x : Z) : Z :=
  match x with
  | Zpos p => pos_popcnt p
  | _ => 0
  end.

(** One pass of the loop body per unit of [fuel]. *)
Fixpoint hamming_loop (fuel : nat) (mem : list Z) (ptrA ptrB len dist : Z)
  : option (result Z) :=
  match fuel with
  | O => None
  | S fuel' =>
      if len =? 0 then Some (Ok dist)
      else
        match v128_load mem ptrA, v128_load mem ptrB with
        | Some a, Some b =>
            let x := v128_xor a b in
            let sum :=
              wrap32 (dist +
                wrap32 (popcnt (extract_lane 0 x) +
                  wrap32 (popcnt (extract_lane 1 x) +
                    wrap32 (popcnt (extract_lane 2 x) +
                            popcnt (extract_lane 3 x))))) in
            hamming_loop fuel' mem (wrap32 (ptrA + 16)) (wrap32 (ptrB + 16))
                         (wrap32 (len - 16)) sum
        | _, _ => Some (Err WasmTrap)
        end
  end.

(** The pointer moves by sixteen bytes a pass and a load past the page
    traps, so no call makes more passes than this. *)
Definition enough_fuel : nat := Z.to_nat (page_size / 16 + 1).

(** The i32 result as JavaScript reads it (signed). *)
Definition to_int32 (x : Z) : Z :=
  if x <? 2 ^ 31 then x else x - two32.

Definition hamming_distance (mem : list Z) (ptrA ptrB len : Z)
  : option (result Z) :=
  match hamming_loop enough_fuel mem (wrap32 ptrA) (wrap32 ptrB) (wrap32 len) 0 with
  | Some (Ok d) => Some (Ok (to_int32 d))
  | r => r
  end.

End Distance.
Export Distance.

(* ===================================================================== *)
(** ** SimilarityEngine                                                   *)
(* ===================================================================== *)

Module Similarity.

(** [vecA.reduce((sum, val, index) => sum + val * vecB[index], 0)],
    from [index] on. *)
Fixpoint dot_from (index : Z) (vecA vecB : list float) (sum : float) : float :=
  match vecA with
  | [] => sum
  | val :: rest => dot_from (index + 1) rest vecB (sum + val * num_at vecB index)%float
  end.

(** [vec.reduce((sum, val) => sum + val * val, 0)] *)
Definition sum_squares (vec : list float) : float :=
  fold_left (fun sum val => sum + val * val)%float vec 0%float.

(** [cosineSimilarity] on two arrays of numbers. *)
Definition cosine (vecA vecB : list float) : float :=
  let dotProduct := dot_from 0 vecA vecB 0%float in
  let magnitudeA := sqrt (sum_squares vecA) in
  let magnitudeB := sqrt (sum_squares vecB) in
  (dotProduct / (magnitudeA * magnitudeB))%float.

(** [cosineSimilarity(vecA, vecB)] on any two values.  Only arrays have
    [reduce]; a non-empty [BigUint64Array] throws when its first element
    meets a Number, an empty one reduces to the initial value. *)
Definition numbers_of (v : value) : result (list float) :=
  match v with
  | VArr l => Ok l
  | VBig64 [] => Ok []
  | _ => Err TypeError
  end.

Definition cosineSimilarity (vecA vecB : value) : result float :=
  try! a := numbers_of vecA in
  try! b := numbers_of vecB in
  Ok (cosine a b).

End Similarity.
Export Similarity.

(* ===================================================================== *)
(** ** The object store                                                   *)
(* ===================================================================== *)

Module Backend.

(** Modelled from the spec: the persistent backend, "an ordered,
    transactional key-value store keyed by record identifier", is the [idb]
    library over IndexedDB and is not part of the source.  Its keys:
    numbers other than [NaN], strings, arrays of such numbers and binary
    buffers are valid keys; the two zeros are the same key. *)
Inductive idb_key : Type :=
| KNum (x : spec_float)
| KStr (s : string)
| KArr (l : list spec_float)
| KBin (w : list Z).

Definition key_number (x : float) : option spec_float :=
  if is_nan x then None
  else Some match Prim2SF x with
            | S754_zero _ => S754_zero false
            | sf => sf
            end.

Fixpoint key_numbers (l : list float) : option (list spec_float) :=
  match l with
  | [] => Some []
  | x :: l' =>
      match key_number x, key_numbers l' with
      | Some k, Some ks => Some (k :: ks)
      | _, _ => None
      end
  end.

Definition to_key (v : value) : option idb_key :=
  match v with
  | VNum x => KNum <$> key_number x
  | VStr s => Some (KStr s)
  | VArr l => KArr <$> key_numbers l
  | VBig64 w => Some (KBin w)
  | VUndef | VNull | VBool _ => None
  end.

#[export] Instance spec_float_eq_dec : EqDecision spec_float.
Proof. solve_decision. Defined.

Definition spec_float_enc (x : spec_float) : bool + bool + unit + bool * positive * Z :=
  match x with
  | S754_zero s => inl (inl (inl s))
  | S754_infinity s => inl (inl (inr s))
  | S754_nan => inl (inr tt)
  | S754_finite s m e => inr (s, m, e)
  end.

Definition spec_float_dec (x : bool + bool + unit + bool * positive * Z) : spec_float :=
  match x with
  | inl (inl (inl s)) => S754_zero s
  | inl (inl (inr s)) => S754_infinity s
  | inl (inr _) => S754_nan
  | inr (s, m, e) => S754_finite s m e
  end.

#[export] Instance spec_float_countable : Countable spec_float.
Proof.
  refine (inj_countable' spec_float_enc spec_float_dec _).
  intros []; reflexivity.
Defined.

#[export] Instance key_eq_dec : EqDecision idb_key.
Proof. solve_decision. Defined.

Definition key_enc (k : idb_key) : spec_float + string + list spec_float + list Z :=
  match k with
  | KNum x => inl (inl (inl x))
  | KStr s => inl (inl (inr s))
  | KArr l => inl (inr l)
  | KBin w => inr w
  end.

Definition key_dec (x : spec_float + string + list spec_float + list Z) : idb_key :=
  match x with
  | inl (inl (inl x)) => KNum x
  | inl (inl (inr s)) => KStr s
  | inl (inr l) => KArr l
  | inr w => KBin w
  end.

#[export] Instance key_countable : Countable idb_key.
Proof.
  refine (inj_countable' key_enc key_dec _).
  intros []; reflexivity.
Defined.

(** Property read [o[p]]: a missing property reads as [undefined]. *)
Definition get_prop (o : gmap string value) (p : string) : value :=
  default VUndef (o !! p).

(** Object spread [{ ...a, ...b }]: the properties of [b] win. *)
Definition spread (a b : gmap string value) : gmap string value := b ∪ a.

(** A transaction scope over the store named "vectors", whose key path is
    ["id"].  The code of a scope is a function of the store the scope
    sees; it leaves an outcome and the store after it. *)
Definition keyPath : string := "id".

(** How the code of a scope ends: it runs to its end, it throws an
    exception while no request of the scope has failed, or a request of
    the scope fails in the backend (the rejected promise of the request
    is what the code then throws). *)
Inductive outcome (A : Type) : Type :=
| Done (a : A)
| Thrown (e : error)
| Failed (e : error).
Arguments Done {A} a.
Arguments Thrown {A} e.
Arguments Failed {A} e.

Definition tx (A : Type) : Type :=
  gmap idb_key (gmap string value) -> outcome A * gmap idb_key (gmap string value).

Definition tx_ret {A} (a : A) : tx A := fun s => (Done a, s).
Definition tx_throw {A} (e : error) : tx A := fun s => (Thrown e, s).
Definition tx_lift {A} (r : result A) : tx A :=
  fun s =>
    match r with
    | Ok a => (Done a, s)
    | Err e => (Thrown e, s)
    end.
Definition tx_bind {A B} (m : tx A) (k : A -> tx B) : tx B :=
  fun s =>
    match m s with
    | (Done a, s') => k a s'
    | (Thrown e, s') => (Thrown e, s')
    | (Failed e, s') => (Failed e, s')
    end.

(** Modelled from the spec: [store.add(record)], "insert, fails on
    duplicate key".  The key is read from the record at the key path.  A
    value there that is not a valid key makes the call throw DataError
    before any request is made; a key that is already there makes the
    request fail with ConstraintError. *)
Definition store_add (record : gmap string value) : tx value :=
  fun s =>
    match to_key (get_prop record keyPath) with
    | None => (Thrown DataError, s)
    | Some k =>
        match s !! k with
        | Some _ => (Failed ConstraintError, s)
        | None => (Done (get_prop record keyPath), <[k := record]> s)
        end
    end.

(** Modelled from the spec: [store.put(record)], "upsert". *)
Definition store_put (record : gmap string value) : tx value :=
  fun s =>
    match to_key (get_prop record keyPath) with
    | None => (Thrown DataError, s)
    | Some k => (Done (get_prop record keyPath), <[k := record]> s)
    end.

(** Modelled from the spec: [store.get(key)], the record or [undefined]. *)
Definition store_get (k : value) : tx (option (gmap string value)) :=
  fun s =>
    match to_key k with
    | None => (Thrown DataError, s)
    | Some k => (Done (s !! k), s)
    end.

(** Modelled from the spec: [store.delete(key)]; a key that is not there
    is no error. *)
Definition store_delete (k : value) : tx unit :=
  fun s =>
    match to_key k with
    | None => (Thrown DataError, s)
    | Some k => (Done tt, delete k s)
    end.

(** Modelled from the spec: the store is "ordered".  IndexedDB orders keys
    by type (numbers, then strings, then binary buffers, then arrays),
    numbers by value, strings by code unit, buffers byte by byte, arrays
    element by element with a proper prefix first. *)
Fixpoint list_compare {A} (cmp : A -> A -> comparison) (l1 l2 : list A) : comparison :=
  match l1, l2 with
  | [], [] => Eq
  | [], _ :: _ => Lt
  | _ :: _, [] => Gt
  | x :: l1', y :: l2' =>
      match cmp x y with
      | Eq => list_compare cmp l1' l2'
      | c => c
      end
  end.

Definition number_compare (x y : spec_float) : comparison :=
  default Eq (SFcompare x y).

Definition key_type (k : idb_key) : Z :=
  match k with
  | KNum _ => 0
  | KStr _ => 1
  | KBin _ => 2
  | KArr _ => 3
  end.

Definition key_compare (k1 k2 : idb_key) : comparison :=
  match k1, k2 with
  | KNum x, KNum y => number_compare x y
  | KStr s, KStr t => String.compare s t
  | KBin v, KBin w => list_compare Z.compare (words_bytes v) (words_bytes w)
  | KArr l, KArr m => list_compare number_compare l m
  | _, _ => Z.compare (key_type k1) (key_type k2)
  end.

Definition key_le (k1 k2 : idb_key) : bool :=
  match key_compare k1 k2 with
  | Gt => false
  | _ => true
  end.

(** An entry of the store comes no later than another. *)
Definition by_key (p q : idb_key * gmap string value) : Prop := key_le p.1 q.1.

(** The records of the store in ascending order of their keys. *)
Definition records (s : gmap idb_key (gmap string value)) : list (gmap string value) :=
  map snd (merge_sort by_key (map_to_list s)).

(** Modelled from the spec: [store.getAll()], every record, by ascending
    key. *)
Definition store_getAll : tx (list (gmap string value)) :=
  fun s => (Done (records s), s).

(** Modelled from the spec: the persistent backend groups requests "into
    readonly/readwrite transaction scopes with an awaitable completion
    signal and automatic rollback on in-scope failure"; "if the backend
    signals a fatal error mid-sequence, the transaction rolls back as a
    whole".  A scope opened with [db.transaction] whose request the
    backend failed gives back the store it started from.  The source
    never aborts a scope by hand, so an exception thrown in the scope
    while no request has failed (the [Error]s the source throws itself, a
    rejected embedder, the DataError the store throws for a value that is
    not a valid key) leaves the scope to complete on its own: what it
    wrote before the exception is committed. *)
Definition transaction {A} (body : tx A)
  : gmap idb_key (gmap string value) -> result A * gmap idb_key (gmap string value) :=
  fun db =>
    match body db with
    | (Done a, db') => (Ok a, db')
    | (Thrown e, db') => (Err e, db')
    | (Failed e, _) => (Err e, db)
    end.

(** [try { ... } catch (error) { throw new Error(prefix + error) }] *)
Definition rethrow {A} (prefix : string) (r : result A) : result A :=
  match r with
  | Ok a => Ok a
  | Err e => Err (Wrapped prefix e)
  end.

End Backend.
Export Backend.

Declare Scope tx_scope.
Delimit Scope tx_scope with tx.
Notation "'let!' x := m 'in' k" := (tx_bind m (fun x => k))
  (at level 10, x name, m at level 100, k at level 200) : tx_scope.
Local Open Scope tx_scope.

(* ===================================================================== *)
(** ** The EntityDB class                                                 *)
(* ===================================================================== *)

Module EntityDB.

(** The fields the constructor sets. *)
Record config : Type := {
  dbName : string;
  vectorPath : string;
  model : string
}.

(** A Number holding an integer (distances). *)
Definition float_of_Z (z : Z) : float :=
  match z with
  | Z0 => 0%float
  | Zpos _ => of_uint63 (Uint63.of_Z z)
  | Zneg p => (- of_uint63 (Uint63.of_Z (Zpos p)))%float
  end.

(** A property the query has just written with a Number, read back by
    the sort comparator. *)
Definition number_of (v : value) : float :=
  match v with
  | VNum x => x
  | _ => nan
  end.

Fixpoint res_mapM {A B} (f : A -> result B) (l : list A) : result (list B) :=
  match l with
  | [] => Ok []
  | x :: l' =>
      try! y := f x in
      try! ys := res_mapM f l' in
      Ok (y :: ys)
  end.

Definition default_limit : Z := 10.

Section Methods.

(** The embedding pipeline is a collaborator: a function of the text
    and the model name that gives an array of numbers or fails. *)
Variable getEmbeddingFromText : value -> string -> result (list float).
Variable this : config.

(** Modelled from the spec: the embedder is an "external embedder", and
    how long its promise takes to settle is not in the source.  The
    backend finishes a scope that has no request pending once control
    returns to the event loop, and a request made on a finished scope
    throws TransactionInactiveError.  [prompt] says that the promise of
    the embedder settles before that can happen; with an embedder that is
    not prompt, a scope that awaits it is finished when the embedding
    arrives. *)
Variable prompt : bool.

(**
<<
  let embedding = data[this.vectorPath];
  if (data.text) embedding = await getEmbeddingFromText(data.text, this.model);
>> *)
Definition resolve_embedding (data : gmap string value) : result value :=
  if truthy (get_prop data "text")
  then try! e := getEmbeddingFromText (get_prop data "text") (model this) in
       Ok (VArr e)
  else Ok (get_prop data (vectorPath this)).

Definition insert (data : gmap string value) (db : gmap idb_key (gmap string value))
  : result value * gmap idb_key (gmap string value) :=
  let prepared :=
    if is_nullish (get_prop data "id") then Err MissingIdentifier
    else resolve_embedding data in
  match prepared with
  | Err e => (Err (Wrapped "Error inserting data: " e), db)
  | Ok embedding =>
      let record := spread {["vector" := embedding]} data in
      let (r, db') := transaction (store_add record) db in
      (rethrow "Error inserting data: " r, db')
  end.

Definition insertBinary (data : gmap string value) (db : gmap idb_key (gmap string value))
  : result value * gmap idb_key (gmap string value) :=
  let prepared :=
    if is_nullish (get_prop data "id") then Err MissingIdentifier
    else
      try! embedding := resolve_embedding data in
      try! binaryEmbedding := binarize_value embedding in
      Ok (pack binaryEmbedding) in
  match prepared with
  | Err e => (Err (Wrapped "Error inserting binary data: " e), db)
  | Ok packedEmbedding =>
      let record := spread {["vector" := VBig64 packedEmbedding]} data in
      let (r, db') := transaction (store_add record) db in
      (rethrow "Error inserting binary data: " r, db')
  end.

Definition insertManualVectors (data : gmap string value) (db : gmap idb_key (gmap string value))
  : result value * gmap idb_key (gmap string value) :=
  if is_nullish (get_prop data "id")
  then (Err (Wrapped "Error inserting manual vectors: " MissingIdentifier), db)
  else
    let record := spread {["vector" := get_prop data (vectorPath this)]} data in
    let (r, db') := transaction (store_add record) db in
    (rethrow "Error inserting manual vectors: " r, db').

(** [store.add(record)] in the loop of [insertBatch]: the scope is the
    one opened before the loop, and the embedder was awaited in it when
    the record has a text. *)
Definition scope_add (data record : gmap string value) : tx value :=
  if truthy (get_prop data "text") && negb prompt
  then tx_throw TransactionInactiveError
  else store_add record.

(** The body of the [for] loop of [insertBatch], inside the scope. *)
Fixpoint insertBatch_loop (dataArray : list (gmap string value)) (keys : list value)
  : tx (list value) :=
  match dataArray with
  | [] => tx_ret keys
  | data :: rest =>
      if is_nullish (get_prop data "id") then tx_throw MissingIdentifier
      else
        let! embedding := tx_lift (resolve_embedding data) in
        let record := spread {["vector" := embedding]} data in
        let! key := scope_add data record in
        insertBatch_loop rest (keys ++ [key])
  end.

Definition insertBatch (dataArray : list (gmap string value))
  : gmap idb_key (gmap string value) -> result (list value) * gmap idb_key (gmap string value) :=
  transaction (insertBatch_loop dataArray []).

(**
<<
  const newVec = data[this.vectorPath] ?? data.vector;
  const vecToStore = Array.isArray(newVec) && newVec.length > 0 ? newVec : existing.vector;
  const updatedData = { ...existing, ...data, [store.keyPath]: key, vector: vecToStore };
>> *)
Definition merge_update (existing data : gmap string value) (key : value)
  : gmap string value :=
  let newVec := nullish_or (get_prop data (vectorPath this)) (get_prop data "vector") in
  let vecToStore :=
    if is_nonempty_array newVec then newVec else get_prop existing "vector" in
  <["vector" := vecToStore]> (<[keyPath := key]> (spread existing data)).

Definition update (key : value) (data : gmap string value)
  : gmap idb_key (gmap string value) -> result unit * gmap idb_key (gmap string value) :=
  transaction (
    let! existing := store_get key in
    match existing with
    | None => tx_throw NotFound
    | Some existing =>
        let! _ := store_put (merge_update existing data key) in
        tx_ret tt
    end).

(** [for (const { key, ...data } of updates)] *)
Fixpoint updateBatch_loop (updates : list (gmap string value)) : tx unit :=
  match updates with
  | [] => tx_ret tt
  | u :: rest =>
      let key := get_prop u "key" in
      let data := delete "key" u in
      let! existing := store_get key in
      match existing with
      | None => updateBatch_loop rest
      | Some existing =>
          let! _ := store_put (merge_update existing data key) in
          updateBatch_loop rest
      end
  end.

Definition updateBatch (updates : list (gmap string value))
  : gmap idb_key (gmap string value) -> result unit * gmap idb_key (gmap string value) :=
  transaction (updateBatch_loop updates).

Definition delete_ (key : value)
  : gmap idb_key (gmap string value) -> result unit * gmap idb_key (gmap string value) :=
  transaction (store_delete key).

(** The body of the [for] loop of [insertManualBatch], inside the scope:
    no text is embedded. *)
Fixpoint insertManualBatch_loop (dataArray : list (gmap string value)) (keys : list value)
  : tx (list value) :=
  match dataArray with
  | [] => tx_ret keys
  | data :: rest =>
      if is_nullish (get_prop data "id") then tx_throw MissingIdentifier
      else
        let embedding := get_prop data (vectorPath this) in
        let record := spread {["vector" := embedding]} data in
        let! key := store_add record in
        insertManualBatch_loop rest (keys ++ [key])
  end.

Definition insertManualBatch (dataArray : list (gmap string value))
  : gmap idb_key (gmap string value) -> result (list value) * gmap idb_key (gmap string value) :=
  transaction (insertManualBatch_loop dataArray []).

(** [for (const key of keys) await store.delete(key)] *)
Fixpoint deleteBatch_loop (keys : list value) : tx unit :=
  match keys with
  | [] => tx_ret tt
  | key :: rest =>
      let! _ := store_delete key in
      deleteBatch_loop rest
  end.

Definition deleteBatch (keys : list value)
  : gmap idb_key (gmap string value) -> result unit * gmap idb_key (gmap string value) :=
  transaction (deleteBatch_loop keys).

(** [record[this.vectorPath] ?? record.vector] *)
Definition record_vector (record : gmap string value) : value :=
  nullish_or (get_prop record (vectorPath this)) (get_prop record "vector").

Definition hasEmbedding (key : value) (db : gmap idb_key (gmap string value))
  : result bool :=
  match fst (transaction (store_get key) db) with
  | Err e => Err (Wrapped "Failed to check embedding existence for key: " e)
  | Ok None => Ok false
  | Ok (Some record) =>
      let vec := record_vector record in
      if negb (is_array vec) || negb (is_nonempty_array vec) then Ok false
      else Ok true
  end.

(** The object [hasEmbeddings] returns is the list of its assignments
    [result[key] = ...], oldest first. *)
Fixpoint hasEmbeddings_loop (keys : list value) (result_ : list (value * bool))
  : tx (list (value * bool)) :=
  match keys with
  | [] => tx_ret result_
  | key :: rest =>
      let! record := store_get key in
      match record with
      | Some record =>
          let vec := record_vector record in
          hasEmbeddings_loop rest
            (result_ ++ [(key, is_array vec && is_nonempty_array vec)])
      | None => hasEmbeddings_loop rest (result_ ++ [(key, false)])
      end
  end.

Definition hasEmbeddings (keys : list value) (db : gmap idb_key (gmap string value))
  : result (list (value * bool)) :=
  fst (transaction (hasEmbeddings_loop keys []) db).

(** The assignment [entry] that [hasEmbeddings] makes for [key] says
    what [hasEmbedding] says. *)
Definition agrees (db : gmap idb_key (gmap string value))
    (key : value) (entry : value * bool) : Prop :=
  fst entry = key /\ (snd entry = true <-> hasEmbedding key db = Ok true).

(** [store.getAll()] in a read-only scope. *)
Definition getAll (db : gmap idb_key (gmap string value)) : result (list (gmap string value)) :=
  fst (transaction store_getAll db).

Definition query (queryText : value) (limit : option Z) (db : gmap idb_key (gmap string value))
  : result (list (gmap string value)) :=
  let limit := default default_limit limit in
  rethrow "Error querying vectors: " (
    try! queryVector := getEmbeddingFromText queryText (model this) in
    try! vectors := getAll db in
    try! similarities :=
      res_mapM (fun entry =>
        try! similarity := cosineSimilarity (VArr queryVector) (get_prop entry "vector") in
        Ok (<["similarity" := VNum similarity]> entry)) vectors in
    let sorted :=
      sort (fun a b => number_of (get_prop b "similarity")
                       - number_of (get_prop a "similarity"))%float similarities in
    Ok (slice0 sorted limit)).

(** The query text embedded, binarized and packed. *)
Definition packed_query (queryText : value) : result (list Z) :=
  try! queryVector := getEmbeddingFromText queryText (model this) in
  let binaryQueryVector := binarizeVector queryVector None in
  Ok (pack binaryQueryVector).

Definition by_distance (a b : gmap string value) : float :=
  (number_of (get_prop a "distance") - number_of (get_prop b "distance"))%float.

Definition queryBinary (queryText : value) (limit : option Z) (db : gmap idb_key (gmap string value))
  : result (list (gmap string value)) :=
  let limit := default default_limit limit in
  rethrow "Error querying binary vectors: " (
    try! packedQueryVector := packed_query queryText in
    try! vectors := getAll db in
    try! distances :=
      res_mapM (fun entry =>
        try! distance := hammingDistance (VBig64 packedQueryVector) (get_prop entry "vector") in
        Ok (<["distance" := VNum (float_of_Z distance)]> entry)) vectors in
    Ok (slice0 (sort by_distance distances) limit)).

(** One entry of the [vectors.map] of [queryBinarySIMD]: the entry's
    bytes are written at offset 16 of the shared memory and the kernel
    is called on offsets 0 and 16. *)
Definition simd_distance (mem : list Z) (queryWords : nat) (vector : value)
  : result (Z * list Z) :=
  try! dbVector := buffer_bytes vector in
  try! mem' := memory_set mem dbVector 16 in
  match hamming_distance mem' 0 16 (Z.of_nat queryWords * 8) with
  | Some (Ok distance) => Ok (distance, mem')
  | Some (Err e) => Err e
  | None => Err WasmTrap
  end.

Fixpoint simd_map (mem : list Z) (queryWords : nat) (vectors : list (gmap string value))
  : result (list (gmap string value)) :=
  match vectors with
  | [] => Ok []
  | entry :: rest =>
      try! dm := simd_distance mem queryWords (get_prop entry "vector") in
      try! ds := simd_map (snd dm) queryWords rest in
      Ok (<["distance" := VNum (float_of_Z (fst dm))]> entry :: ds)
  end.

Definition queryBinarySIMD (queryText : value) (limit : option Z)
    (db : gmap idb_key (gmap string value)) : result (list (gmap string value)) :=
  let limit := default default_limit limit in
  try! packedQueryVector := packed_query queryText in
  try! vectors := getAll db in
  (* the logging pass reads every entry's buffer *)
  try! _ := res_mapM (fun entry => buffer_words (get_prop entry "vector")) vectors in
  try! wasmMemory := memory_set fresh_memory (words_bytes packedQueryVector) 0 in
  try! distances := simd_map wasmMemory (length packedQueryVector) vectors in
  Ok (slice0 (sort by_distance distances) limit).

(** The loop of [queryManualVectors]: an entry without an array under
    the configured field or under "vector" is skipped. *)
Fixpoint manual_loop (queryVector : value) (vectors : list (gmap string value))
  : result (list (gmap string value)) :=
  match vectors with
  | [] => Ok []
  | entry :: rest =>
      let vecB := get_prop entry (vectorPath this) in
      let vecB := if negb (is_array vecB) then get_prop entry "vector" else vecB in
      if negb (is_array vecB) then manual_loop queryVector rest
      else
        try! similarity := cosineSimilarity queryVector vecB in
        try! similarities := manual_loop queryVector rest in
        Ok (<["similarity" := VNum similarity]> entry :: similarities)
  end.

Definition queryManualVectors (queryVector : value) (limit : option Z)
    (db : gmap idb_key (gmap string value)) : result (list (gmap string value)) :=
  let limit := default default_limit limit in
  rethrow "Error querying manual vectors: " (
    try! vectors := getAll db in
    try! similarities := manual_loop queryVector vectors in
    let sorted :=
      sort (fun a b => number_of (get_prop b "similarity")
                       - number_of (get_prop a "similarity"))%float similarities in
    Ok (slice0 sorted limit)).

End Methods.

(** What an integer limit that is not positive does to a query [Q], a
    function of the limit, that ranks [n] entries: [ranked] is the whole
    ranking, the one [Q] returns under every limit of [n] or more; limit
    0 gives nothing, and a negative limit gives the ranking without its
    last [-limit] entries. *)
Definition slices_from_end (n : nat) (Q : option Z -> result (list (gmap string value)))
  : Prop :=
  forall limit r,
    limit <= 0 ->
    Q (Some limit) = Ok r ->
    exists ranked,
      length ranked = n
      /\ (forall enough, Z.of_nat n <= enough -> Q (Some enough) = Ok ranked)
      /\ (limit = 0 -> r = [])
      /\ (limit < 0 -> r = take (n - Z.to_nat (- limit)) ranked).

(** The accelerated path on one stored vector, as [queryBinarySIMD] runs
    it for the first entry of the scan: a fresh instance, the query
    written at offset 0. *)
Definition accelerated_distance (packedQueryVector : list Z) (vector : value)
  : result Z :=
  try! wasmMemory := memory_set fresh_memory (words_bytes packedQueryVector) 0 in
  try! dm := simd_distance wasmMemory (length packedQueryVector) vector in
  Ok (fst dm).

End EntityDB.
Export EntityDB.

(* ===================================================================== *)
(** ** Concrete stores and records                                        *)
(* ===================================================================== *)

Module Scenario.

(** An embedder that answers every text with the same four numbers. *)
Definition embedder (text : value) (model : string) : result (list float) :=
  Ok [0.1; 0.9; 0.5; 0.4]%float.

(** A store whose vectors are supplied under "embedding". *)
Definition settings : config :=
  {| dbName := "EntityDB"; vectorPath := "embedding"; model := "Xenova/all-MiniLM-L6-v2" |}.

(** [{ id: 1, embedding: [0.1, 0.9, 0.5, 0.4] }] *)
Definition with_embedding : gmap string value :=
  <["id" := VNum 1]> (<["embedding" := VArr [0.1; 0.9; 0.5; 0.4]%float]> ∅).


(** [{ id: 2, text: "world" }] and the same without its id *)
Definition with_text : gmap string value :=
  <["id" := VNum 2]> (<["text" := VStr "world"]> ∅).

Definition without_id : gmap string value :=
  <["text" := VStr "world"]> ∅.

(** [{ id, embedding: v }] *)
Definition manual (id : float) (v : list float) : gmap string value :=
  <["id" := VNum id]> (<["embedding" := VArr v]> ∅).

(** The store an insertion leaves. *)
Definition after_insert {A} (r : result A * gmap idb_key (gmap string value))
  : gmap idb_key (gmap string value) := snd r.

(** The three records of the specification's query scenario. *)
Definition three_manual : gmap idb_key (gmap string value) :=
  let db := after_insert (insertManualVectors settings (manual 1 [1; 0; 0]%float) ∅) in
  let db := after_insert (insertManualVectors settings (manual 2 [0; 1; 0]%float) db) in
  after_insert (insertManualVectors settings (manual 3 [1; 1; 0]%float) db).

(** Two records embedded from text, dense and binary. *)
Definition two_dense : gmap idb_key (gmap string value) :=
  let db := after_insert (insert embedder settings (<["id" := VNum 1]> without_id) ∅) in
  after_insert (insert embedder settings with_text db).

Definition two_binary : gmap idb_key (gmap string value) :=
  let db := after_insert (insertBinary embedder settings (<["id" := VNum 1]> without_id) ∅) in
  after_insert (insertBinary embedder settings with_text db).

(** An embedder of 384 components, the size the default model gives:
    192 ones, then 192 zeros. *)
Definition embedder384 (text : value) (model : string) : result (list float) :=
  Ok (replicate 192 1%float ++ replicate 192 0%float).

Definition one_binary384 : gmap idb_key (gmap string value) :=
  after_insert (insertBinary embedder384 settings with_text ∅).

(** The [distance] property of each result of a query. *)
Definition distances (r : result (list (gmap string value))) : result (list value) :=
  match r with
  | Ok l => Ok (map (fun o => get_prop o "distance") l)
  | Err e => Err e
  end.

(** The key a value stands for, the record filed under it, whether there
    is one. *)
Definition key_of (v : value) : idb_key := default (KStr EmptyString) (to_key v).

Definition stored (db : gmap idb_key (gmap string value)) (key : value)
  : gmap string value := default ∅ (db !! key_of key).

Definition holds (db : gmap idb_key (gmap string value)) (key : value) : bool :=
  bool_decide (is_Some (db !! key_of key)).

(** The list a query returned, and how long it is. *)
Definition returned {A} (r : result (list A)) : list A :=
  match r with
  | Ok l => l
  | Err _ => []
  end.

Definition count {A} (r : result (list A)) : option nat :=
  match r with
  | Ok l => Some (length l)
  | Err _ => None
  end.

End Scenario.
Export Scenario.

(* ===================================================================== *)
(** ** Notions the properties are stated with                             *)
(* ===================================================================== *)

Module Notions.

(** How many of the indices [0 .. n-1] satisfy [f]. *)
Definition count_true (f : nat -> bool) (n : nat) : Z :=
  Z.of_nat (length (filter (fun i => f i = true) (seq 0 n))).

(** Whether two packed vectors differ at bit [j]. *)
Definition bits_differ (a b : list Z) (j : nat) : bool :=
  xorb (bit_at a (Z.of_nat j)) (bit_at b (Z.of_nat j)).

(** Whether entry [i] is a one in exactly one of two bit sequences. *)
Definition ones_differ (x y : list Z) (i : nat) : bool :=
  xorb (bool_decide (x !! i = Some 1)) (bool_decide (y !! i = Some 1)).

(** Every record of the store holds a packed vector of exactly [n] words. *)
Definition packed_store (n : nat) (db : gmap idb_key (gmap string value)) : Prop :=
  forall k record, db !! k = Some record ->
    exists w, get_prop record "vector" = VBig64 w /\ length w = n /\ words_ok w.

(** The number is above zero. *)
Definition positive_sf (r : spec_float) : bool := SFltb (S754_zero false) r.

(** The place of a number on the line of the binary64 values, in units of
    the smallest positive one; the infinities are put beyond every finite
    value, the two zeros at 0. *)
Definition rank (x : spec_float) : Z :=
  match x with
  | S754_zero _ | S754_nan => 0
  | S754_infinity s => cond_Zopp s (2 ^ 2098)
  | S754_finite s m e => cond_Zopp s (Zpos m * 2 ^ (e + 1074))
  end.

Definition frank (x : float) : Z := rank (Prim2SF x).

Definition not_nan (x : spec_float) : Prop := x <> S754_nan.

(** The same number: the same value, the two zeros being one number. *)
Definition same_number (x y : spec_float) : Prop :=
  x = y \/ exists s t, x = S754_zero s /\ y = S754_zero t.

(** The outcomes of a single insertion, [add] being one of the three
    methods. *)
Definition single_outcome (prefix : string) (data : gmap string value)
    (prepared : result value) (db : gmap idb_key (gmap string value))
  : result value * gmap idb_key (gmap string value) :=
  if is_nullish (get_prop data "id") then (Err (Wrapped prefix MissingIdentifier), db)
  else
    match prepared with
    | Err e => (Err (Wrapped prefix e), db)
    | Ok vector =>
        match to_key (get_prop data "id") with
        | None => (Err (Wrapped prefix DataError), db)
        | Some k =>
            match db !! k with
            | Some _ => (Err (Wrapped prefix ConstraintError), db)
            | None => (Ok (get_prop data "id"),
                       <[k := spread {["vector" := vector]} data]> db)
            end
        end
    end.

(** Every record is filed under the key of its own id and has a "vector"
    property. *)
Definition well_filed (db : gmap idb_key (gmap string value)) : Prop :=
  forall k record, db !! k = Some record ->
    to_key (get_prop record "id") = Some k /\ is_Some (record !! "vector").

(** The keys a list of identifiers stands for, when all are valid. *)
Definition keys_of (ids : list value) (ks : list idb_key) : Prop :=
  Forall2 (fun id k => to_key id = Some k) ids ks.

(** The identifiers of a batch. *)
Definition ids_of (dataArray : list (gmap string value)) : list value :=
  map (fun data => get_prop data "id") dataArray.

(** One patch of [updateBatch] applied by [update]: [{ key, ...data }]. *)
Definition update_step (this : config) (s : gmap idb_key (gmap string value))
    (u : gmap string value) : gmap idb_key (gmap string value) :=
  snd (update this (get_prop u "key") (delete "key" u) s).

(** The scoring step of [queryBinary] on one entry. *)
Definition scalar_step (packedQueryVector : list Z) (entry : gmap string value)
  : result (gmap string value) :=
  try! distance := hammingDistance (VBig64 packedQueryVector) (get_prop entry "vector") in
  Ok (<["distance" := VNum (float_of_Z distance)]> entry).

(** An entry of a query result: a record of the store with a number
    under [field]. *)
Definition scored (field : string) (db : gmap idb_key (gmap string value))
    (x : gmap string value) : Prop :=
  exists k record score, db !! k = Some record /\ x = <[field := VNum score]> record.

(** What a query may return from a store under a limit: scored records,
    no more than the store holds, no more than a limit that is not
    negative. *)
Definition ranked_from (field : string) (db : gmap idb_key (gmap string value))
    (limit : Z) (r : list (gmap string value)) : Prop :=
  Forall (scored field db) r
  /\ (length r <= size db)%nat
  /\ (0 <= limit -> Z.of_nat (length r) <= limit).

(** The scoring step of [query] on one entry. *)
Definition cosine_step (queryVector : list float) (entry : gmap string value)
  : result (gmap string value) :=
  try! similarity := cosineSimilarity (VArr queryVector) (get_prop entry "vector") in
  Ok (<["similarity" := VNum similarity]> entry).

(** Every stored vector is one [cosineSimilarity] can reduce over. *)
Definition numeric_store (db : gmap idb_key (gmap string value)) : Prop :=
  forall k record, db !! k = Some record ->
    exists v, numbers_of (get_prop record "vector") = Ok v.

(** The array [queryManualVectors] compares an entry by, if it has one. *)
Definition manual_vector (this : config) (entry : gmap string value)
  : option (list float) :=
  match get_prop entry (vectorPath this), get_prop entry "vector" with
  | VArr v, _ => Some v
  | _, VArr v => Some v
  | _, _ => None
  end.

(** The number of records [queryManualVectors] compares: those with an
    array under the configured field or under "vector". *)
Definition manual_entries (this : config) (db : gmap idb_key (gmap string value)) : nat :=
  length (filter (fun entry => is_Some (manual_vector this entry)) (records db)).

(** The comparator of [query] and [queryManualVectors]:
    [(a, b) => b.similarity - a.similarity]. *)
Definition by_similarity (a b : gmap string value) : float :=
  (number_of (get_prop b "similarity") - number_of (get_prop a "similarity"))%float.

(** One record of a batch inserted on its own, whatever the outcome. *)
Definition insert_step (getEmbeddingFromText : value -> string -> result (list float))
    (this : config) (s : gmap idb_key (gmap string value)) (data : gmap string value)
  : gmap idb_key (gmap string value) :=
  snd (insert getEmbeddingFromText this data s).

(** The number is a zero or [NaN]. *)
Definition zero_or_nan (x : float) : bool := is_zero x || is_nan x.

End Notions.
Export Notions.

(* ===================================================================== *)
(** ** More stores and inputs                                             *)
(* ===================================================================== *)

Module Cases.

(** [{ id: 7, vector: <packed>, note: "n" }] as a patch for record 1 of
    the three manual records. *)
Definition packed_patch : gmap string value :=
  <["id" := VNum 7]> (<["vector" := VBig64 [5]]> (<["note" := VStr "n"]> ∅)).

(** An embedder of 128 components: 64 ones, then 64 zeros. *)
Definition embedder128 (text : value) (model : string) : result (list float) :=
  Ok (replicate 64 1%float ++ replicate 64 0%float).

(** Two records embedded from text by [embedder128] and stored packed. *)
Definition two_binary128 : gmap idb_key (gmap string value) :=
  let db := after_insert (insertBinary embedder128 settings (<["id" := VNum 1]> without_id) ∅) in
  after_insert (insertBinary embedder128 settings with_text db).

(** [{ id: 5 }]: neither text nor vector. *)
Definition bare : gmap string value := <["id" := VNum 5]> ∅.

(** An embedder of 256 components: 128 ones, then 128 zeros. *)
Definition embedder256 (text : value) (model : string) : result (list float) :=
  Ok (replicate 128 1%float ++ replicate 128 0%float).

(** An embedder that gives 128 components to the text "short" and 256 to
    any other. *)
Definition embedder_by_text (text : value) (model : string) : result (list float) :=
  match text with
  | VStr "short" => embedder128 text model
  | _ => embedder256 text model
  end.

(** Two records embedded by it from texts other than "short": four words
    each. *)
Definition two_binary_long : gmap idb_key (gmap string value) :=
  let db := after_insert
              (insertBinary embedder_by_text settings (<["id" := VNum 1]> without_id) ∅) in
  after_insert (insertBinary embedder_by_text settings with_text db).

End Cases.
Export Cases.

(* ===================================================================== *)
(** * Properties                                                          *)
(* ===================================================================== *)

(** ** Packing *)

Module QuantizerFacts.

Lemma index_split (i j : Z) :
  0 <= i -> 0 <= j -> i / 64 = j / 64 -> i mod 64 = j mod 64 -> i = j.
Proof.
  intros Hi Hj Hd Hm.
  rewrite (Z.div_mod i 64), (Z.div_mod j 64) by lia. lia.
Qed.

Lemma testbit_set (w n m : Z) :
  0 <= n < 64 -> 0 <= m < 64 ->
  Z.testbit (Z.lor w (Z.shiftl 1 n) mod two64) m = Z.testbit w m || (m =? n).
Proof.
  intros Hn Hm. unfold two64.
  rewrite Z.mod_pow2_bits_low by lia.
  rewrite Z.lor_spec, Z.shiftl_spec by lia.
  f_equal.
  destruct (Z.eqb_spec m n) as [->|Hne].
  - now rewrite Z.sub_diag.
  - destruct (Z.lt_ge_cases m n).
    + apply Z.testbit_neg_r. lia.
    + apply Z.bits_above_log2; simpl; lia.
Qed.

Lemma set_in_range (w n : Z) :
  0 <= Z.lor w (Z.shiftl 1 n) mod two64 < two64.
Proof. apply Z.mod_pos_bound. reflexivity. Qed.

(** One pass of the loop that finds a one at index [i]. *)
Lemma bit_at_set (packed : list Z) (i j : Z) :
  0 <= i -> 0 <= j -> i < 64 * Z.of_nat (length packed) ->
  bit_at (<[Z.to_nat (i / 64) :=
             Z.lor (default 0 (packed !! Z.to_nat (i / 64)))
                   (Z.shiftl 1 (i mod 64)) mod two64]> packed) j
  = bit_at packed j || (j =? i).
Proof.
  intros Hi Hj Hlen. unfold bit_at.
  assert (Hin : (Z.to_nat (i / 64) < length packed)%nat).
  { apply Nat2Z.inj_lt. rewrite Z2Nat.id by (apply Z.div_pos; lia).
    apply Z.div_lt_upper_bound; lia. }
  destruct (Z.eq_dec (i / 64) (j / 64)) as [Hd|Hd].
  - rewrite <- Hd, list_lookup_insert_eq by exact Hin. simpl.
    rewrite testbit_set by (apply Z.mod_pos_bound; lia).
    f_equal.
    destruct (Z.eqb_spec (j mod 64) (i mod 64)) as [Hm|Hm];
      destruct (Z.eqb_spec j i) as [Hji|Hji]; try reflexivity.
    + exfalso. apply Hji. symmetry. now apply index_split.
    + subst j. congruence.
  - rewrite list_lookup_insert_ne.
    2:{ intros H. apply Hd. apply Z2Nat.inj in H; try apply Z.div_pos; lia. }
    destruct (Z.eqb_spec j i) as [->|_]; [congruence|].
    now rewrite orb_false_r.
Qed.

Lemma pack_loop_length (bits : list Z) : forall i packed,
  length (pack_loop bits i packed) = length packed.
Proof.
  induction bits as [|b rest IH]; intros i packed; simpl; [reflexivity|].
  rewrite IH. destruct (b =? 1); [apply length_insert | reflexivity].
Qed.

Lemma pack_loop_words_ok (bits : list Z) : forall i packed,
  words_ok packed -> words_ok (pack_loop bits i packed).
Proof.
  induction bits as [|b rest IH]; intros i packed Hok; simpl; [exact Hok|].
  apply IH. destruct (b =? 1); [|exact Hok].
  unfold words_ok. apply Forall_insert; [exact Hok | apply set_in_range].
Qed.

(** What the loop leaves at bit [j], started at index [i]. *)
Lemma pack_loop_bit (bits : list Z) : forall i packed j,
  0 <= i -> 0 <= j ->
  i + Z.of_nat (length bits) <= 64 * Z.of_nat (length packed) ->
  bit_at (pack_loop bits i packed) j
  = bit_at packed j
    || (if bool_decide (i <= j)
        then bool_decide (bits !! Z.to_nat (j - i) = Some 1)
        else false).
Proof.
  induction bits as [|b rest IH]; intros i packed j Hi Hj Hlen.
  - simpl. case_bool_decide; rewrite ?lookup_nil; simpl;
      try (rewrite bool_decide_eq_false_2 by discriminate);
      now rewrite orb_false_r.
  - cbn [pack_loop]. cbn [length] in Hlen.
    rewrite IH by (try (destruct (b =? 1); rewrite ?length_insert); lia).
    destruct (Z.eqb_spec b 1) as [->|Hb].
    + rewrite bit_at_set by lia.
      destruct (Z.eqb_spec j i) as [->|Hne].
      * rewrite Z.sub_diag. simpl.
        rewrite (bool_decide_eq_true_2 (i <= i)) by lia.
        rewrite (bool_decide_eq_false_2 (i + 1 <= i)) by lia.
        now rewrite !orb_true_r, orb_false_r.
      * rewrite orb_false_r. f_equal.
        repeat case_bool_decide; try lia; try reflexivity.
        all: replace (Z.to_nat (j - i)) with (S (Z.to_nat (j - (i + 1)))) in * by lia;
             simpl in *; congruence.
    + f_equal.
      repeat case_bool_decide; try lia; try reflexivity.
      all: try (replace (Z.to_nat (j - i)) with (S (Z.to_nat (j - (i + 1)))) in * by lia;
             simpl in *; congruence).
      assert (j = i) as -> by lia. rewrite Z.sub_diag in *. simpl in *. congruence.
Qed.


Lemma bit_at_zeros (n : nat) (j : Z) : bit_at (replicate n 0) j = false.
Proof.
  unfold bit_at.
  destruct (replicate n 0 !! Z.to_nat (j / 64)) as [w|] eqn:E; simpl.
  - apply lookup_replicate in E as [-> _]. apply Z.bits_0.
  - apply Z.bits_0.
Qed.

Lemma ceil64_bounds (n : Z) : 64 * ceil64 n - 64 < n <= 64 * ceil64 n.
Proof.
  unfold ceil64.
  pose proof (Z.div_mod (n + 63) 64 ltac:(lia)).
  pose proof (Z.mod_pos_bound (n + 63) 64 ltac:(lia)). lia.
Qed.

Lemma pack_length (bits : list Z) :
  Z.of_nat (length (pack bits)) = ceil64 (Z.of_nat (length bits)).
Proof.
  unfold pack. rewrite pack_loop_length, length_replicate.
  apply Z2Nat.id. pose proof (ceil64_bounds (Z.of_nat (length bits))). lia.
Qed.

Lemma pack_bit (bits : list Z) (j : Z) :
  0 <= j -> bit_at (pack bits) j = bool_decide (bits !! Z.to_nat j = Some 1).
Proof.
  intros Hj. unfold pack.
  rewrite pack_loop_bit.
  - rewrite bit_at_zeros, Z.sub_0_r. simpl.
    now rewrite (bool_decide_eq_true_2 (0 <= j)) by lia.
  - lia.
  - exact Hj.
  - rewrite length_replicate, Z2Nat.id;
      pose proof (ceil64_bounds (Z.of_nat (length bits))); lia.
Qed.

Lemma unpack_lookup (packed : list Z) (len i : nat) :
  (i < len)%nat ->
  unpack packed len !! i = Some (if bit_at packed (Z.of_nat i) then 1 else 0).
Proof.
  intros Hi. unfold unpack.
  rewrite list_lookup_fmap, lookup_seq_lt by exact Hi. reflexivity.
Qed.

Lemma unpack_length (packed : list Z) (len : nat) :
  length (unpack packed len) = len.
Proof. unfold unpack. now rewrite length_map, length_seq. Qed.

End QuantizerFacts.
Import QuantizerFacts.

(** C8. A sequence [b] of zeros and ones of length [L] comes back from
    [unpack (pack b) L]; [pack] makes [ceil(L/64)] words, each below
    [2^64], and bit [i] of [b] is bit [i mod 64] of word [floor(i/64)]. *)
Theorem pack_unpack_roundtrip (b : list Z) :
  Forall (fun x => x = 0 \/ x = 1) b ->
  unpack (pack b) (length b) = b
  /\ (let words := Z.of_nat (length (pack b)) in
      64 * words - 64 < Z.of_nat (length b) <= 64 * words)
  /\ (forall i : nat, (i < length b)%nat ->
        Z.testbit (default 0 (pack b !! Z.to_nat (Z.of_nat i / 64))) (Z.of_nat i mod 64)
        = bool_decide (b !! i = Some 1))
  /\ Forall (fun w => 0 <= w < 2 ^ 64) (pack b).
Proof.
  intros Hbin. repeat split.
  - apply list_eq. intros i.
    destruct (decide (i < length b)%nat) as [Hi|Hi].
    + rewrite unpack_lookup, pack_bit, Nat2Z.id by lia.
      destruct (lookup_lt_is_Some_2 b i Hi) as [x Hx]. rewrite Hx.
      rewrite Forall_lookup in Hbin. destruct (Hbin i x Hx) as [->| ->].
      * now rewrite bool_decide_eq_false_2 by discriminate.
      * now rewrite bool_decide_eq_true_2.
    + rewrite !lookup_ge_None_2; [reflexivity | lia | rewrite unpack_length; lia].
  - rewrite pack_length. apply ceil64_bounds.
  - rewrite pack_length. apply ceil64_bounds.
  - intros i Hi. fold (bit_at (pack b) (Z.of_nat i)).
    now rewrite pack_bit, Nat2Z.id by lia.
  - apply pack_loop_words_ok. unfold words_ok.
    apply Forall_forall. intros w Hw.
    apply elem_of_replicate in Hw as [-> _]. unfold two64. lia.
Qed.

(** The round trip on the four bits [[1, 0, 1, 1]]. *)
Lemma pack_unpack_roundtrip_witness :
  Forall (fun x => x = 0 \/ x = 1) [1; 0; 1; 1] /\
  unpack (pack [1; 0; 1; 1]) 4 = [1; 0; 1; 1].
Proof.
  assert (H : Forall (fun x => x = 0 \/ x = 1) [1; 0; 1; 1]).
  { repeat constructor; lia. }
  split; [exact H | exact (proj1 (pack_unpack_roundtrip [1; 0; 1; 1] H))].
Defined.

(** ** Sorting and the default threshold *)

Module SortFacts.
Section Comparator.
Context {A : Type} (cmp : A -> A -> float).

Lemma sort_insert_perm (x : A) (l : list A) : sort_insert cmp x l ≡ₚ x :: l.
Proof.
  induction l as [|y l IH]; simpl; [reflexivity|].
  destruct (after cmp x y); [|reflexivity].
  rewrite IH. apply Permutation_swap.
Qed.

Lemma sort_perm (l : list A) : sort cmp l ≡ₚ l.
Proof.
  induction l as [|x l IH]; simpl; [reflexivity|].
  now rewrite sort_insert_perm, IH.
Qed.

Lemma sort_length (l : list A) : length (sort cmp l) = length l.
Proof. apply Permutation_length, sort_perm. Qed.

(** With a comparator that never asks for both orders of a pair,
    no element of the result asks to come after its successor. *)
Hypothesis asym : forall x y, after cmp x y = true -> after cmp y x = false.

Lemma sort_insert_sorted (x : A) (l : list A) :
  Sorted (in_place cmp) l -> Sorted (in_place cmp) (sort_insert cmp x l).
Proof.
  induction 1 as [|y l Hs IH Hhd]; simpl.
  - repeat constructor.
  - destruct (after cmp x y) eqn:E.
    + constructor; [exact IH|].
      destruct Hhd as [|z l Hyz]; simpl.
      * constructor. now apply asym.
      * destruct (after cmp x z); constructor; [exact Hyz | now apply asym].
    + repeat constructor; assumption.
Qed.

Lemma sort_sorted (l : list A) : Sorted (in_place cmp) (sort cmp l).
Proof.
  induction l as [|x l IH]; simpl; [constructor|].
  now apply sort_insert_sorted.
Qed.
End Comparator.
End SortFacts.
Import SortFacts.

Module MedianFacts.

Lemma num_at_nth (l : list float) (i : nat) : num_at l (Z.of_nat i) = nth i l nan.
Proof.
  unfold num_at. rewrite Nat2Z.id.
  now destruct (Z.ltb_spec (Z.of_nat i) 0); [lia|].
Qed.

Lemma even_mod2 (n : nat) : (Z.of_nat n mod 2 =? 0) = Nat.even n.
Proof.
  destruct (Nat.even n) eqn:E.
  - apply Nat.even_spec in E as [k ->]. apply Z.eqb_eq.
    rewrite Nat2Z.inj_mul, Z.mul_comm. apply Z.mod_mul. lia.
  - apply Z.eqb_neq.
    assert (Ho : Nat.odd n = true) by (rewrite <- Nat.negb_even, E; reflexivity).
    apply Nat.odd_spec in Ho as [k ->].
    rewrite Nat2Z.inj_add, Nat2Z.inj_mul, Z.mul_comm, Z.add_comm.
    rewrite Z.mod_add by lia. discriminate.
Qed.

Lemma half_nat (n : nat) : Z.of_nat n / 2 = Z.of_nat (n / 2).
Proof. now rewrite (Nat2Z.inj_div n 2). Qed.

(** The threshold [binarizeVector] computes when none is given. *)
Lemma default_threshold (s : list float) :
  (if Z.of_nat (length s) mod 2 =? 0
   then ((num_at s (Z.of_nat (length s) / 2 - 1) + num_at s (Z.of_nat (length s) / 2)) / 2)%float
   else num_at s (Z.of_nat (length s) / 2))
  = median_of s.
Proof.
  unfold median_of.
  rewrite even_mod2, half_nat, num_at_nth.
  destruct (Nat.even (length s)) eqn:E; [|reflexivity].
  destruct s as [|x s]; [reflexivity|].
  replace (Z.of_nat (length (x :: s) / 2) - 1)
    with (Z.of_nat (length (x :: s) / 2 - 1)).
  - now rewrite num_at_nth.
  - destruct s as [|y s]; [discriminate E|].
    assert (1 <= length (x :: y :: s) / 2)%nat.
    { apply Nat.div_le_lower_bound; simpl; lia. }
    lia.
Qed.

End MedianFacts.
Import MedianFacts.

(** ** Distances *)

Module DistanceFacts.

Lemma remove_zeros_app (s t : string) :
  remove_zeros (s +:+ t) = remove_zeros s +:+ remove_zeros t.
Proof.
  induction s as [|c s IH]; simpl; [reflexivity|].
  rewrite IH. now destruct (Ascii.eqb c "0").
Qed.

Lemma string_length_app (s t : string) :
  String.length (s +:+ t) = (String.length s + String.length t)%nat.
Proof. induction s as [|c s IH]; simpl; [reflexivity | now rewrite IH]. Qed.

(** The string popcount of the scalar path counts the ones. *)
Lemma pos_popcount_str (p : positive) :
  Z.of_nat (String.length (remove_zeros (pos_toString2 p))) = pos_popcnt p.
Proof.
  induction p as [p IH|p IH|]; simpl; try reflexivity;
    rewrite remove_zeros_app, string_length_app; simpl; lia.
Qed.

Lemma popcount_str_popcnt (x : Z) : 0 <= x -> popcount_str x = popcnt x.
Proof.
  intros Hx. destruct x as [|p|p]; [reflexivity | apply pos_popcount_str | lia].
Qed.

Lemma wrap32_small (x : Z) : 0 <= x < two32 -> wrap32 x = x.
Proof. intros H. unfold wrap32. now apply Z.mod_small. Qed.

(** A pass either ends the loop, traps, or moves [ptrA] sixteen bytes
    towards the end of the memory: the fuel below is never used up. *)
Lemma hamming_loop_fuel (mem : list Z) : forall fuel ptrA ptrB len dist,
  Z.of_nat (length mem) < two32 ->
  0 <= ptrA ->
  Z.of_nat (length mem) - ptrA < 16 * (Z.of_nat fuel + 1) ->
  hamming_loop (S fuel) mem ptrA ptrB len dist <> None.
Proof.
  induction fuel as [|fuel IH]; intros ptrA ptrB len dist Hmem Ha Hfuel.
  - simpl. destruct (len =? 0); [discriminate|].
    unfold v128_load. rewrite (bool_decide_eq_false_2 (ptrA + 16 <= _)) by lia.
    discriminate.
  - cbn [hamming_loop]. destruct (len =? 0); [discriminate|].
    destruct (v128_load mem ptrA) as [a|] eqn:Ea; [|discriminate].
    destruct (v128_load mem ptrB) as [b|] eqn:Eb; [|discriminate].
    unfold v128_load in Ea. case_bool_decide; [|discriminate].
    rewrite (wrap32_small (ptrA + 16)) by lia.
    apply IH; lia.
Qed.

(** A byte count that is not a multiple of sixteen never reaches zero. *)
Lemma hamming_loop_ragged (mem : list Z) : forall fuel ptrA ptrB len dist r,
  len mod 16 <> 0 ->
  hamming_loop fuel mem ptrA ptrB len dist = Some r -> r = Err WasmTrap.
Proof.
  induction fuel as [|fuel IH]; intros ptrA ptrB len dist r Hlen; [discriminate|].
  cbn [hamming_loop].
  destruct (Z.eqb_spec len 0) as [->|_]; [now rewrite Z.mod_0_l in Hlen|].
  destruct (v128_load mem ptrA); [|congruence].
  destruct (v128_load mem ptrB); [|congruence].
  apply IH. unfold wrap32, two32. intros Hz.
  change (2 ^ 32) with 4294967296 in Hz.
  pose proof (Z.div_mod (len - 16) 4294967296 ltac:(lia)) as H1.
  pose proof (Z.div_mod ((len - 16) mod 4294967296) 16 ltac:(lia)) as H2.
  pose proof (Z.div_mod len 16 ltac:(lia)) as H3.
  pose proof (Z.mod_pos_bound len 16 ltac:(lia)) as H4.
  lia.
Qed.

Lemma memory_set_length (mem bytes mem' : list Z) (offset : nat) :
  memory_set mem bytes offset = Ok mem' -> length mem' = length mem.
Proof.
  unfold memory_set. case_bool_decide; [|discriminate].
  intros [= <-]. rewrite !length_app, length_take, length_drop. lia.
Qed.

Lemma fresh_memory_length : Z.of_nat (length fresh_memory) = page_size.
Proof. unfold fresh_memory. rewrite length_replicate. reflexivity. Qed.

Lemma wrap32_range (x : Z) : 0 <= wrap32 x < two32.
Proof. apply Z.mod_pos_bound. reflexivity. Qed.

(** On a memory of one page the kernel always returns or traps. *)
Lemma hamming_distance_total (mem : list Z) (ptrA ptrB len : Z) :
  Z.of_nat (length mem) = page_size ->
  hamming_distance mem ptrA ptrB len <> None.
Proof.
  intros Hmem. unfold hamming_distance.
  pose proof (wrap32_range ptrA).
  assert (Hfuel : hamming_loop enough_fuel mem (wrap32 ptrA) (wrap32 ptrB)
                               (wrap32 len) 0 <> None).
  { change enough_fuel with (S (Z.to_nat 4096)).
    apply hamming_loop_fuel; rewrite ?Z2Nat.id, ?Hmem by lia; unfold page_size, two32 in *; lia. }
  destruct (hamming_loop enough_fuel mem _ _ _ 0) as [[d|e]|]; congruence.
Qed.

(** A query of an odd number of words makes the kernel trap. *)
Lemma hamming_distance_odd_words (mem : list Z) (ptrA ptrB : Z) (words : nat) :
  Z.of_nat (length mem) = page_size ->
  Nat.odd words = true ->
  Z.of_nat words * 8 < two32 ->
  hamming_distance mem ptrA ptrB (Z.of_nat words * 8) = Some (Err WasmTrap).
Proof.
  intros Hmem Hodd Hsmall.
  pose proof (hamming_distance_total mem ptrA ptrB (Z.of_nat words * 8) Hmem) as Htot.
  unfold hamming_distance in *.
  destruct (hamming_loop _ _ _ _ _ _) as [r|] eqn:E; [|congruence].
  apply hamming_loop_ragged in E as ->; [reflexivity|].
  rewrite wrap32_small by lia.
  apply Nat.odd_spec in Hodd as [k ->].
  replace (Z.of_nat (2 * k + 1) * 8) with (8 + Z.of_nat k * 16) by lia.
  rewrite Z.mod_add by lia. discriminate.
Qed.

End DistanceFacts.
Import DistanceFacts.

Module KernelFacts.

Lemma popcnt_nonneg (x : Z) : 0 <= popcnt x.
Proof.
  destruct x as [|p|p]; simpl; try lia.
  induction p; simpl; lia.
Qed.

Lemma popcnt_double (x : Z) (b : Z) :
  0 <= x -> b = 0 \/ b = 1 -> popcnt (2 * x + b) = popcnt x + b.
Proof.
  intros Hx [-> | ->]; destruct x as [|p|p]; try lia; try reflexivity.
  - change (2 * Z.pos p + 0) with (Z.pos p~0). simpl. lia.
  - change (2 * Z.pos p + 1) with (Z.pos p~1). simpl. lia.
Qed.

(** Counting the ones of the low [k] bits and of the rest. *)
Lemma popcnt_split (k : nat) : forall lo hi,
  0 <= lo < 2 ^ Z.of_nat k -> 0 <= hi ->
  popcnt (lo + 2 ^ Z.of_nat k * hi) = popcnt lo + popcnt hi.
Proof.
  induction k as [|k IH]; intros lo hi Hlo Hhi.
  - change (2 ^ Z.of_nat 0) with 1 in *. replace lo with 0 by lia.
    now replace (0 + 1 * hi) with hi by lia.
  - rewrite Nat2Z.inj_succ, Z.pow_succ_r in * by lia.
    pose proof (Z.div_mod lo 2 ltac:(lia)) as Hdm.
    pose proof (Z.mod_pos_bound lo 2 ltac:(lia)) as Hm.
    assert (Hq : 0 <= lo / 2 < 2 ^ Z.of_nat k).
    { split; [apply Z.div_pos; lia | apply Z.div_lt_upper_bound; lia]. }
    replace (lo + 2 * 2 ^ Z.of_nat k * hi)
      with (2 * (lo / 2 + 2 ^ Z.of_nat k * hi) + lo mod 2) by lia.
    assert (Hs : 0 <= lo / 2 + 2 ^ Z.of_nat k * hi).
    { apply Z.add_nonneg_nonneg; [lia | apply Z.mul_nonneg_nonneg; lia]. }
    rewrite popcnt_double by lia.
    rewrite IH by lia.
    rewrite Hdm at 3. rewrite popcnt_double by lia. lia.
Qed.

Lemma popcnt_bound (k : nat) : forall x,
  0 <= x < 2 ^ Z.of_nat k -> popcnt x <= Z.of_nat k.
Proof.
  induction k as [|k IH]; intros x Hx.
  - change (2 ^ Z.of_nat 0) with 1 in *. replace x with 0 by lia. simpl. lia.
  - rewrite Nat2Z.inj_succ, Z.pow_succ_r in * by lia.
    pose proof (Z.div_mod x 2 ltac:(lia)) as Hdm.
    pose proof (Z.mod_pos_bound x 2 ltac:(lia)) as Hm.
    assert (Hq : 0 <= x / 2 < 2 ^ Z.of_nat k).
    { split; [apply Z.div_pos; lia | apply Z.div_lt_upper_bound; lia]. }
    rewrite Hdm, popcnt_double by lia.
    specialize (IH _ Hq). lia.
Qed.

Lemma le_combine_split (n : nat) : forall w,
  0 <= w -> le_combine (le_split n w) = w mod 2 ^ (8 * Z.of_nat n).
Proof.
  induction n as [|n IH]; intros w Hw.
  - simpl. now rewrite Z.mod_1_r.
  - cbn [le_split le_combine]. rewrite IH by (apply Z.div_pos; lia).
    replace (8 * Z.of_nat (S n)) with (8 + 8 * Z.of_nat n) by lia.
    rewrite Z.pow_add_r by lia. change (2 ^ 8) with 256.
    rewrite (Z.rem_mul_r w 256) by lia. reflexivity.
Qed.

Lemma le_split_xor (n : nat) : forall a b,
  0 <= a -> 0 <= b ->
  zip_with Z.lxor (le_split n a) (le_split n b) = le_split n (Z.lxor a b).
Proof.
  induction n as [|n IH]; intros a b Ha Hb; [reflexivity|].
  cbn [le_split zip_with]. f_equal.
  - change 256 with (2 ^ 8). rewrite <- !Z.land_ones by lia.
    apply Z.bits_inj'. intros i Hi.
    rewrite !Z.lxor_spec, !Z.land_spec, Z.lxor_spec.
    now destruct (Z.testbit a i), (Z.testbit b i), (Z.testbit (Z.ones 8) i).
  - rewrite IH by (apply Z.div_pos; lia). f_equal.
    change 256 with (2 ^ 8). rewrite <- !Z.shiftr_div_pow2 by lia.
    now rewrite Z.shiftr_lxor.
Qed.

Lemma le_split_length (n : nat) (w : Z) : length (le_split n w) = n.
Proof. revert w. induction n as [|n IH]; intros w; simpl; [reflexivity | now rewrite IH]. Qed.

(** The two 32-bit lanes of a word hold as many ones as the word. *)
Lemma popcnt_lanes (w : Z) :
  0 <= w < two64 ->
  popcnt (le_combine (take 4 (le_split 8 w)))
  + popcnt (le_combine (take 4 (drop 4 (le_split 8 w)))) = popcnt w
  /\ 0 <= popcnt (le_combine (take 4 (le_split 8 w))) <= 32
  /\ 0 <= popcnt (le_combine (take 4 (drop 4 (le_split 8 w)))) <= 32.
Proof.
  intros Hw. unfold two64 in Hw.
  assert (Hlo : take 4 (le_split 8 w) = le_split 4 w) by reflexivity.
  assert (Hhi : take 4 (drop 4 (le_split 8 w)) = le_split 4 (w / 256 / 256 / 256 / 256))
    by reflexivity.
  rewrite Hlo, Hhi, !le_combine_split by (repeat apply Z.div_pos; lia).
  change (2 ^ (8 * Z.of_nat 4)) with (2 ^ 32).
  rewrite !Z.div_div by lia. change (256 * 256 * 256 * 256) with (2 ^ 32).
  assert (Hq : 0 <= w / 2 ^ 32 < 2 ^ 32).
  { split; [apply Z.div_pos; lia | apply Z.div_lt_upper_bound; lia]. }
  rewrite (Z.mod_small (w / 2 ^ 32)) by lia.
  pose proof (Z.mod_pos_bound w (2 ^ 32) ltac:(lia)) as Hm.
  split; [|split].
  - rewrite <- (popcnt_split 32) by (simpl; lia).
    f_equal. change (2 ^ Z.of_nat 32) with (2 ^ 32).
    pose proof (Z.div_mod w (2 ^ 32) ltac:(lia)). lia.
  - split; [apply popcnt_nonneg | apply (popcnt_bound 32); simpl; lia].
  - split; [apply popcnt_nonneg | apply (popcnt_bound 32); simpl; lia].
Qed.


(** One pass over sixteen bytes, then the loop ends. *)
Lemma hamming_loop_one_pass (fuel : nat) (mem : list Z) (ptrA ptrB dist : Z)
    (a b : list Z) :
  v128_load mem ptrA = Some a ->
  v128_load mem ptrB = Some b ->
  hamming_loop (S (S fuel)) mem ptrA ptrB 16 dist
  = Some (Ok (wrap32 (dist +
                wrap32 (popcnt (extract_lane 0 (v128_xor a b)) +
                  wrap32 (popcnt (extract_lane 1 (v128_xor a b)) +
                    wrap32 (popcnt (extract_lane 2 (v128_xor a b)) +
                            popcnt (extract_lane 3 (v128_xor a b)))))))).
Proof.
  intros Ha Hb. cbn [hamming_loop].
  change (16 =? 0) with false. cbv iota. rewrite Ha, Hb.
  change (wrap32 (16 - 16)) with 0. reflexivity.
Qed.

(** The memory after the query (sixteen bytes) has been written at 0 and
    a stored vector (sixteen bytes) at 16. *)
Lemma two_word_memory (q d : list Z) :
  length q = 16%nat -> length d = 16%nat ->
  exists mem1 mem2,
    memory_set fresh_memory q 0 = Ok mem1
    /\ memory_set mem1 d 16 = Ok mem2
    /\ v128_load mem2 0 = Some q
    /\ v128_load mem2 16 = Some d.
Proof.
  intros Hq Hd.
  assert (Hfresh : length fresh_memory = Z.to_nat 65536).
  { unfold fresh_memory. now rewrite length_replicate. }
  exists (take 0 fresh_memory ++ q ++ drop (0 + length q) fresh_memory).
  set (mem1 := take 0 fresh_memory ++ q ++ drop (0 + length q) fresh_memory).
  assert (Hlen1 : length mem1 = Z.to_nat 65536).
  { unfold mem1. rewrite !length_app, length_take, length_drop. lia. }
  exists (take 16 mem1 ++ d ++ drop (16 + length d) mem1).
  set (mem2 := take 16 mem1 ++ d ++ drop (16 + length d) mem1).
  assert (Hlen2 : length mem2 = Z.to_nat 65536).
  { unfold mem2. rewrite !length_app, length_take, length_drop. lia. }
  assert (Htake : take 16 mem1 = q).
  { unfold mem1. rewrite take_0. simpl. now apply take_app_length'. }
  repeat split.
  - unfold memory_set. rewrite bool_decide_eq_true_2 by lia. reflexivity.
  - unfold memory_set. rewrite bool_decide_eq_true_2 by lia. reflexivity.
  - unfold v128_load. rewrite bool_decide_eq_true_2 by lia.
    change (Z.to_nat 0) with 0%nat. rewrite drop_0. unfold mem2.
    rewrite Htake. now rewrite take_app_length'.
  - unfold v128_load. rewrite bool_decide_eq_true_2 by lia.
    change (Z.to_nat 16) with 16%nat. unfold mem2. rewrite Htake.
    rewrite drop_app_length' by (symmetry; exact Hq). f_equal. now apply take_app_length'.
Qed.

Lemma words_bytes_two (w0 w1 : Z) :
  words_bytes [w0; w1] = le_split 8 w0 ++ le_split 8 w1.
Proof. unfold words_bytes. cbn [flat_map]. now rewrite app_nil_r. Qed.

(** On vectors of two words, where the two regions of the memory do not
    overlap, the kernel returns the distance of the scalar loop. *)
Lemma accelerated_agrees_on_two_words (q0 q1 d0 d1 : Z) :
  words_ok [q0; q1] -> words_ok [d0; d1] ->
  accelerated_distance [q0; q1] (VBig64 [d0; d1])
  = hammingDistance (VBig64 [q0; q1]) (VBig64 [d0; d1]).
Proof.
  intros Hq Hd.
  apply Forall_cons in Hq as [Hq0 Hq]. apply Forall_cons in Hq as [Hq1 _].
  apply Forall_cons in Hd as [Hd0 Hd]. apply Forall_cons in Hd as [Hd1 _].
  unfold two64 in *.
  destruct (two_word_memory (words_bytes [q0; q1]) (words_bytes [d0; d1]))
    as (mem1 & mem2 & Hset1 & Hset2 & Hload0 & Hload16).
  { rewrite words_bytes_two, length_app, !le_split_length. reflexivity. }
  { rewrite words_bytes_two, length_app, !le_split_length. reflexivity. }
  unfold accelerated_distance. rewrite Hset1. cbn [res_bind].
  unfold simd_distance, buffer_bytes. cbn [buffer_words res_bind].
  rewrite Hset2. cbn [res_bind].
  unfold hamming_distance.
  change (wrap32 0) with 0. change (wrap32 16) with 16.
  change (wrap32 (Z.of_nat (length [q0; q1]) * 8)) with 16.
  replace enough_fuel with (S (S (Z.to_nat 4095))) by (vm_compute; reflexivity).
  rewrite (hamming_loop_one_pass _ _ _ _ _ _ _ Hload0 Hload16).
  (* the lanes are the halves of the two xor-ed words *)
  rewrite !words_bytes_two. unfold v128_xor.
  rewrite zip_with_app by (now rewrite !le_split_length).
  rewrite !le_split_xor by lia.
  assert (Hx0 : 0 <= Z.lxor q0 d0 < 2 ^ 64).
  { split; [apply Z.lxor_nonneg; lia|].
    destruct (Z.eq_dec (Z.lxor q0 d0) 0) as [->|Hne]; [lia|].
    apply Z.log2_lt_pow2; [pose proof (Z.lxor_nonneg q0 d0); lia|].
    eapply Z.le_lt_trans; [apply Z.log2_lxor; lia|].
    apply Z.max_lub_lt.
    - destruct (Z.eq_dec q0 0) as [->|?]; [simpl; lia | apply Z.log2_lt_pow2; lia].
    - destruct (Z.eq_dec d0 0) as [->|?]; [simpl; lia | apply Z.log2_lt_pow2; lia]. }
  assert (Hx1 : 0 <= Z.lxor q1 d1 < 2 ^ 64).
  { split; [apply Z.lxor_nonneg; lia|].
    destruct (Z.eq_dec (Z.lxor q1 d1) 0) as [->|Hne]; [lia|].
    apply Z.log2_lt_pow2; [pose proof (Z.lxor_nonneg q1 d1); lia|].
    eapply Z.le_lt_trans; [apply Z.log2_lxor; lia|].
    apply Z.max_lub_lt.
    - destruct (Z.eq_dec q1 0) as [->|?]; [simpl; lia | apply Z.log2_lt_pow2; lia].
    - destruct (Z.eq_dec d1 0) as [->|?]; [simpl; lia | apply Z.log2_lt_pow2; lia]. }
  set (x0 := Z.lxor q0 d0) in *. set (x1 := Z.lxor q1 d1) in *.
  assert (L0 : extract_lane 0 (le_split 8 x0 ++ le_split 8 x1)
               = le_combine (take 4 (le_split 8 x0))) by reflexivity.
  assert (L1 : extract_lane 1 (le_split 8 x0 ++ le_split 8 x1)
               = le_combine (take 4 (drop 4 (le_split 8 x0)))) by reflexivity.
  assert (L2 : extract_lane 2 (le_split 8 x0 ++ le_split 8 x1)
               = le_combine (take 4 (le_split 8 x1))) by reflexivity.
  assert (L3 : extract_lane 3 (le_split 8 x0 ++ le_split 8 x1)
               = le_combine (take 4 (drop 4 (le_split 8 x1)))) by reflexivity.
  rewrite L0, L1, L2, L3.
  destruct (popcnt_lanes x0 Hx0) as (S0 & B00 & B01).
  destruct (popcnt_lanes x1 Hx1) as (S1 & B10 & B11).
  unfold hammingDistance. cbn [length_prop buffer_words res_bind length].
  rewrite bool_decide_eq_true_2 by reflexivity. cbn [negb xor_popcount_loop].
  fold x0 x1. rewrite !popcount_str_popcnt by lia.
  set (p00 := popcnt (le_combine (take 4 (le_split 8 x0)))) in *.
  set (p01 := popcnt (le_combine (take 4 (drop 4 (le_split 8 x0))))) in *.
  set (p10 := popcnt (le_combine (take 4 (le_split 8 x1)))) in *.
  set (p11 := popcnt (le_combine (take 4 (drop 4 (le_split 8 x1))))) in *.
  unfold wrap32, two32.
  rewrite (Z.mod_small (p10 + p11)) by lia.
  rewrite (Z.mod_small (p01 + (p10 + p11))) by lia.
  rewrite (Z.mod_small (p00 + (p01 + (p10 + p11)))) by lia.
  rewrite (Z.mod_small (0 + (p00 + (p01 + (p10 + p11))))) by lia.
  unfold to_int32.
  destruct (Z.ltb_spec (0 + (p00 + (p01 + (p10 + p11)))) (2 ^ 31)); [|lia].
  cbn [fst]. f_equal. lia.
Qed.

Lemma words_bytes_length (w : list Z) : length (words_bytes w) = (8 * length w)%nat.
Proof.
  unfold words_bytes. induction w as [|x w IH]; [reflexivity|].
  cbn [flat_map]. rewrite length_app, le_split_length, IH. simpl. lia.
Qed.

Lemma accelerated_traps_on_odd_words (q d : list Z) :
  Nat.odd (length q) = true ->
  8 * Z.of_nat (length q) <= page_size ->
  16 + 8 * Z.of_nat (length d) <= page_size ->
  accelerated_distance q (VBig64 d) = Err WasmTrap.
Proof.
  unfold page_size. intros Hodd Hq Hd.
  assert (Hfresh : length fresh_memory = Z.to_nat 65536).
  { unfold fresh_memory. now rewrite length_replicate. }
  unfold accelerated_distance.
  destruct (memory_set fresh_memory (words_bytes q) 0) as [mem1|e] eqn:E1.
  2:{ unfold memory_set in E1. rewrite words_bytes_length in E1.
      rewrite bool_decide_eq_true_2 in E1 by lia. discriminate. }
  pose proof (memory_set_length _ _ _ _ E1) as Hlen1.
  cbn [res_bind]. unfold simd_distance, buffer_bytes. cbn [buffer_words res_bind].
  destruct (memory_set mem1 (words_bytes d) 16) as [mem2|e] eqn:E2.
  2:{ unfold memory_set in E2. rewrite words_bytes_length in E2.
      rewrite bool_decide_eq_true_2 in E2 by lia. discriminate. }
  pose proof (memory_set_length _ _ _ _ E2) as Hlen2.
  cbn [res_bind].
  rewrite hamming_distance_odd_words; [reflexivity | | exact Hodd |].
  - rewrite Hlen2, Hlen1, Hfresh. reflexivity.
  - unfold two32. lia.
Qed.

End KernelFacts.
Import KernelFacts.

(** C1. On the 384-bit vector [[0, 0, 1, 0, 0, 0]] compared with itself
    the scalar [hammingDistance] returns 0 and the accelerated path returns
    2; through the class, the same store and query text give distance 0
    from [queryBinary] and 128 from [queryBinarySIMD]. *)
Theorem accelerated_path_differs_from_scalar :
  let a := [0; 0; 1; 0; 0; 0] in
  hammingDistance (VBig64 a) (VBig64 a) = Ok 0
  /\ accelerated_distance a (VBig64 a) = Ok 2
  /\ distances (queryBinary embedder384 settings (VStr "world") None one_binary384)
     = Ok [VNum 0]
  /\ distances (queryBinarySIMD embedder384 settings (VStr "world") None one_binary384)
     = Ok [VNum 128].
Proof. repeat split; vm_compute; reflexivity. Qed.

(** C3. [cosineSimilarity] on two arrays of numbers always returns a
    number, whatever their lengths: on [[1, 0]] and [[1, 0, 0]] it returns
    1 and raises nothing. *)
Theorem cosine_has_no_length_check :
  (forall a b : list float, cosineSimilarity (VArr a) (VArr b) = Ok (cosine a b))
  /\ length [1; 0]%float <> length [1; 0; 0]%float
  /\ cosineSimilarity (VArr [1; 0]%float) (VArr [1; 0; 0]%float) = Ok 1%float.
Proof.
  split; [reflexivity|]. split; [discriminate | vm_compute; reflexivity].
Qed.

(** ** Records and the store *)

Module StoreFacts.

Lemma get_prop_spread (a b : gmap string value) (f : string) :
  get_prop (spread a b) f
  = match b !! f with Some v => v | None => get_prop a f end.
Proof.
  unfold get_prop, spread.
  destruct (b !! f) as [v|] eqn:E.
  - now rewrite (lookup_union_Some_l b a f v E).
  - now rewrite lookup_union_r.
Qed.

Lemma spread_empty (a : gmap string value) : spread a ∅ = a.
Proof. unfold spread. apply (left_id_L ∅ (∪)). Qed.


Lemma get_prop_insert (o : gmap string value) (f g : string) (v : value) :
  get_prop (<[f := v]> o) g = if decide (f = g) then v else get_prop o g.
Proof.
  unfold get_prop. rewrite lookup_insert. now destruct (decide (f = g)).
Qed.

Section Config.
Variable this : config.

(** The merged record carries the key it is filed under. *)
Lemma merge_update_id (existing data : gmap string value) (key : value) :
  get_prop (merge_update this existing data key) keyPath = key.
Proof.
  unfold merge_update. rewrite !get_prop_insert.
  destruct (decide ("vector" = keyPath)) as [E|_]; [discriminate E|].
  now destruct (decide (keyPath = keyPath)).
Qed.

Lemma store_put_merge (existing data : gmap string value) (key : value)
    (k : idb_key) (s : gmap idb_key (gmap string value)) :
  to_key key = Some k ->
  store_put (merge_update this existing data key) s
  = (Done key, <[k := merge_update this existing data key]> s).
Proof.
  intros Hk. unfold store_put. now rewrite merge_update_id, Hk.
Qed.

(** One pass of [updateBatch] on a key the store does not hold. *)
Lemma updateBatch_loop_skip (u : gmap string value) (k : idb_key) :
  to_key (get_prop u "key") = Some k ->
  forall pre post s,
    s !! k = None ->
    updateBatch_loop this (pre ++ u :: post) s
    = updateBatch_loop this (pre ++ post) s.
Proof.
  intros Hk pre post. induction pre as [|p pre IH]; intros s Hs.
  - simpl. unfold tx_bind, store_get. now rewrite Hk, Hs.
  - simpl. unfold tx_bind, store_get.
    destruct (to_key (get_prop p "key")) as [kp|] eqn:Ep; [|reflexivity].
    destruct (s !! kp) as [existing|] eqn:Es; [|now apply IH].
    rewrite (store_put_merge _ _ _ kp) by exact Ep.
    apply IH. rewrite lookup_insert_ne; [exact Hs | congruence].
Qed.

(** A batch whose keys are all valid keys completes, and creates no
    record. *)
Lemma updateBatch_loop_completes (updates : list (gmap string value)) :
  Forall (fun u => is_Some (to_key (get_prop u "key"))) updates ->
  forall s, exists s',
    updateBatch_loop this updates s = (Done tt, s')
    /\ forall k, s !! k = None -> s' !! k = None.
Proof.
  induction 1 as [|u updates [ku Hku] _ IH]; intros s.
  - exists s. split; [reflexivity | tauto].
  - simpl. unfold tx_bind, store_get. rewrite Hku.
    destruct (s !! ku) as [existing|] eqn:Es; [|apply IH].
    rewrite (store_put_merge _ _ _ ku) by exact Hku.
    destruct (IH (<[ku := merge_update this existing (delete "key" u) (get_prop u "key")]> s))
      as (s' & Hrun & Hnone).
    exists s'. split; [exact Hrun|].
    intros k Hk. apply Hnone. rewrite lookup_insert_ne; [exact Hk | congruence].
Qed.

End Config.

End StoreFacts.
Import StoreFacts.

Module ScenarioFacts.

Lemma holds_stored (db : gmap idb_key (gmap string value)) (key : value) :
  holds db key = true -> db !! key_of key = Some (stored db key).
Proof.
  unfold holds, stored. intros [r Hr]%bool_decide_eq_true. now rewrite Hr.
Qed.

Lemma has_property (o : gmap string value) (f : string) (v : value) :
  get_prop o f = v -> v <> VUndef -> o !! f = Some v.
Proof.
  unfold get_prop. destruct (o !! f); simpl; congruence.
Qed.

Lemma run_result {A S} (p : A * S) (a : A) : fst p = a -> p = (a, snd p).
Proof. destruct p. simpl. congruence. Qed.

End ScenarioFacts.
Import ScenarioFacts.

(** C6. [update(id, {})] on a record the store holds under [id] completes
    and leaves every field of that record, the vector included, as it was;
    the other records are untouched. *)
Theorem update_empty_patch_keeps_record
    (this : config) (db : gmap idb_key (gmap string value))
    (id : value) (k : idb_key) (record : gmap string value) :
  to_key id = Some k ->
  db !! k = Some record ->
  get_prop record "id" = id ->
  exists db' record',
    update this id ∅ db = (Ok tt, db')
    /\ db' !! k = Some record'
    /\ (forall field, get_prop record' field = get_prop record field)
    /\ (forall k', k' <> k -> db' !! k' = db !! k')
    /\ (is_Some (record !! "id") -> is_Some (record !! "vector") -> db' = db).
Proof.
  intros Hk Hrec Hid.
  exists (<[k := merge_update this record ∅ id]> db), (merge_update this record ∅ id).
  assert (Hfields : forall field,
            get_prop (merge_update this record ∅ id) field = get_prop record field).
  { intros field. unfold merge_update. rewrite !get_prop_insert, spread_empty.
    unfold get_prop at 1 2. rewrite !lookup_empty. simpl.
    destruct (decide ("vector" = field)) as [<-|_]; [reflexivity|].
    destruct (decide (keyPath = field)) as [<-|_]; [now rewrite <- Hid | reflexivity]. }
  repeat split.
  - unfold update, transaction, tx_bind, store_get. rewrite Hk, Hrec.
    now rewrite (store_put_merge _ _ _ _ k) by exact Hk.
  - apply lookup_insert_eq.
  - exact Hfields.
  - intros k' Hne. now apply lookup_insert_ne.
  - intros [i Hi] [v Hv]. apply insert_id. rewrite Hrec. f_equal.
    unfold merge_update. rewrite spread_empty.
    unfold get_prop at 1 2. rewrite !lookup_empty. simpl.
    unfold get_prop. rewrite Hv. simpl.
    assert (Hkeep : <[keyPath := id]> record = record).
    { apply insert_id. unfold get_prop in Hid. rewrite Hi in Hid. simpl in Hid.
      now subst i. }
    rewrite Hkeep. symmetry. now apply insert_id.
Qed.

(** The empty patch on record 1 of the three manual records leaves the
    store as it was. *)
Lemma update_empty_patch_keeps_record_witness :
  to_key (VNum 1) = Some (key_of (VNum 1))
  /\ three_manual !! key_of (VNum 1) = Some (stored three_manual (VNum 1))
  /\ get_prop (stored three_manual (VNum 1)) "id" = VNum 1
  /\ exists db', update settings (VNum 1) ∅ three_manual = (Ok tt, db') /\ db' = three_manual.
Proof.
  assert (Hk : to_key (VNum 1) = Some (key_of (VNum 1))) by (vm_compute; reflexivity).
  assert (Hr : three_manual !! key_of (VNum 1) = Some (stored three_manual (VNum 1)))
    by (apply holds_stored; vm_compute; reflexivity).
  assert (Hid : get_prop (stored three_manual (VNum 1)) "id" = VNum 1)
    by (vm_compute; reflexivity).
  split; [exact Hk|]. split; [exact Hr|]. split; [exact Hid|].
  destruct (update_empty_patch_keeps_record settings three_manual (VNum 1) _ _ Hk Hr Hid)
    as (db' & record' & Hrun & _ & _ & _ & Hsame).
  exists db'. split; [exact Hrun|].
  apply Hsame; eexists; (apply has_property; [vm_compute; reflexivity | discriminate]).
Defined.

(** ** Embeddings held by the store *)

Module EmbeddingFacts.

Lemma nonempty_is_array (v : value) : is_nonempty_array v = true -> is_array v = true.
Proof. now destruct v as [| | | | |[|]|]. Qed.

Section Config.
Variable this : config.

Lemma hasEmbedding_true (key : value) (db : gmap idb_key (gmap string value)) :
  hasEmbedding this key db = Ok true
  <-> exists k record,
        to_key key = Some k /\ db !! k = Some record
        /\ is_nonempty_array (record_vector this record) = true.
Proof.
  unfold hasEmbedding, transaction, store_get.
  destruct (to_key key) as [k|] eqn:Ek; simpl.
  - destruct (db !! k) as [record|] eqn:Er; simpl.
    + destruct (is_nonempty_array (record_vector this record)) eqn:Ev.
      * rewrite (nonempty_is_array _ Ev). simpl.
        split; [intros _; now exists k, record | reflexivity].
      * rewrite orb_true_r.
        split; [discriminate | intros (k' & r' & Hk' & Hr' & H); simplify_eq; congruence].
    + split; [discriminate | intros (k' & r' & Hk' & Hr' & _); simplify_eq].
  - split; [discriminate | intros (k' & r' & Hk' & _); simplify_eq].
Qed.

Lemma hasEmbedding_false (key : value) (k : idb_key)
    (record : gmap string value) (db : gmap idb_key (gmap string value)) :
  to_key key = Some k -> db !! k = Some record ->
  is_array (record_vector this record) = false ->
  hasEmbedding this key db = Ok false.
Proof.
  intros Hk Hr Hv. unfold hasEmbedding, transaction, store_get.
  rewrite Hk. simpl. rewrite Hr. simpl. now rewrite Hv.
Qed.

(** The record [insertBinary] builds over an input without an array under
    the configured field or under "vector" resolves to no array. *)
Lemma packed_record_vector (data : gmap string value) (packed : list Z) :
  is_array (get_prop data (vectorPath this)) = false ->
  is_array (get_prop data "vector") = false ->
  is_array (record_vector this (spread {["vector" := VBig64 packed]} data)) = false.
Proof.
  intros Hpath Hvec.
  unfold record_vector, nullish_or. rewrite !get_prop_spread.
  unfold get_prop in *.
  destruct (data !! vectorPath this) as [a|] eqn:Ea; simpl in *;
    destruct (data !! "vector") as [b|] eqn:Eb; simpl in *;
    destruct (decide (vectorPath this = "vector")) as [Hvp|Hvp];
    rewrite ?Hvp, ?lookup_singleton_eq, ?lookup_singleton_ne by congruence; simpl;
    repeat (match goal with |- context [is_nullish ?x] => destruct (is_nullish x) end);
    simpl; congruence.
Qed.

Lemma hasEmbeddings_loop_agrees (keys : list value) :
  forall result_ s r s',
    hasEmbeddings_loop this keys result_ s = (r, s') ->
    s' = s /\ forall res, r = Done res ->
               exists added, res = result_ ++ added /\ Forall2 (agrees this s) keys added.
Proof.
  induction keys as [|key keys IH]; intros result_ s r s' Hrun.
  - injection Hrun as <- <-. split; [reflexivity|].
    intros res [= <-]. exists []. now rewrite app_nil_r.
  - cbn [hasEmbeddings_loop] in Hrun. unfold tx_bind, store_get in Hrun.
    destruct (to_key key) as [k|] eqn:Ek.
    2:{ injection Hrun as <- <-. split; [reflexivity | discriminate]. }
    assert (Hone : forall b,
              b = match s !! k with
                  | Some record => is_array (record_vector this record)
                                   && is_nonempty_array (record_vector this record)
                  | None => false
                  end ->
              agrees this s key (key, b)).
    { intros b ->. split; [reflexivity|]. simpl.
      rewrite hasEmbedding_true. split.
      - destruct (s !! k) as [record|] eqn:Er; [|discriminate].
        intros [_ H]%andb_true_iff. now exists k, record.
      - intros (k' & record & Hk' & Hr & Hv).
        rewrite Ek in Hk'. injection Hk' as <-. rewrite Hr.
        now rewrite Hv, (nonempty_is_array _ Hv). }
    destruct (s !! k) as [record|] eqn:Er;
      apply IH in Hrun as [-> Hres]; (split; [reflexivity|]);
      intros res Hr; destruct (Hres res Hr) as (added & -> & Hall);
      eexists (_ :: added); rewrite <- app_assoc; (split; [reflexivity|]);
      (constructor; [now apply Hone | exact Hall]).
Qed.

Lemma hasEmbeddings_loop_completes (keys : list value) :
  Forall (fun key => is_Some (to_key key)) keys ->
  forall result_ s, exists res,
    hasEmbeddings_loop this keys result_ s = (Done res, s).
Proof.
  induction 1 as [|key keys [k Hk] _ IH]; intros result_ s.
  - now exists result_.
  - cbn [hasEmbeddings_loop]. unfold tx_bind, store_get. rewrite Hk.
    destruct (s !! k); apply IH.
Qed.

End Config.

Section Binary.
Variable getEmbeddingFromText : value -> string -> result (list float).
Variable this : config.

(** What [insertBinary] stores when it succeeds. *)
Lemma insertBinary_stores (data : gmap string value)
    (db db' : gmap idb_key (gmap string value)) (key : value) :
  insertBinary getEmbeddingFromText this data db = (Ok key, db') ->
  exists k packedEmbedding,
    key = get_prop data "id"
    /\ to_key key = Some k
    /\ db !! k = None
    /\ db' = <[k := spread {["vector" := VBig64 packedEmbedding]} data]> db.
Proof.
  unfold insertBinary.
  destruct (is_nullish (get_prop data "id")); [discriminate|].
  destruct (resolve_embedding _ _ data) as [embedding|e]; [|discriminate]. simpl.
  destruct (binarize_value embedding) as [bits|e]; [|discriminate]. simpl.
  unfold transaction, store_add.
  set (record := spread {["vector" := VBig64 (pack bits)]} data).
  assert (Hid : get_prop record keyPath = get_prop data "id").
  { unfold record. rewrite get_prop_spread. unfold get_prop, keyPath.
    destruct (data !! "id"); [reflexivity|].
    now rewrite lookup_singleton_ne. }
  rewrite Hid.
  destruct (to_key (get_prop data "id")) as [k|] eqn:Ek; [|discriminate].
  destruct (db !! k) eqn:Edb; [discriminate|].
  intros [= <- <-]. now exists k, (pack bits).
Qed.


End Binary.

End EmbeddingFacts.
Import EmbeddingFacts.

(** C9, amended. [hasEmbedding] answers true exactly when the value resolved
    as [record[vectorPath] ?? record.vector] is a non-empty plain array, and
    [hasEmbeddings] assigns each key what [hasEmbedding] answers; for a
    record stored by [insertBinary] from an input that carries no array
    under the configured field nor under "vector", both answer false. *)
Theorem hasEmbedding_reads_resolved_vector
    (getEmbeddingFromText : value -> string -> result (list float)) (this : config) :
  (forall key db,
     hasEmbedding this key db = Ok true
     <-> exists k record,
           to_key key = Some k /\ db !! k = Some record
           /\ is_nonempty_array (record_vector this record) = true)
  /\ (forall keys db res,
        hasEmbeddings this keys db = Ok res -> Forall2 (agrees this db) keys res)
  /\ (forall keys db,
        Forall (fun key => is_Some (to_key key)) keys ->
        exists res, hasEmbeddings this keys db = Ok res)
  /\ (forall data db key db',
        insertBinary getEmbeddingFromText this data db = (Ok key, db') ->
        is_array (get_prop data (vectorPath this)) = false ->
        is_array (get_prop data "vector") = false ->
        hasEmbedding this key db' = Ok false
        /\ hasEmbeddings this [key] db' = Ok [(key, false)]).
Proof.
  split; [|split; [|split]].
  - intros key db. apply hasEmbedding_true.
  - intros keys db res Hres. unfold hasEmbeddings, transaction in Hres.
    destruct (hasEmbeddings_loop this keys [] db) as [r s'] eqn:Hrun.
    apply hasEmbeddings_loop_agrees in Hrun as [-> Hagree].
    destruct r as [res'|e|e]; [|discriminate..]. simpl in Hres. injection Hres as ->.
    destruct (Hagree res eq_refl) as (added & -> & Hall). exact Hall.
  - intros keys db Hvalid. unfold hasEmbeddings, transaction.
    destruct (hasEmbeddings_loop_completes this keys Hvalid [] db) as (res & ->).
    now exists res.
  - intros data db key db' Hrun Hpath Hvec.
    apply insertBinary_stores in Hrun as (k & packed & -> & Hk & _ & ->).
    pose proof (packed_record_vector this data packed Hpath Hvec) as Hno.
    split.
    + exact (hasEmbedding_false this _ k _ _ Hk (lookup_insert_eq _ _ _) Hno).
    + unfold hasEmbeddings, transaction. cbn [hasEmbeddings_loop].
      unfold tx_bind, store_get.
      rewrite Hk, lookup_insert_eq. cbn [hasEmbeddings_loop tx_ret fst app].
      now rewrite Hno.
Qed.

(** A record embedded from its text and stored by [insertBinary] is
    reported as having no embedding. *)
Lemma hasEmbedding_reads_resolved_vector_witness :
  insertBinary embedder settings with_text ∅
  = (Ok (VNum 2), after_insert (insertBinary embedder settings with_text ∅))
  /\ is_array (get_prop with_text (vectorPath settings)) = false
  /\ is_array (get_prop with_text "vector") = false
  /\ hasEmbedding settings (VNum 2) (after_insert (insertBinary embedder settings with_text ∅))
     = Ok false.
Proof.
  assert (Hrun : insertBinary embedder settings with_text ∅
                 = (Ok (VNum 2), after_insert (insertBinary embedder settings with_text ∅)))
    by (apply run_result; vm_compute; reflexivity).
  assert (Hvp : is_array (get_prop with_text (vectorPath settings)) = false)
    by (vm_compute; reflexivity).
  assert (Hvec : is_array (get_prop with_text "vector") = false)
    by (vm_compute; reflexivity).
  split; [exact Hrun|]. split; [exact Hvp|]. split; [exact Hvec|].
  exact (proj1 (proj2 (proj2 (proj2 (hasEmbedding_reads_resolved_vector embedder settings)))
                  with_text ∅ (VNum 2) _ Hrun Hvp Hvec)).
Defined.

(** C9 as stated fails: a record stored by [insertBinary] from an input
    that carries its dense embedding under the configured field holds a
    packed vector, and [hasEmbedding] and [hasEmbeddings] answer true. *)
Lemma hasEmbedding_true_after_insertBinary :
  let inserted := insertBinary embedder settings with_embedding ∅ in
  fst inserted = Ok (VNum 1)
  /\ get_prop (stored (snd inserted) (VNum 1)) "vector" = VBig64 [6]
  /\ hasEmbedding settings (VNum 1) (snd inserted) = Ok true
  /\ hasEmbeddings settings [VNum 1] (snd inserted) = Ok [(VNum 1, true)].
Proof. repeat split; vm_compute; reflexivity. Qed.

(** ** Queries *)

Module QueryFacts.

Lemma slice0_zero {A} (l : list A) : slice0 l 0 = [].
Proof.
  unfold slice0. simpl.
  now replace (Z.to_nat (Z.min 0 (Z.of_nat (length l)))) with 0%nat by lia.
Qed.

Lemma slice0_negative {A} (l : list A) (e : Z) :
  e < 0 -> slice0 l e = take (length l - Z.to_nat (- e)) l.
Proof.
  intros He. unfold slice0.
  destruct (Z.ltb_spec e 0); [|lia]. f_equal. lia.
Qed.

Lemma slice0_all {A} (l : list A) : slice0 l (Z.of_nat (length l)) = l.
Proof.
  unfold slice0.
  destruct (Z.ltb_spec (Z.of_nat (length l)) 0); [lia|].
  rewrite Z.min_id, Nat2Z.id. apply firstn_all.
Qed.

Lemma rethrow_ok {A} (prefix : string) (r : result A) (a : A) :
  rethrow prefix r = Ok a <-> r = Ok a.
Proof. destruct r; simpl; split; congruence. Qed.

End QueryFacts.
Import QueryFacts.

(** The query scenario of the specification: records 1, 2, 3 with vectors
    [[1,0,0]], [[0,1,0]], [[1,1,0]]; the query [[1,0,0]] with limit 2
    returns record 1 with similarity 1 and record 3 with similarity
    0.707..., in that order. *)
Lemma manual_query_scenario :
  (fun r => map (fun o => (get_prop o "id", get_prop o "similarity")) (returned r))
    (queryManualVectors settings (VArr [1; 0; 0]%float) (Some 2) three_manual)
  = [(VNum 1, VNum 1); (VNum 3, VNum 0.70710678118654746)].
Proof. vm_compute. reflexivity. Qed.

(** C4 as stated fails: with limit -1 each of the three queries returns
    records. *)
Lemma negative_limit_returns_records :
  -1 <= 0
  /\ count (queryManualVectors settings (VArr [1; 0; 0]%float) (Some (-1)) three_manual)
     = Some 2%nat
  /\ count (query embedder settings (VStr "hello") (Some (-1)) two_dense) = Some 1%nat
  /\ count (queryBinary embedder settings (VStr "hello") (Some (-1)) two_binary) = Some 1%nat.
Proof.
  split; [lia|]. repeat split; vm_compute; reflexivity.
Qed.

(* ===================================================================== *)
(** * Further properties of the module                                    *)
(* ===================================================================== *)

Module FloatFacts.

Lemma binary_round_aux_sign (sx : bool) (mx ex : Z) (lx : location) :
  positive_sf (binary_round_aux prec emax sx mx ex lx) = true -> sx = false.
Proof.
  unfold binary_round_aux.
  destruct (shr_fexp prec emax mx ex lx) as [mrs' e'].
  destruct (shr_fexp prec emax _ e' loc_Exact) as [mrs'' e''].
  destruct (shr_m mrs''); [| |discriminate].
  - cbv [positive_sf SFltb SFcompare]. discriminate.
  - destruct (e'' <=? emax - prec); destruct sx; cbv [positive_sf SFltb SFcompare]; congruence.
Qed.

Lemma binary_round_sign (sx : bool) (mx : positive) (ex : Z) :
  positive_sf (binary_round prec emax sx mx ex) = true -> sx = false.
Proof.
  unfold binary_round. destruct (shl_align _ _ _) as [mz ez].
  apply binary_round_aux_sign.
Qed.

Lemma binary_normalize_sign (m e : Z) :
  positive_sf (binary_normalize prec emax m e false) = true -> 0 < m.
Proof.
  destruct m as [|m|m]; simpl.
  - cbv [positive_sf SFltb SFcompare]. discriminate.
  - lia.
  - intros H. apply binary_round_sign in H. discriminate.
Qed.

Lemma SFsub_antisym (x y : spec_float) :
  positive_sf (SFsub prec emax x y) = true ->
  positive_sf (SFsub prec emax y x) = false.
Proof.
  destruct x as [sx|sx| |sx mx ex], y as [sy|sy| |sy my ey];
    try (cbv [positive_sf SFltb SFcompare SFsub negb]; congruence);
    try (destruct sx, sy; cbv [positive_sf SFltb SFcompare SFsub negb]; congruence);
    try (destruct sx; cbv [positive_sf SFltb SFcompare SFsub negb]; congruence);
    try (destruct sy; cbv [positive_sf SFltb SFcompare SFsub negb]; congruence).
  unfold SFsub. intros H. apply binary_normalize_sign in H.
  destruct (positive_sf _) eqn:E; [|reflexivity].
  apply binary_normalize_sign in E. rewrite (Z.min_comm ey ex) in E. lia.
Qed.

(** [a - b > 0] and [b - a > 0] never hold together. *)
Lemma sub_antisym (a b : float) :
  (0 <? a - b)%float = true -> (0 <? b - a)%float = false.
Proof.
  rewrite !FloatAxioms.ltb_spec, !FloatAxioms.sub_spec. apply SFsub_antisym.
Qed.

End FloatFacts.
Import FloatFacts.

Module OrderedFloats.

Lemma digits2_bounds (p : positive) :
  2 ^ (Zpos (digits2_pos p) - 1) <= Zpos p < 2 ^ Zpos (digits2_pos p).
Proof.
  induction p as [p IH|p IH|]; cbn [digits2_pos]; [| |simpl; lia].
  all: rewrite Pos2Z.inj_succ.
  all: replace (Z.succ (Zpos (digits2_pos p)) - 1) with (Z.succ (Zpos (digits2_pos p) - 1)) by lia.
  all: rewrite !Z.pow_succ_r by lia.
  all: lia.
Qed.

(** A valid finite number: its exponent is within bounds, its mantissa
    has at most 53 digits, exactly 53 above the smallest exponent. *)
Lemma bounded_inv (m : positive) (e : Z) :
  bounded prec emax m e = true ->
  -1074 <= e <= 971
  /\ Zpos (digits2_pos m) <= 53
  /\ (e = -1074 \/ Zpos (digits2_pos m) = 53).
Proof.
  unfold bounded, canonical_mantissa, fexp, SpecFloat.emin, prec, emax.
  intros [Hc He]%andb_true_iff. apply Z.eqb_eq in Hc. apply Z.leb_le in He. lia.
Qed.

Lemma pow_split (a b : Z) : 0 <= a -> 0 <= b -> 2 ^ (a + b) = 2 ^ a * 2 ^ b.
Proof. intros. now apply Z.pow_add_r. Qed.

Lemma mul_compare (a b c : Z) : 0 < c -> (a * c ?= b * c) = (a ?= b).
Proof.
  intros Hc. destruct (Z.compare_spec a b) as [->|H|H];
    [apply Z.compare_refl | apply Z.compare_lt_iff | apply Z.compare_gt_iff];
    now apply Z.mul_lt_mono_pos_r.
Qed.

Lemma rank_exponent (m1 m2 : positive) (e1 e2 : Z) :
  bounded prec emax m1 e1 = true -> bounded prec emax m2 e2 = true ->
  e1 < e2 ->
  Zpos m1 * 2 ^ (e1 + 1074) < Zpos m2 * 2 ^ (e2 + 1074).
Proof.
  intros (He1 & Hd1 & _)%bounded_inv (He2 & _ & Hn2)%bounded_inv Hlt.
  destruct Hn2 as [Hn2|Hn2]; [lia|].
  pose proof (digits2_bounds m1) as [_ Hm1].
  pose proof (digits2_bounds m2) as [Hm2 _]. rewrite Hn2 in Hm2.
  assert (Hm1' : Zpos m1 < 2 ^ 53).
  { eapply Z.lt_le_trans; [exact Hm1|]. apply Z.pow_le_mono_r; lia. }
  replace (e2 + 1074) with ((e1 + 1074) + 1 + (e2 - e1 - 1)) by lia.
  rewrite (pow_split (e1 + 1074 + 1) (e2 - e1 - 1)), (pow_split (e1 + 1074) 1) by lia.
  assert (0 < 2 ^ (e1 + 1074)) by (apply Z.pow_pos_nonneg; lia).
  assert (0 < 2 ^ (e2 - e1 - 1)) by (apply Z.pow_pos_nonneg; lia).
  change (2 ^ 53) with (2 ^ 52 * 2) in Hm1'. change (53 - 1) with 52 in Hm2.
  change (2 ^ 1) with 2.
  set (B := 2 ^ 52) in *. set (P := 2 ^ (e1 + 1074)) in *. set (Q := 2 ^ (e2 - e1 - 1)) in *.
  assert (Z.pos m1 * P < B * 2 * P) by (apply Z.mul_lt_mono_pos_r; lia).
  assert (B * 2 * P <= Z.pos m2 * (P * 2)) by nia.
  assert (Z.pos m2 * (P * 2) * 1 <= Z.pos m2 * (P * 2) * Q) by (apply Z.mul_le_mono_nonneg_l; lia).
  lia.
Qed.

Lemma rank_finite (s : bool) (m : positive) (e : Z) :
  bounded prec emax m e = true ->
  0 < Zpos m * 2 ^ (e + 1074) < 2 ^ 2098.
Proof.
  intros (He & Hd & _)%bounded_inv.
  pose proof (digits2_bounds m) as [_ Hm].
  assert (Hm' : Zpos m < 2 ^ 53).
  { eapply Z.lt_le_trans; [exact Hm|]. apply Z.pow_le_mono_r; lia. }
  assert (0 < 2 ^ (e + 1074)) by (apply Z.pow_pos_nonneg; lia).
  split; [lia|].
  replace 2098 with (53 + 2045) by lia. rewrite (pow_split 53 2045) by lia.
  assert (2 ^ (e + 1074) <= 2 ^ 2045) by (apply Z.pow_le_mono_r; lia).
  assert (0 < 2 ^ 53) by (apply Z.pow_pos_nonneg; lia).
  set (B := 2 ^ 53) in *. set (P := 2 ^ (e + 1074)) in *. set (T := 2 ^ 2045) in *.
  assert (Z.pos m * P < B * P) by (apply Z.mul_lt_mono_pos_r; lia).
  assert (B * P <= B * T) by (apply Z.mul_le_mono_nonneg_l; lia).
  lia.
Qed.

(** On valid numbers the comparison of the standard is the comparison of
    the ranks. *)
Lemma compare_rank (x y : spec_float) :
  valid_binary prec emax x = true -> valid_binary prec emax y = true ->
  not_nan x -> not_nan y ->
  SFcompare x y = Some (rank x ?= rank y).
Proof.
  assert (Hbig : 0 < 2 ^ 2098) by (apply Z.pow_pos_nonneg; lia).
  intros Hx Hy Nx Ny.
  destruct x as [sx|sx| |sx mx ex], y as [sy|sy| |sy my ey];
    try (now contradiction Nx); try (now contradiction Ny);
    cbn [valid_binary] in Hx, Hy; cbn [SFcompare rank]; f_equal; symmetry.
  - destruct sy; cbn [cond_Zopp]; [apply Z.compare_gt_iff | apply Z.compare_lt_iff]; lia.
  - pose proof (rank_finite sy my ey Hy).
    destruct sy; cbn [cond_Zopp]; [apply Z.compare_gt_iff | apply Z.compare_lt_iff]; lia.
  - destruct sx; cbn [cond_Zopp]; [apply Z.compare_lt_iff | apply Z.compare_gt_iff]; lia.
  - destruct sx, sy; cbn [cond_Zopp];
      [apply Z.compare_eq_iff | apply Z.compare_lt_iff | apply Z.compare_gt_iff
       | apply Z.compare_eq_iff]; lia.
  - pose proof (rank_finite sy my ey Hy).
    destruct sx, sy; cbn [cond_Zopp];
      [apply Z.compare_lt_iff | apply Z.compare_lt_iff | apply Z.compare_gt_iff
       | apply Z.compare_gt_iff]; lia.
  - pose proof (rank_finite sx mx ex Hx).
    destruct sx; cbn [cond_Zopp]; [apply Z.compare_lt_iff | apply Z.compare_gt_iff]; lia.
  - pose proof (rank_finite sx mx ex Hx).
    destruct sx, sy; cbn [cond_Zopp];
      [apply Z.compare_gt_iff | apply Z.compare_lt_iff | apply Z.compare_gt_iff
       | apply Z.compare_lt_iff]; lia.
  - pose proof (rank_finite sx mx ex Hx). pose proof (rank_finite sy my ey Hy).
    pose proof (bounded_inv _ _ Hx) as (Hex & _). 
    assert (Hp : 0 < 2 ^ (ex + 1074)) by (apply Z.pow_pos_nonneg; lia).
    destruct sx, sy; cbn [cond_Zopp];
      [| apply Z.compare_lt_iff; lia | apply Z.compare_gt_iff; lia |].
    + destruct (Z.compare_spec ex ey) as [->|Hlt|Hgt].
      * change (Pos.compare_cont Eq mx my) with (Z.pos mx ?= Z.pos my).
        rewrite Z.compare_opp, mul_compare by exact Hp.
        apply Z.compare_antisym.
      * apply Z.compare_gt_iff. pose proof (rank_exponent _ _ _ _ Hx Hy Hlt). lia.
      * apply Z.compare_lt_iff. pose proof (rank_exponent _ _ _ _ Hy Hx Hgt). lia.
    + destruct (Z.compare_spec ex ey) as [->|Hlt|Hgt].
      * change (Pos.compare_cont Eq mx my) with (Z.pos mx ?= Z.pos my).
        now rewrite mul_compare by exact Hp.
      * apply Z.compare_lt_iff. exact (rank_exponent _ _ _ _ Hx Hy Hlt).
      * apply Z.compare_gt_iff. pose proof (rank_exponent _ _ _ _ Hy Hx Hgt). lia.
Qed.

(** One step of the right shift halves the mantissa. *)
Lemma shr_1_m (mrs : shr_record) :
  0 <= shr_m mrs -> shr_m (shr_1 mrs) = shr_m mrs / 2 /\ 0 <= shr_m (shr_1 mrs).
Proof.
  destruct mrs as [m r s]. cbn [shr_m shr_1].
  destruct m as [|[p|p|]|p]; cbn [shr_m]; intros Hm; try lia.
  - split; [reflexivity | lia].
  - rewrite (Pos2Z.inj_xI p). split; [|lia].
    apply (Z.div_unique_pos _ _ _ 1); lia.
  - rewrite (Pos2Z.inj_xO p). split; [|lia].
    apply (Z.div_unique_pos _ _ _ 0); lia.
  - split; [reflexivity | lia].
Qed.

Lemma shr_iter_m (p : positive) : forall mrs,
  0 <= shr_m mrs ->
  shr_m (SpecFloat.iter_pos shr_1 p mrs) = shr_m mrs / 2 ^ Zpos p
  /\ 0 <= shr_m (SpecFloat.iter_pos shr_1 p mrs).
Proof.
  induction p as [p IH|p IH|]; intros mrs Hm; cbn [SpecFloat.iter_pos].
  - destruct (shr_1_m mrs Hm) as [H1 P1].
    destruct (IH _ P1) as [H2 P2]. destruct (IH _ P2) as [H3 P3].
    split; [|exact P3]. rewrite H3, H2, H1.
    rewrite (Pos2Z.inj_xI p).
    replace (2 * Zpos p + 1) with (1 + Zpos p + Zpos p) by lia.
    rewrite !Z.pow_add_r by lia. change (2 ^ 1) with 2.
    assert (0 < 2 ^ Zpos p) by (apply Z.pow_pos_nonneg; lia).
    rewrite !Z.div_div by lia. f_equal. ring.
  - destruct (IH _ Hm) as [H2 P2]. destruct (IH _ P2) as [H3 P3].
    split; [|exact P3]. rewrite H3, H2.
    rewrite (Pos2Z.inj_xO p).
    replace (2 * Zpos p) with (Zpos p + Zpos p) by lia.
    rewrite !Z.pow_add_r by lia.
    assert (0 < 2 ^ Zpos p) by (apply Z.pow_pos_nonneg; lia).
    now rewrite !Z.div_div by lia.
  - destruct (shr_1_m mrs Hm) as [H1 P1]. split; [|exact P1].
    rewrite H1. reflexivity.
Qed.

(** Rounding a positive mantissa to the format, from an exponent that is
    not below the smallest one, leaves a positive mantissa: nothing
    underflows to zero. *)
Lemma shr_fexp_pos (m e : Z) (l : location) :
  0 < m -> -1074 <= e ->
  0 < shr_m (fst (shr_fexp prec emax m e l)) /\ -1074 <= snd (shr_fexp prec emax m e l).
Proof.
  intros Hm He. unfold shr_fexp, shr.
  destruct m as [|m|m]; try lia. cbn [Zdigits2].
  pose proof (digits2_bounds m) as [Hlow _].
  set (d := Zpos (digits2_pos m)) in *.
  assert (Hshift : fexp prec emax (d + e) - e <= d - 1).
  { unfold fexp, SpecFloat.emin, prec, emax. lia. }
  assert (Hrec : shr_m (shr_record_of_loc (Zpos m) l) = Zpos m)
    by (destruct l as [|[| |]]; reflexivity).
  destruct (fexp prec emax (d + e) - e) as [|n|n] eqn:En; cbn [fst snd].
  - rewrite Hrec. lia.
  - destruct (shr_iter_m n (shr_record_of_loc (Zpos m) l)) as [Hdiv _]; [rewrite Hrec; lia|].
    rewrite Hdiv, Hrec. split; [|lia].
    assert (2 ^ Zpos n <= 2 ^ (d - 1)) by (apply Z.pow_le_mono_r; lia).
    assert (0 < 2 ^ Zpos n) by (apply Z.pow_pos_nonneg; lia).
    apply Z.div_str_pos. lia.
  - rewrite Hrec. lia.
Qed.

Lemma round_nearest_even_le (m : Z) (l : location) : m <= round_nearest_even m l.
Proof. destruct l as [|[| |]]; cbn [round_nearest_even]; try lia. destruct (Z.even m); lia. Qed.

Lemma binary_round_aux_pos (m e : Z) (l : location) :
  0 < m -> -1074 <= e ->
  positive_sf (binary_round_aux prec emax false m e l) = true.
Proof.
  intros Hm He. unfold binary_round_aux.
  destruct (shr_fexp_pos m e l Hm He) as [Hm1 He1].
  destruct (shr_fexp prec emax m e l) as [mrs' e']. cbn [fst snd] in Hm1, He1.
  pose proof (round_nearest_even_le (shr_m mrs') (loc_of_shr_record mrs')) as Hle.
  destruct (shr_fexp_pos (round_nearest_even (shr_m mrs') (loc_of_shr_record mrs')) e'
              loc_Exact ltac:(lia) He1) as [Hm2 _].
  destruct (shr_fexp prec emax _ e' loc_Exact) as [mrs'' e'']. cbn [fst] in Hm2.
  destruct (shr_m mrs'') as [|m2|m2]; try lia.
  now destruct (e'' <=? emax - prec).
Qed.

Lemma pos_iter_xO (m d : positive) : Zpos (Pos.iter xO m d) = Zpos m * 2 ^ Zpos d.
Proof.
  induction d as [|d IH] using Pos.peano_ind.
  - cbn. lia.
  - rewrite Pos.iter_succ, (Pos2Z.inj_xO (Pos.iter xO m d)), IH, Pos2Z.inj_succ,
      Z.pow_succ_r by lia. lia.
Qed.

(** Aligning a mantissa to a smaller exponent keeps the value. *)
Lemma shl_align_value (m : positive) (e ez : Z) :
  ez <= e ->
  Zpos (fst (shl_align m e ez)) = Zpos m * 2 ^ (e - ez).
Proof.
  intros Hle. unfold shl_align.
  destruct (ez - e) as [|d|d] eqn:Ed; cbn [fst].
  - replace (e - ez) with 0 by lia. lia.
  - lia.
  - rewrite pos_iter_xO. f_equal. f_equal. lia.
Qed.

Lemma shl_align_exponent (m : positive) (e ez : Z) :
  -1074 <= e -> -1074 <= ez -> -1074 <= snd (shl_align m e ez).
Proof. intros. unfold shl_align. now destruct (ez - e). Qed.

Lemma binary_round_pos (m : positive) (e : Z) :
  -1074 <= e -> positive_sf (binary_round prec emax false m e) = true.
Proof.
  intros He. unfold binary_round.
  pose proof (shl_align_exponent m e (fexp prec emax (Zpos (digits2_pos m) + e)) He) as Hez.
  destruct (shl_align _ _ _) as [mz ez]. cbn [snd] in Hez.
  apply binary_round_aux_pos; [lia|].
  apply Hez. unfold fexp, SpecFloat.emin, prec, emax. lia.
Qed.

Lemma binary_round_neg (m : positive) (e : Z) :
  positive_sf (binary_round prec emax true m e) = false.
Proof.
  unfold binary_round, binary_round_aux.
  destruct (shl_align _ _ _) as [mz ez].
  destruct (shr_fexp prec emax (Zpos mz) ez loc_Exact) as [mrs' e'].
  destruct (shr_fexp prec emax _ e' loc_Exact) as [mrs'' e''].
  destruct (shr_m mrs''); [reflexivity | | reflexivity].
  now destruct (e'' <=? emax - prec).
Qed.

(** The sign of a difference: [x - y] is above zero exactly when [x] is
    above [y]. *)
Lemma sub_rank (x y : spec_float) :
  valid_binary prec emax x = true -> valid_binary prec emax y = true ->
  not_nan x -> not_nan y ->
  positive_sf (SFsub prec emax x y) = true <-> rank y < rank x.
Proof.
  assert (Hbig : 0 < 2 ^ 2098) by (apply Z.pow_pos_nonneg; lia).
  intros Hx Hy Nx Ny.
  destruct x as [sx|sx| |sx mx ex], y as [sy|sy| |sy my ey];
    try (now contradiction Nx); try (now contradiction Ny);
    cbn [valid_binary] in Hx, Hy; cbn [rank].
  - destruct sx, sy; cbn; split; (discriminate || lia).
  - destruct sy; cbn; split; (discriminate || lia || reflexivity).
  - pose proof (rank_finite sy my ey Hy).
    destruct sy; cbn [SFsub negb cond_Zopp]; split; (discriminate || lia || reflexivity).
  - destruct sx; cbn; split; (discriminate || lia || reflexivity).
  - destruct sx, sy; cbn; split; (discriminate || lia || reflexivity).
  - pose proof (rank_finite sy my ey Hy).
    destruct sx, sy; cbn [SFsub negb cond_Zopp]; split; (discriminate || lia || reflexivity).
  - pose proof (rank_finite sx mx ex Hx).
    destruct sx; cbn [SFsub negb cond_Zopp]; split; (discriminate || lia || reflexivity).
  - pose proof (rank_finite sx mx ex Hx).
    destruct sx, sy; cbn [SFsub negb cond_Zopp]; split; (discriminate || lia || reflexivity).
  - pose proof (bounded_inv _ _ Hx) as (Hex & _).
    pose proof (bounded_inv _ _ Hy) as (Hey & _).
    cbn [SFsub]. set (ez := Z.min ex ey).
    rewrite (shl_align_value mx ex ez), (shl_align_value my ey ez) by lia.
    set (D := cond_Zopp sx (Zpos mx * 2 ^ (ex - ez)) - cond_Zopp sy (Zpos my * 2 ^ (ey - ez))).
    assert (Hscale : D * 2 ^ (ez + 1074)
                     = cond_Zopp sx (Zpos mx * 2 ^ (ex + 1074))
                       - cond_Zopp sy (Zpos my * 2 ^ (ey + 1074))).
    { unfold D.
      replace (ex + 1074) with ((ex - ez) + (ez + 1074)) by lia.
      replace (ey + 1074) with ((ey - ez) + (ez + 1074)) by lia.
      rewrite (Z.pow_add_r 2 (ex - ez)), (Z.pow_add_r 2 (ey - ez)) by lia.
      destruct sx, sy; cbn [cond_Zopp]; ring. }
    assert (Hp : 0 < 2 ^ (ez + 1074)) by (apply Z.pow_pos_nonneg; lia).
    assert (Hsign : 0 < D <-> cond_Zopp sy (Zpos my * 2 ^ (ey + 1074))
                              < cond_Zopp sx (Zpos mx * 2 ^ (ex + 1074))) by nia.
    rewrite <- Hsign. clearbody D. clear Hscale Hsign.
    destruct D as [|d|d]; cbn [binary_normalize].
    + split; [discriminate | lia].
    + split; [lia|]. intros _. apply binary_round_pos. lia.
    + rewrite binary_round_neg. split; [discriminate | lia].
Qed.

(** ** Primitive floats *)

Lemma not_nan_sf (x : float) : is_nan x = false <-> not_nan (Prim2SF x).
Proof.
  unfold is_nan, not_nan. rewrite FloatAxioms.eqb_spec. unfold SFeqb, SFcompare.
  destruct (Prim2SF x) as [s|s| |s m e]; try (destruct s); simpl;
    rewrite ?Z.compare_refl, ?Pos.compare_cont_refl; simpl; split; congruence.
Qed.

Lemma leb_rank (x y : float) :
  is_nan x = false -> is_nan y = false ->
  (x <=? y)%float = true <-> frank x <= frank y.
Proof.
  intros Nx%not_nan_sf Ny%not_nan_sf.
  rewrite FloatAxioms.leb_spec. unfold SFleb, frank.
  rewrite (compare_rank _ _ (FloatAxioms.Prim2SF_valid x) (FloatAxioms.Prim2SF_valid y) Nx Ny).
  destruct (Z.compare_spec (rank (Prim2SF x)) (rank (Prim2SF y))); split;
    (discriminate || lia || reflexivity).
Qed.

Lemma after_rank (x y : float) :
  is_nan x = false -> is_nan y = false ->
  after (fun a b => a - b)%float x y = true <-> frank y < frank x.
Proof.
  intros Nx%not_nan_sf Ny%not_nan_sf. unfold after, frank.
  rewrite FloatAxioms.ltb_spec, FloatAxioms.sub_spec.
  change (Prim2SF 0) with (S754_zero false).
  exact (sub_rank _ _ (FloatAxioms.Prim2SF_valid x) (FloatAxioms.Prim2SF_valid y) Nx Ny).
Qed.

Lemma same_rank (x y : float) :
  is_nan x = false -> is_nan y = false ->
  frank x = frank y -> same_number (Prim2SF x) (Prim2SF y).
Proof.
  intros Nx%not_nan_sf Ny%not_nan_sf Hr. unfold frank in Hr.
  pose proof (compare_rank _ _ (FloatAxioms.Prim2SF_valid x) (FloatAxioms.Prim2SF_valid y)
                Nx Ny) as Hc.
  rewrite Hr, Z.compare_refl in Hc. clear Hr.
  destruct (Prim2SF x) as [sx|sx| |sx mx ex], (Prim2SF y) as [sy|sy| |sy my ey];
    cbn [SFcompare] in Hc; try discriminate;
    try (destruct sx; discriminate); try (destruct sy; discriminate).
  - right. eauto.
  - left. destruct sx, sy; (discriminate || reflexivity).
  - left. destruct sx, sy; try discriminate;
      destruct (Z.compare_spec ex ey) as [->|?|?]; try discriminate;
      injection Hc as Hc;
      [apply (f_equal CompOpp) in Hc; rewrite CompOpp_involutive in Hc; cbn in Hc|];
      change (Pos.compare_cont Eq mx my) with (Pos.compare mx my) in Hc;
      apply Pos.compare_eq in Hc; now subst.
Qed.

(** ** The sort on numbers *)

Lemma sort_insert_ranked (x : float) (l : list float) :
  is_nan x = false -> numbers l ->
  StronglySorted Z.le (map frank l) ->
  StronglySorted Z.le (map frank (sort_insert (fun a b => a - b)%float x l)).
Proof.
  intros Nx. induction l as [|y l IH]; intros Nl Hs; cbn [sort_insert map].
  - repeat constructor.
  - apply Forall_cons in Nl as [Ny Nl]. cbn [map] in Hs.
    apply StronglySorted_inv in Hs as [Hs Hy].
    destruct (after _ x y) eqn:Ea; cbn [map].
    + apply after_rank in Ea; [|assumption..].
      constructor; [now apply IH|].
      rewrite (Permutation_map frank (sort_insert_perm _ x l)). cbn [map].
      constructor; [lia | exact Hy].
    + assert (Hle : frank x <= frank y).
      { destruct (Z.le_gt_cases (frank x) (frank y)) as [H|H]; [exact H|].
        apply after_rank in H; [congruence | assumption..]. }
      constructor; [constructor; assumption|].
      constructor; [exact Hle|].
      eapply Forall_impl; [exact Hy|]. cbn. intros z Hz. lia.
Qed.

Lemma sort_ranked (v : list float) :
  numbers v -> StronglySorted Z.le (map frank (sort (fun a b => a - b)%float v)).
Proof.
  induction v as [|x v IH]; intros Nv; cbn [sort]; [constructor|].
  apply Forall_cons in Nv as [Nx Nv].
  apply sort_insert_ranked; [exact Nx | | now apply IH].
  unfold numbers. now rewrite (sort_perm _ v).
Qed.

Lemma ascending_ranked (l : list float) :
  numbers l -> ascending l -> StronglySorted Z.le (map frank l).
Proof.
  intros Nl Hs. apply Sorted_StronglySorted; [intros a b c; lia|].
  induction Hs as [|x l Hs IH Hx]; cbn [map]; [constructor|].
  apply Forall_cons in Nl as [Nx Nl].
  constructor; [now apply IH|].
  destruct Hx as [|y l Hxy]; cbn [map]; constructor.
  apply Forall_cons in Nl as [Ny _]. now apply leb_rank.
Qed.

(** Every ascending arrangement of numbers is, rank by rank, the one the
    sort gives. *)
Lemma ascending_unique (v sorted : list float) :
  numbers v -> sorted ≡ₚ v -> ascending sorted ->
  map frank sorted = map frank (sort (fun a b => a - b)%float v).
Proof.
  intros Nv Hp Hs.
  apply (StronglySorted_unique Z.le).
  - apply ascending_ranked; [|exact Hs]. unfold numbers. now rewrite Hp.
  - now apply sort_ranked.
  - now rewrite Hp, (sort_perm _ v).
Qed.

(** ** The same number in the arithmetic of the median *)

Lemma same_number_refl (x : spec_float) : same_number x x.
Proof. now left. Qed.

Lemma add_same (a a' b b' : spec_float) :
  same_number a a' -> same_number b b' ->
  same_number (FloatAxioms.SF64add a b) (FloatAxioms.SF64add a' b').
Proof.
  intros [->|(s & t & -> & ->)] [->|(s' & t' & -> & ->)].
  - now left.
  - destruct a' as [sa|sa| |sa ma ea]; cbn; try (now left).
    right. destruct sa, s', t'; eauto.
  - destruct b' as [sb|sb| |sb mb eb]; cbn; try (now left).
    right. destruct s, t, sb; eauto.
  - right. destruct s, t, s', t'; cbn; eauto.
Qed.

Lemma half_same (a a' : spec_float) :
  same_number a a' ->
  same_number (FloatAxioms.SF64div a (Prim2SF 2)) (FloatAxioms.SF64div a' (Prim2SF 2)).
Proof.
  assert (H2 : exists m e, Prim2SF 2 = S754_finite false m e) by (vm_compute; eauto).
  destruct H2 as (m & e & ->).
  intros [->|(s & t & -> & ->)]; [now left|]. right. cbn. eauto.
Qed.

Lemma leb_same (t t' x : spec_float) :
  same_number t t' -> SFleb t x = SFleb t' x.
Proof.
  intros [->|(s & s' & -> & ->)]; [reflexivity|]. now destruct x.
Qed.

Lemma nth_same (l l' : list float) (i : nat) :
  numbers l -> numbers l' -> map frank l = map frank l' ->
  same_number (Prim2SF (nth i l nan)) (Prim2SF (nth i l' nan)).
Proof.
  intros Nl Nl' Hr. revert l' i Nl' Hr.
  induction Nl as [|x l Nx Nl IH]; intros [|y l'] i Nl' Hr; try discriminate.
  - apply same_number_refl.
  - apply Forall_cons in Nl' as [Ny Nl']. injection Hr as Hxy Hr.
    destruct i as [|i]; cbn [nth]; [now apply same_rank | now apply IH].
Qed.

Lemma median_same (l l' : list float) :
  numbers l -> numbers l' -> map frank l = map frank l' ->
  same_number (Prim2SF (median_of l)) (Prim2SF (median_of l')).
Proof.
  intros Nl Nl' Hr. unfold median_of.
  assert (Hlen : length l = length l').
  { rewrite <- (length_map frank l), Hr. apply length_map. }
  rewrite <- Hlen. destruct (Nat.even (length l)); [|now apply nth_same].
  rewrite !FloatAxioms.div_spec, !FloatAxioms.add_spec.
  apply half_same, add_same; now apply nth_same.
Qed.

(** For numbers, the threshold computed from the sorted copy decides as
    the median of any ascending arrangement does. *)
Lemma median_threshold (v sorted : list float) (x : float) :
  numbers v -> sorted ≡ₚ v -> ascending sorted ->
  (median_of (sort (fun a b => a - b)%float v) <=? x)%float
  = (median_of sorted <=? x)%float.
Proof.
  intros Nv Hp Hs. rewrite !FloatAxioms.leb_spec.
  apply leb_same, median_same.
  - unfold numbers. now rewrite (sort_perm _ v).
  - unfold numbers. now rewrite Hp.
  - symmetry. now apply ascending_unique.
Qed.

End OrderedFloats.
Import OrderedFloats.

(** C7. Without a threshold [binarizeVector] compares every component with
    the median of the vector and gives 1 when the component is at least
    the median, 0 otherwise.  For a vector of numbers (no [NaN]) the
    median is that of the sorted values, whoever sorts them: with any
    ascending arrangement [sorted] of the components, it is the middle
    value of [sorted], or the average of the two middle ones.
    [[0.1, 0.9, 0.5, 0.4]] has median 0.45 and binarizes to
    [[0, 1, 1, 0]]. *)
Theorem binarize_default_is_median_threshold :
  (forall v sorted : list float,
     numbers v -> sorted ≡ₚ v -> ascending sorted ->
     binarizeVector v None
     = map (fun val => if (median_of sorted <=? val)%float then 1 else 0) v)
  /\ median_of [0.1; 0.4; 0.5; 0.9]%float = 0.45%float
  /\ binarizeVector [0.1; 0.9; 0.5; 0.4]%float None = [0; 1; 1; 0].
Proof.
  split; [|split; vm_compute; reflexivity].
  intros v sorted Nv Hp Hs. unfold binarizeVector. rewrite default_threshold.
  apply map_ext. intros val. now rewrite (median_threshold v sorted val).
Qed.

(** The vector [[3, -0, 0.5, 0, 3]], with a repeated value and the two
    zeros, and its ascending arrangement [[0, -0, 0.5, 3, 3]] (the sort of
    the code leaves [-0] before [0]): the median is 0.5. *)
Lemma binarize_default_is_median_threshold_witness :
  numbers [3; -0; 0.5; 0; 3]%float
  /\ [0; -0; 0.5; 3; 3]%float ≡ₚ [3; -0; 0.5; 0; 3]%float
  /\ ascending [0; -0; 0.5; 3; 3]%float
  /\ median_of [0; -0; 0.5; 3; 3]%float = 0.5%float
  /\ binarizeVector [3; -0; 0.5; 0; 3]%float None
     = map (fun val => if (0.5 <=? val)%float then 1 else 0) [3; -0; 0.5; 0; 3]%float.
Proof.
  assert (Nv : numbers [3; -0; 0.5; 0; 3]%float) by (repeat constructor).
  assert (Hp : [0; -0; 0.5; 3; 3]%float ≡ₚ [3; -0; 0.5; 0; 3]%float).
  { apply (Permutation_trans (l' := [0; 3; -0; 0.5; 3]%float)).
    - constructor. apply (Permutation_trans (l' := [3; -0; 0.5; 3]%float)).
      + apply Permutation_sym, (Permutation_cons_append [-0; 0.5; 3]%float 3%float).
      + reflexivity.
    - apply (Permutation_trans (l' := [3; 0; -0; 0.5; 3]%float)); [apply perm_swap|].
      constructor. apply (Permutation_trans (l' := [-0; 0; 0.5; 3]%float)); [apply perm_swap|].
      constructor. apply (Permutation_trans (l' := [0.5; 0; 3]%float)); [apply perm_swap|].
      reflexivity. }
  assert (Hs : ascending [0; -0; 0.5; 3; 3]%float) by (repeat constructor).
  split; [exact Nv|]. split; [exact Hp|]. split; [exact Hs|]. split; [reflexivity|].
  exact (proj1 binarize_default_is_median_threshold _ _ Nv Hp Hs).
Defined.


Module CountFacts.

Lemma count_true_S (f : nat -> bool) (n : nat) :
  count_true f (S n) = count_true f n + (if f n then 1 else 0).
Proof.
  unfold count_true. rewrite seq_S, filter_app, length_app. simpl.
  rewrite filter_cons, filter_nil.
  destruct (decide (f n = true)) as [E|E]; simpl.
  - rewrite E. lia.
  - destruct (f n); [congruence | lia].
Qed.

Lemma count_true_ext (f g : nat -> bool) (n : nat) :
  (forall i, (i < n)%nat -> f i = g i) -> count_true f n = count_true g n.
Proof.
  induction n as [|n IH]; intros H; [reflexivity|].
  rewrite !count_true_S, IH, (H n) by (intros; try apply H; lia). reflexivity.
Qed.

Lemma count_true_app (f : nat -> bool) (m n : nat) :
  count_true f (m + n) = count_true f m + count_true (fun i => f (m + i)%nat) n.
Proof.
  induction n as [|n IH].
  - rewrite Nat.add_0_r. unfold count_true at 3. simpl. lia.
  - rewrite Nat.add_succ_r, !count_true_S, IH. lia.
Qed.

Lemma count_true_bounds (f : nat -> bool) (n : nat) :
  0 <= count_true f n <= Z.of_nat n.
Proof.
  induction n as [|n IH]; [unfold count_true; simpl; lia|].
  rewrite count_true_S. destruct (f n); lia.
Qed.

Lemma count_true_zero (f : nat -> bool) (n : nat) :
  count_true f n = 0 <-> forall i, (i < n)%nat -> f i = false.
Proof.
  induction n as [|n IH].
  - split; [intros _ i Hi; lia | reflexivity].
  - rewrite count_true_S. pose proof (count_true_bounds f n). split.
    + intros H0 i Hi. destruct (f n) eqn:E; [lia|].
      destruct (decide (i = n)) as [->|]; [exact E|]. apply IH; lia.
    + intros H0. rewrite (H0 n) by lia.
      assert (count_true f n = 0) by (apply IH; intros; apply H0; lia). lia.
Qed.

Lemma count_true_le (f g h : nat -> bool) (n : nat) :
  (forall i, (i < n)%nat -> f i = true -> g i = true \/ h i = true) ->
  count_true f n <= count_true g n + count_true h n.
Proof.
  induction n as [|n IH]; intros H; [unfold count_true; simpl; lia|].
  rewrite !count_true_S.
  assert (count_true f n <= count_true g n + count_true h n)
    by (apply IH; intros i Hi Hf; apply (H i); [lia | exact Hf]).
  specialize (H n ltac:(lia)).
  destruct (f n), (g n), (h n); try lia; destruct (H eq_refl); discriminate.
Qed.

(** [popcnt] counts the set bits. *)
Lemma popcnt_count (k : nat) : forall w,
  0 <= w < 2 ^ Z.of_nat k ->
  popcnt w = count_true (fun i => Z.testbit w (Z.of_nat i)) k.
Proof.
  induction k as [|k IH]; intros w Hw.
  - change (2 ^ Z.of_nat 0) with 1 in Hw. replace w with 0 by lia. reflexivity.
  - rewrite Nat2Z.inj_succ, Z.pow_succ_r in Hw by lia.
    change (S k) with (1 + k)%nat. rewrite count_true_app.
    pose proof (Z.div_mod w 2 ltac:(lia)) as Hdm.
    pose proof (Z.mod_pos_bound w 2 ltac:(lia)) as Hm.
    assert (Hq : 0 <= w / 2 < 2 ^ Z.of_nat k).
    { split; [apply Z.div_pos; lia | apply Z.div_lt_upper_bound; lia]. }
    rewrite Hdm at 1. rewrite popcnt_double by lia. rewrite (IH _ Hq).
    rewrite (count_true_ext (fun i => Z.testbit w (Z.of_nat (1 + i)))
                            (fun i => Z.testbit (w / 2) (Z.of_nat i))).
    2:{ intros i _. rewrite <- Z.div2_div, Z.div2_spec, Z.shiftr_spec by lia.
        f_equal. lia. }
    rewrite (count_true_S _ 0).
    change (count_true (fun i => Z.testbit w (Z.of_nat i)) 0) with 0.
    change (Z.of_nat 0) with 0. rewrite Z.bit0_odd, Zmod_odd.
    destruct (Z.odd w); lia.
Qed.

End CountFacts.
Import CountFacts.

Module HammingFacts.

Lemma bit_at_cons_low (w : Z) (l : list Z) (j : nat) :
  (j < 64)%nat -> bit_at (w :: l) (Z.of_nat j) = Z.testbit w (Z.of_nat j).
Proof.
  intros Hj. unfold bit_at.
  rewrite Z.div_small, Z.mod_small by lia. reflexivity.
Qed.

Lemma bit_at_cons_high (w : Z) (l : list Z) (i : nat) :
  bit_at (w :: l) (Z.of_nat (64 + i)) = bit_at l (Z.of_nat i).
Proof.
  unfold bit_at.
  replace (Z.of_nat (64 + i)) with (Z.of_nat i + 1 * 64) by lia.
  rewrite Z.div_add, Z.mod_add by lia.
  replace (Z.to_nat (Z.of_nat i / 64 + 1)) with (S (Z.to_nat (Z.of_nat i / 64))).
  - reflexivity.
  - pose proof (Z.div_pos (Z.of_nat i) 64 ltac:(lia) ltac:(lia)). lia.
Qed.

Lemma lxor_word (a b : Z) :
  0 <= a < two64 -> 0 <= b < two64 -> 0 <= Z.lxor a b < two64.
Proof.
  unfold two64. intros Ha Hb.
  split; [apply Z.lxor_nonneg; lia|].
  destruct (Z.eq_dec (Z.lxor a b) 0) as [->|Hne]; [lia|].
  apply Z.log2_lt_pow2; [pose proof (Z.lxor_nonneg a b); lia|].
  eapply Z.le_lt_trans; [apply Z.log2_lxor; lia|].
  apply Z.max_lub_lt.
  - destruct (Z.eq_dec a 0) as [->|?]; [simpl; lia | apply Z.log2_lt_pow2; lia].
  - destruct (Z.eq_dec b 0) as [->|?]; [simpl; lia | apply Z.log2_lt_pow2; lia].
Qed.

(** The string popcount of a xor is the number of bits where the two words
    differ. *)
Lemma popcount_str_xor (w v : Z) :
  0 <= w < two64 -> 0 <= v < two64 ->
  popcount_str (Z.lxor w v)
  = count_true (fun i => xorb (Z.testbit w (Z.of_nat i)) (Z.testbit v (Z.of_nat i))) 64.
Proof.
  intros Hw Hv. pose proof (lxor_word w v Hw Hv) as Hx. unfold two64 in Hx.
  rewrite popcount_str_popcnt by lia.
  rewrite (popcnt_count 64) by exact Hx.
  apply count_true_ext. intros i _. apply Z.lxor_spec.
Qed.

(** The loop of [hammingDistance] adds, to what it has counted, the number
    of bit positions at which the two arrays differ. *)
Lemma xor_popcount_loop_counts (a : list Z) : forall b distance,
  length a = length b -> words_ok a -> words_ok b ->
  xor_popcount_loop a b distance
  = Ok (distance + count_true (bits_differ a b) (64 * length a)).
Proof.
  induction a as [|w a IH]; intros [|v b] distance Hlen Ha Hb; try discriminate.
  - simpl. f_equal. unfold count_true. simpl. lia.
  - apply Forall_cons in Ha as [Hw Ha]. apply Forall_cons in Hb as [Hv Hb].
    cbn [xor_popcount_loop]. rewrite IH by (simpl in Hlen; try lia; assumption).
    f_equal. rewrite popcount_str_xor by assumption.
    replace (64 * length (w :: a))%nat with (64 + 64 * length a)%nat by (simpl; lia).
    rewrite count_true_app.
    rewrite (count_true_ext (bits_differ (w :: a) (v :: b))
               (fun i => xorb (Z.testbit w (Z.of_nat i)) (Z.testbit v (Z.of_nat i))) 64).
    2:{ intros i Hi. unfold bits_differ. now rewrite !bit_at_cons_low. }
    rewrite (count_true_ext (fun i => bits_differ (w :: a) (v :: b) (64 + i))
               (bits_differ a b) (64 * length a)).
    2:{ intros i _. unfold bits_differ. now rewrite !bit_at_cons_high. }
    lia.
Qed.

Lemma hammingDistance_words (a b : list Z) :
  hammingDistance (VBig64 a) (VBig64 b)
  = if bool_decide (length a = length b) then xor_popcount_loop a b 0
    else Err LengthMismatch.
Proof.
  unfold hammingDistance. cbn [length_prop buffer_words res_bind].
  destruct (decide (length a = length b)) as [E|E].
  - rewrite (bool_decide_eq_true_2 (Some _ = Some _)) by congruence.
    now rewrite bool_decide_eq_true_2.
  - rewrite (bool_decide_eq_false_2 (Some _ = Some _)) by congruence.
    now rewrite bool_decide_eq_false_2.
Qed.

Lemma hammingDistance_count (a b : list Z) :
  length a = length b -> words_ok a -> words_ok b ->
  hammingDistance (VBig64 a) (VBig64 b)
  = Ok (count_true (bits_differ a b) (64 * length a)).
Proof.
  intros Hlen Ha Hb. rewrite hammingDistance_words, bool_decide_eq_true_2 by exact Hlen.
  now rewrite xor_popcount_loop_counts.
Qed.

(** Two arrays of words that agree on every bit are the same array. *)
Lemma words_eq_of_bits (a : list Z) : forall b,
  length a = length b -> words_ok a -> words_ok b ->
  (forall j, (j < 64 * length a)%nat -> bits_differ a b j = false) ->
  a = b.
Proof.
  induction a as [|w a IH]; intros [|v b] Hlen Ha Hb Hbits; try discriminate;
    [reflexivity|].
  apply Forall_cons in Ha as [Hw Ha]. apply Forall_cons in Hb as [Hv Hb].
  unfold two64 in *. f_equal.
  - apply Z.bits_inj'. intros i Hi.
    destruct (Z.lt_ge_cases i 64) as [Hlt|Hge].
    + specialize (Hbits (Z.to_nat i) ltac:(simpl; lia)).
      unfold bits_differ in Hbits.
      rewrite !bit_at_cons_low, Z2Nat.id in Hbits by lia.
      now destruct (Z.testbit w i), (Z.testbit v i).
    + rewrite !Z.bits_above_log2; try reflexivity; try lia.
      * destruct (Z.eq_dec v 0) as [->|?]; [simpl; lia|].
        assert (Z.log2 v < 64) by (apply Z.log2_lt_pow2; lia). lia.
      * destruct (Z.eq_dec w 0) as [->|?]; [simpl; lia|].
        assert (Z.log2 w < 64) by (apply Z.log2_lt_pow2; lia). lia.
  - apply IH; try assumption; [simpl in Hlen; lia|].
    intros j Hj. specialize (Hbits (64 + j)%nat ltac:(simpl; lia)).
    unfold bits_differ in *. now rewrite !bit_at_cons_high in Hbits.
Qed.

End HammingFacts.
Import HammingFacts.

(** X1. On two packed vectors of the same length [hammingDistance] returns the
    number of bit positions at which they differ, between 0 and 64 times
    the number of words. *)
Theorem hammingDistance_counts_differing_bits (a b : list Z) :
  length a = length b -> words_ok a -> words_ok b ->
  hammingDistance (VBig64 a) (VBig64 b)
  = Ok (count_true (bits_differ a b) (64 * length a))
  /\ 0 <= count_true (bits_differ a b) (64 * length a) <= 64 * Z.of_nat (length a).
Proof.
  intros Hlen Ha Hb. split; [now apply hammingDistance_count|].
  pose proof (count_true_bounds (bits_differ a b) (64 * length a)). lia.
Qed.

(** X2. On packed vectors of one length [hammingDistance] is a metric: zero on
    equal arguments and only there, symmetric, and within the triangle
    inequality. *)
Theorem hammingDistance_is_a_metric (a b c : list Z) :
  length a = length b -> length b = length c ->
  words_ok a -> words_ok b -> words_ok c ->
  exists dab dba dbc dac,
    hammingDistance (VBig64 a) (VBig64 b) = Ok dab
    /\ hammingDistance (VBig64 b) (VBig64 a) = Ok dba
    /\ hammingDistance (VBig64 b) (VBig64 c) = Ok dbc
    /\ hammingDistance (VBig64 a) (VBig64 c) = Ok dac
    /\ hammingDistance (VBig64 a) (VBig64 a) = Ok 0
    /\ dab = dba
    /\ (dab = 0 <-> a = b)
    /\ dac <= dab + dbc.
Proof.
  intros Hab Hbc Ha Hb Hc.
  exists (count_true (bits_differ a b) (64 * length a)),
         (count_true (bits_differ b a) (64 * length b)),
         (count_true (bits_differ b c) (64 * length b)),
         (count_true (bits_differ a c) (64 * length a)).
  repeat (split; [apply hammingDistance_count; congruence|]).
  split.
  { rewrite hammingDistance_count by congruence. f_equal.
    apply count_true_zero. intros i _. unfold bits_differ. apply xorb_nilpotent. }
  split.
  { rewrite <- Hab. apply count_true_ext. intros i _. unfold bits_differ. apply xorb_comm. }
  split.
  { rewrite count_true_zero. split.
    - intros H. now apply words_eq_of_bits.
    - intros -> i _. unfold bits_differ. apply xorb_nilpotent. }
  rewrite <- Hab. apply count_true_le. intros i _. unfold bits_differ.
  destruct (bit_at a (Z.of_nat i)), (bit_at b (Z.of_nat i)), (bit_at c (Z.of_nat i));
    simpl; auto.
Qed.

Module PackedFacts.

Lemma pack_words_ok (bits : list Z) : words_ok (pack bits).
Proof.
  unfold pack. apply pack_loop_words_ok.
  apply Forall_forall. intros w Hw. apply elem_of_replicate in Hw as [-> _].
  unfold two64. lia.
Qed.

Lemma count_true_trunc (f : nat -> bool) (m n : nat) :
  (m <= n)%nat -> (forall i, (m <= i < n)%nat -> f i = false) ->
  count_true f n = count_true f m.
Proof.
  intros Hmn Hf. replace n with (m + (n - m))%nat by lia.
  rewrite count_true_app.
  assert (H0 : count_true (fun i => f (m + i)%nat) (n - m) = 0).
  { apply count_true_zero. intros i Hi. apply Hf. lia. }
  lia.
Qed.

Lemma bits_differ_pack (x y : list Z) (j : nat) :
  bits_differ (pack x) (pack y) j = ones_differ x y j.
Proof.
  unfold bits_differ, ones_differ. rewrite !pack_bit by lia.
  now rewrite Nat2Z.id.
Qed.

Lemma ones_differ_beyond (x y : list Z) (j : nat) :
  (Nat.max (length x) (length y) <= j)%nat -> ones_differ x y j = false.
Proof.
  intros Hj. unfold ones_differ.
  rewrite (lookup_ge_None_2 x j), (lookup_ge_None_2 y j) by lia.
  reflexivity.
Qed.

(** The bits that [binarizeVector] and the packing loop leave for an
    embedding: bit [i] says whether component [i] reaches the threshold
    computed from the sorted copy. *)
Lemma median_bit (e : list float) (i : nat) :
  bit_at (pack (binarizeVector e None)) (Z.of_nat i)
  = match e !! i with
    | Some x => (median_of (sort (fun a b => a - b) e) <=? x)%float
    | None => false
    end.
Proof.
  rewrite pack_bit by lia. rewrite Nat2Z.id.
  unfold binarizeVector. rewrite default_threshold.
  rewrite list_lookup_fmap.
  destruct (e !! i) as [x|]; simpl; [|reflexivity].
  destruct (median_of _ <=? x)%float.
  - now apply bool_decide_eq_true_2.
  - apply bool_decide_eq_false_2. discriminate.
Qed.

End PackedFacts.
Import PackedFacts.

Lemma hammingDistance_counts_differing_bits_witness :
  hammingDistance (VBig64 [6; 1]) (VBig64 [5; 0])
  = Ok (count_true (bits_differ [6; 1] [5; 0]) 128)
  /\ count_true (bits_differ [6; 1] [5; 0]) 128 <= 128.
Proof.
  assert (Ha : words_ok [6; 1]) by (repeat constructor; unfold two64; lia).
  assert (Hb : words_ok [5; 0]) by (repeat constructor; unfold two64; lia).
  destruct (hammingDistance_counts_differing_bits [6; 1] [5; 0] eq_refl Ha Hb) as [H1 H2].
  split; [exact H1 | exact (proj2 H2)].
Defined.

Lemma hammingDistance_is_a_metric_witness :
  exists dab dbc dac,
    hammingDistance (VBig64 [6; 1]) (VBig64 [5; 0]) = Ok dab
    /\ hammingDistance (VBig64 [5; 0]) (VBig64 [3; 1]) = Ok dbc
    /\ hammingDistance (VBig64 [6; 1]) (VBig64 [3; 1]) = Ok dac
    /\ dac <= dab + dbc.
Proof.
  assert (Ha : words_ok [6; 1]) by (repeat constructor; unfold two64; lia).
  assert (Hb : words_ok [5; 0]) by (repeat constructor; unfold two64; lia).
  assert (Hc : words_ok [3; 1]) by (repeat constructor; unfold two64; lia).
  destruct (hammingDistance_is_a_metric [6; 1] [5; 0] [3; 1] eq_refl eq_refl Ha Hb Hc)
    as (dab & dba & dbc & dac & H1 & _ & H3 & H4 & _ & _ & _ & Htri).
  exists dab, dbc, dac. repeat apply conj; assumption.
Defined.

(** X3. On the packed forms of two bit sequences [hammingDistance] checks the
    number of words, not the number of bits: it throws exactly when
    [ceil (len / 64)] differs, and otherwise counts the positions where
    exactly one of the sequences holds a one. *)
Theorem hammingDistance_of_packed_sequences (x y : list Z) :
  hammingDistance (VBig64 (pack x)) (VBig64 (pack y))
  = if bool_decide (ceil64 (Z.of_nat (length x)) = ceil64 (Z.of_nat (length y)))
    then Ok (count_true (ones_differ x y) (Nat.max (length x) (length y)))
    else Err LengthMismatch.
Proof.
  rewrite hammingDistance_words.
  pose proof (pack_length x) as Hx. pose proof (pack_length y) as Hy.
  destruct (decide (ceil64 (Z.of_nat (length x)) = ceil64 (Z.of_nat (length y)))) as [E|E].
  - rewrite (bool_decide_eq_true_2 (ceil64 _ = _)) by exact E.
    assert (Hlen : length (pack x) = length (pack y)) by lia.
    rewrite bool_decide_eq_true_2 by exact Hlen.
    rewrite xor_popcount_loop_counts by (try exact Hlen; apply pack_words_ok).
    f_equal. rewrite Z.add_0_l.
    rewrite (count_true_ext _ (ones_differ x y)) by (intros; apply bits_differ_pack).
    pose proof (ceil64_bounds (Z.of_nat (length x))).
    pose proof (ceil64_bounds (Z.of_nat (length y))).
    apply count_true_trunc; [lia|].
    intros i Hi. apply ones_differ_beyond. lia.
  - rewrite (bool_decide_eq_false_2 (ceil64 _ = _)) by exact E.
    rewrite bool_decide_eq_false_2; [reflexivity | lia].
Qed.

Module SimdFacts.

Lemma xor_popcount_loop_ok (a : list Z) : forall b distance,
  length a = length b -> exists d, xor_popcount_loop a b distance = Ok d.
Proof.
  induction a as [|w a IH]; intros [|v b] distance Hlen; try discriminate.
  - now exists distance.
  - cbn [xor_popcount_loop]. apply IH. simpl in Hlen. lia.
Qed.

(** The kernel on sixteen bytes at each pointer: one pass, the scalar
    distance of the two pairs of words. *)
Lemma kernel_two_words (mem : list Z) (q0 q1 d0 d1 : Z) :
  v128_load mem 0 = Some (words_bytes [q0; q1]) ->
  v128_load mem 16 = Some (words_bytes [d0; d1]) ->
  words_ok [q0; q1] -> words_ok [d0; d1] ->
  exists distance,
    hamming_distance mem 0 16 (Z.of_nat 2 * 8) = Some (Ok distance)
    /\ hammingDistance (VBig64 [q0; q1]) (VBig64 [d0; d1]) = Ok distance.
Proof.
  intros Hload0 Hload16 Hq Hd.
  apply Forall_cons in Hq as [Hq0 Hq]. apply Forall_cons in Hq as [Hq1 _].
  apply Forall_cons in Hd as [Hd0 Hd]. apply Forall_cons in Hd as [Hd1 _].
  pose proof (lxor_word q0 d0 Hq0 Hd0) as Hx0.
  pose proof (lxor_word q1 d1 Hq1 Hd1) as Hx1.
  unfold two64 in *.
  unfold hamming_distance.
  change (wrap32 0) with 0. change (wrap32 16) with 16.
  change (wrap32 (Z.of_nat 2 * 8)) with 16.
  replace enough_fuel with (S (S (Z.to_nat 4095))) by (vm_compute; reflexivity).
  rewrite (hamming_loop_one_pass _ _ _ _ _ _ _ Hload0 Hload16).
  rewrite !words_bytes_two. unfold v128_xor.
  rewrite zip_with_app by (now rewrite !le_split_length).
  rewrite !le_split_xor by lia.
  set (x0 := Z.lxor q0 d0) in *. set (x1 := Z.lxor q1 d1) in *.
  assert (L0 : extract_lane 0 (le_split 8 x0 ++ le_split 8 x1)
               = le_combine (take 4 (le_split 8 x0))) by reflexivity.
  assert (L1 : extract_lane 1 (le_split 8 x0 ++ le_split 8 x1)
               = le_combine (take 4 (drop 4 (le_split 8 x0)))) by reflexivity.
  assert (L2 : extract_lane 2 (le_split 8 x0 ++ le_split 8 x1)
               = le_combine (take 4 (le_split 8 x1))) by reflexivity.
  assert (L3 : extract_lane 3 (le_split 8 x0 ++ le_split 8 x1)
               = le_combine (take 4 (drop 4 (le_split 8 x1)))) by reflexivity.
  rewrite L0, L1, L2, L3.
  destruct (popcnt_lanes x0 Hx0) as (S0 & B00 & B01).
  destruct (popcnt_lanes x1 Hx1) as (S1 & B10 & B11).
  set (p00 := popcnt (le_combine (take 4 (le_split 8 x0)))) in *.
  set (p01 := popcnt (le_combine (take 4 (drop 4 (le_split 8 x0))))) in *.
  set (p10 := popcnt (le_combine (take 4 (le_split 8 x1)))) in *.
  set (p11 := popcnt (le_combine (take 4 (drop 4 (le_split 8 x1))))) in *.
  unfold wrap32, two32.
  rewrite (Z.mod_small (p10 + p11)) by lia.
  rewrite (Z.mod_small (p01 + (p10 + p11))) by lia.
  rewrite (Z.mod_small (p00 + (p01 + (p10 + p11)))) by lia.
  rewrite (Z.mod_small (0 + (p00 + (p01 + (p10 + p11))))) by lia.
  unfold to_int32.
  destruct (Z.ltb_spec (0 + (p00 + (p01 + (p10 + p11)))) (2 ^ 31)); [|lia].
  eexists. split; [reflexivity|].
  rewrite hammingDistance_words. cbn [bool_decide decide_rel length].
  rewrite bool_decide_eq_true_2 by reflexivity.
  cbn [xor_popcount_loop]. fold x0 x1.
  rewrite !popcount_str_popcnt by lia. f_equal. lia.
Qed.

(** One stored vector of two words, on a memory whose first sixteen bytes
    are the query: the distance is the scalar one and the query bytes are
    still in place afterwards. *)
Lemma simd_distance_two_words (mem : list Z) (q0 q1 d0 d1 : Z) :
  Z.of_nat (length mem) = page_size ->
  take 16 mem = words_bytes [q0; q1] ->
  words_ok [q0; q1] -> words_ok [d0; d1] ->
  exists distance mem',
    simd_distance mem 2 (VBig64 [d0; d1]) = Ok (distance, mem')
    /\ hammingDistance (VBig64 [q0; q1]) (VBig64 [d0; d1]) = Ok distance
    /\ Z.of_nat (length mem') = page_size
    /\ take 16 mem' = words_bytes [q0; q1].
Proof.
  unfold page_size. intros Hlen Hq Hwq Hwd.
  assert (Hd16 : length (words_bytes [d0; d1]) = 16%nat).
  { rewrite words_bytes_length. reflexivity. }
  assert (Hq16 : length (take 16 mem) = 16%nat).
  { rewrite length_take. lia. }
  set (mem' := take 16 mem ++ words_bytes [d0; d1]
                 ++ drop (16 + length (words_bytes [d0; d1])) mem).
  assert (Hset : memory_set mem (words_bytes [d0; d1]) 16 = Ok mem').
  { unfold memory_set. rewrite bool_decide_eq_true_2 by lia. reflexivity. }
  assert (Hlen' : Z.of_nat (length mem') = 65536).
  { rewrite (memory_set_length _ _ _ _ Hset). exact Hlen. }
  assert (Hload0 : v128_load mem' 0 = Some (words_bytes [q0; q1])).
  { unfold v128_load. rewrite bool_decide_eq_true_2 by lia.
    change (Z.to_nat 0) with 0%nat. rewrite drop_0. unfold mem'.
    rewrite take_app_length' by (first [exact Hq16 | symmetry; exact Hq16]). now rewrite Hq. }
  assert (Hload16 : v128_load mem' 16 = Some (words_bytes [d0; d1])).
  { unfold v128_load. rewrite bool_decide_eq_true_2 by lia.
    change (Z.to_nat 16) with 16%nat. unfold mem'.
    rewrite drop_app_length' by (first [exact Hq16 | symmetry; exact Hq16]).
    reflexivity. }
  destruct (kernel_two_words mem' q0 q1 d0 d1 Hload0 Hload16 Hwq Hwd)
    as (distance & Hk & Hs).
  exists distance, mem'. repeat split; try assumption.
  - unfold simd_distance, buffer_bytes. cbn [buffer_words res_bind].
    rewrite Hset. cbn [res_bind]. now rewrite Hk.
  - unfold mem'. rewrite take_app_length' by (first [exact Hq16 | symmetry; exact Hq16]). exact Hq.
Qed.

End SimdFacts.
Import SimdFacts.

Module InsertFacts.

Lemma record_id (embedding : value) (data : gmap string value) :
  get_prop (spread {["vector" := embedding]} data) keyPath = get_prop data "id".
Proof.
  rewrite get_prop_spread. unfold get_prop, keyPath.
  destruct (data !! "id"); [reflexivity|]. now rewrite lookup_singleton_ne.
Qed.

Lemma record_has_vector (embedding : value) (data : gmap string value) :
  is_Some (spread {["vector" := embedding]} data !! "vector").
Proof.
  unfold spread. destruct (data !! "vector") as [v|] eqn:E.
  - exists v. now apply lookup_union_Some_l.
  - exists embedding. rewrite lookup_union_r by exact E. apply lookup_singleton_eq.
Qed.

(** An input without a "vector" property gets the computed one. *)
Lemma record_fresh_vector (embedding : value) (data : gmap string value) :
  data !! "vector" = None ->
  spread {["vector" := embedding]} data = <["vector" := embedding]> data.
Proof.
  intros H. unfold spread. symmetry. now apply insert_union_singleton_r.
Qed.

(** [store.add] on the record built from an input. *)
Lemma store_add_record (embedding : value) (data : gmap string value)
    (s : gmap idb_key (gmap string value)) :
  store_add (spread {["vector" := embedding]} data) s
  = match to_key (get_prop data "id") with
    | None => (Thrown DataError, s)
    | Some k =>
        match s !! k with
        | Some _ => (Failed ConstraintError, s)
        | None => (Done (get_prop data "id"),
                   <[k := spread {["vector" := embedding]} data]> s)
        end
    end.
Proof. unfold store_add. now rewrite record_id. Qed.

Lemma nullish_no_key (v : value) : is_nullish v = true -> to_key v = None.
Proof. now destruct v. Qed.

Section Methods.
Variable getEmbeddingFromText : value -> string -> result (list float).
Variable this : config.
Variable prompt : bool.

Lemma insert_outcome (data : gmap string value) (db : gmap idb_key (gmap string value)) :
  insert getEmbeddingFromText this data db
  = single_outcome "Error inserting data: " data
      (resolve_embedding getEmbeddingFromText this data) db.
Proof.
  unfold insert, single_outcome.
  destruct (is_nullish (get_prop data "id")); [reflexivity|].
  destruct (resolve_embedding _ _ data) as [embedding|e]; [|reflexivity].
  unfold transaction. rewrite store_add_record.
  destruct (to_key (get_prop data "id")) as [k|]; [|reflexivity].
  now destruct (db !! k).
Qed.

Lemma insertBinary_outcome (data : gmap string value) (db : gmap idb_key (gmap string value)) :
  insertBinary getEmbeddingFromText this data db
  = single_outcome "Error inserting binary data: " data
      (try! embedding := resolve_embedding getEmbeddingFromText this data in
       try! binaryEmbedding := binarize_value embedding in
       Ok (VBig64 (pack binaryEmbedding))) db.
Proof.
  unfold insertBinary, single_outcome.
  destruct (is_nullish (get_prop data "id")); [reflexivity|].
  destruct (resolve_embedding _ _ data) as [embedding|e]; [|reflexivity].
  cbn [res_bind].
  destruct (binarize_value embedding) as [bits|e]; [|reflexivity].
  cbn [res_bind].
  unfold transaction. rewrite store_add_record.
  destruct (to_key (get_prop data "id")) as [k|]; [|reflexivity].
  now destruct (db !! k).
Qed.

Lemma insertManualVectors_outcome (data : gmap string value)
    (db : gmap idb_key (gmap string value)) :
  insertManualVectors this data db
  = single_outcome "Error inserting manual vectors: " data
      (Ok (get_prop data (vectorPath this))) db.
Proof.
  unfold insertManualVectors, single_outcome.
  destruct (is_nullish (get_prop data "id")); [reflexivity|].
  unfold transaction. rewrite store_add_record.
  destruct (to_key (get_prop data "id")) as [k|]; [|reflexivity].
  now destruct (db !! k).
Qed.

(** A pass of the loop of [insertBatch] that goes on to the next record:
    the record has an id that is a new key, its embedding is resolved,
    the scope is still open, and the record is filed. *)
Lemma insertBatch_loop_cons (data : gmap string value) (rest : list (gmap string value))
    (keys keys' : list value) (s s' : gmap idb_key (gmap string value)) :
  insertBatch_loop getEmbeddingFromText this prompt (data :: rest) keys s = (Done keys', s') ->
  exists embedding k,
    is_nullish (get_prop data "id") = false
    /\ resolve_embedding getEmbeddingFromText this data = Ok embedding
    /\ truthy (get_prop data "text") && negb prompt = false
    /\ to_key (get_prop data "id") = Some k
    /\ s !! k = None
    /\ insertBatch_loop getEmbeddingFromText this prompt rest (keys ++ [get_prop data "id"])
         (<[k := spread {["vector" := embedding]} data]> s) = (Done keys', s').
Proof.
  cbn [insertBatch_loop]. intros Hrun.
  destruct (is_nullish (get_prop data "id")); [discriminate|].
  unfold tx_bind at 1, tx_lift in Hrun.
  destruct (resolve_embedding _ _ data) as [embedding|e]; [|discriminate].
  unfold tx_bind, scope_add in Hrun.
  destruct (truthy (get_prop data "text") && negb prompt); [discriminate|].
  rewrite store_add_record in Hrun.
  destruct (to_key (get_prop data "id")) as [k|] eqn:Ek; [|discriminate].
  destruct (s !! k) eqn:Es; [discriminate|].
  exists embedding, k. repeat split; try reflexivity; assumption.
Qed.

(** A completed loop of a batch insertion: the ids in input order, one new
    record per input, every key new and the older records in place. *)
Lemma insertBatch_loop_ok (dataArray : list (gmap string value)) :
  forall keys s keys' s',
    insertBatch_loop getEmbeddingFromText this prompt dataArray keys s = (Done keys', s') ->
    keys' = keys ++ map (fun data => get_prop data "id") dataArray
    /\ size s' = (size s + length dataArray)%nat
    /\ (forall k record, s !! k = Some record -> s' !! k = Some record).
Proof.
  induction dataArray as [|data rest IH]; intros keys s keys' s' Hrun.
  - injection Hrun as <- <-. rewrite app_nil_r. simpl. repeat split; [lia | tauto].
  - apply insertBatch_loop_cons in Hrun as (embedding & k & _ & _ & _ & Ek & Es & Hrun).
    apply IH in Hrun as (-> & Hsize & Hkeep). repeat split.
    + now rewrite <- app_assoc.
    + rewrite Hsize, map_size_insert_None by exact Es. simpl. lia.
    + intros k' r Hr. apply Hkeep. rewrite lookup_insert_ne; [exact Hr | congruence].
Qed.

(** Without a text nothing is embedded: the two batch loops coincide. *)
Lemma insertBatch_loop_manual (dataArray : list (gmap string value)) :
  Forall (fun data => truthy (get_prop data "text") = false) dataArray ->
  forall keys s,
    insertBatch_loop getEmbeddingFromText this prompt dataArray keys s
    = insertManualBatch_loop this dataArray keys s.
Proof.
  induction 1 as [|data rest Htext _ IH]; intros keys s; [reflexivity|].
  cbn [insertBatch_loop insertManualBatch_loop].
  destruct (is_nullish (get_prop data "id")); [reflexivity|].
  unfold resolve_embedding, scope_add. rewrite Htext.
  unfold tx_bind, tx_lift. cbn [andb].
  destruct (store_add _ s) as [[key|e|e] s1]; [apply IH | reflexivity..].
Qed.

End Methods.

End InsertFacts.
Import InsertFacts.

Module FiledFacts.

Lemma well_filed_insert (db : gmap idb_key (gmap string value)) (k : idb_key)
    (record : gmap string value) :
  well_filed db ->
  to_key (get_prop record "id") = Some k -> is_Some (record !! "vector") ->
  well_filed (<[k := record]> db).
Proof.
  intros Hdb Hk Hv k' r. rewrite lookup_insert.
  destruct (decide (k = k')) as [<-|_]; [intros [= <-]; now split | apply Hdb].
Qed.

Lemma well_filed_delete (db : gmap idb_key (gmap string value)) (k : idb_key) :
  well_filed db -> well_filed (delete k db).
Proof.
  intros Hdb k' r Hr. apply lookup_delete_Some in Hr as [_ Hr]. now apply Hdb.
Qed.

Lemma well_filed_add (embedding : value) (data : gmap string value)
    (s s' : gmap idb_key (gmap string value)) (r : outcome value) :
  well_filed s ->
  store_add (spread {["vector" := embedding]} data) s = (r, s') ->
  well_filed s'.
Proof.
  intros Hs. rewrite store_add_record.
  destruct (to_key (get_prop data "id")) as [k|] eqn:Ek; [|now intros [= _ <-]].
  destruct (s !! k); intros [= _ <-]; [exact Hs|].
  apply well_filed_insert; [exact Hs | now rewrite record_id | apply record_has_vector].
Qed.

Section Methods.
Variable getEmbeddingFromText : value -> string -> result (list float).
Variable this : config.
Variable prompt : bool.

Lemma merge_update_has_vector (existing data : gmap string value) (key : value) :
  is_Some (merge_update this existing data key !! "vector").
Proof. unfold merge_update. rewrite lookup_insert_eq. eauto. Qed.

Lemma well_filed_single (prefix : string) (data : gmap string value)
    (prepared : result value) (db db' : gmap idb_key (gmap string value))
    (r : result value) :
  well_filed db -> single_outcome prefix data prepared db = (r, db') -> well_filed db'.
Proof.
  intros Hdb. unfold single_outcome.
  destruct (is_nullish (get_prop data "id")); [now intros [= _ <-]|].
  destruct prepared as [vector|e]; [|now intros [= _ <-]].
  destruct (to_key (get_prop data "id")) as [k|] eqn:Ek; [|now intros [= _ <-]].
  destruct (db !! k); intros [= _ <-]; [exact Hdb|].
  apply well_filed_insert; [exact Hdb | now rewrite record_id | apply record_has_vector].
Qed.

Lemma well_filed_insertBatch_loop (dataArray : list (gmap string value)) :
  forall keys s r s',
    well_filed s ->
    insertBatch_loop getEmbeddingFromText this prompt dataArray keys s = (r, s') ->
    well_filed s'.
Proof.
  induction dataArray as [|data rest IH]; intros keys s r s' Hs Hrun.
  - now injection Hrun as _ <-.
  - cbn [insertBatch_loop] in Hrun.
    destruct (is_nullish (get_prop data "id")); [now injection Hrun as _ <-|].
    unfold tx_bind at 1, tx_lift in Hrun.
    destruct (resolve_embedding _ _ data) as [embedding|e]; [|now injection Hrun as _ <-].
    unfold tx_bind, scope_add in Hrun.
    destruct (truthy (get_prop data "text") && negb prompt); [now injection Hrun as _ <-|].
    destruct (store_add _ s) as [[key|e|e] s1] eqn:Eadd.
    + eapply IH; [|exact Hrun]. eapply well_filed_add; eauto.
    + injection Hrun as _ <-. eapply well_filed_add; eauto.
    + injection Hrun as _ <-. eapply well_filed_add; eauto.
Qed.

Lemma well_filed_insertManualBatch_loop (dataArray : list (gmap string value)) :
  forall keys s r s',
    well_filed s ->
    insertManualBatch_loop this dataArray keys s = (r, s') ->
    well_filed s'.
Proof.
  induction dataArray as [|data rest IH]; intros keys s r s' Hs Hrun.
  - now injection Hrun as _ <-.
  - cbn [insertManualBatch_loop] in Hrun.
    destruct (is_nullish (get_prop data "id")); [now injection Hrun as _ <-|].
    unfold tx_bind in Hrun.
    destruct (store_add _ s) as [[key|e|e] s1] eqn:Eadd.
    + eapply IH; [|exact Hrun]. eapply well_filed_add; eauto.
    + injection Hrun as _ <-. eapply well_filed_add; eauto.
    + injection Hrun as _ <-. eapply well_filed_add; eauto.
Qed.

Lemma well_filed_updateBatch_loop (updates : list (gmap string value)) :
  forall s r s',
    well_filed s -> updateBatch_loop this updates s = (r, s') -> well_filed s'.
Proof.
  induction updates as [|u rest IH]; intros s r s' Hs Hrun.
  - now injection Hrun as _ <-.
  - cbn [updateBatch_loop] in Hrun. unfold tx_bind, store_get in Hrun.
    destruct (to_key (get_prop u "key")) as [k|] eqn:Ek; [|now injection Hrun as _ <-].
    destruct (s !! k) as [existing|] eqn:Es; [|now apply IH in Hrun].
    rewrite (store_put_merge this _ _ _ k) in Hrun by exact Ek.
    eapply IH; [|exact Hrun].
    apply well_filed_insert; [exact Hs | | apply merge_update_has_vector].
    change "id" with keyPath. now rewrite merge_update_id.
Qed.

Lemma well_filed_deleteBatch_loop (keys : list value) :
  forall s r s',
    well_filed s -> deleteBatch_loop keys s = (r, s') -> well_filed s'.
Proof.
  induction keys as [|key rest IH]; intros s r s' Hs Hrun.
  - now injection Hrun as _ <-.
  - cbn [deleteBatch_loop] in Hrun. unfold tx_bind, store_delete in Hrun.
    destruct (to_key key) as [k|]; [|now injection Hrun as _ <-].
    eapply IH; [|exact Hrun]. now apply well_filed_delete.
Qed.

Lemma transaction_keeps {A} (P : gmap idb_key (gmap string value) -> Prop)
    (body : tx A) (db db' : gmap idb_key (gmap string value)) (r : result A) :
  P db ->
  (forall r1 s1, body db = (r1, s1) -> P s1) ->
  transaction body db = (r, db') -> P db'.
Proof.
  intros Hdb Hbody. unfold transaction.
  destruct (body db) as [[a|e|e] s1] eqn:E; intros [= _ <-];
    [eapply Hbody; eauto | eapply Hbody; eauto | exact Hdb].
Qed.

End Methods.

End FiledFacts.
Import FiledFacts.

(** X9. Every writing method keeps the invariant of the store: each record is
    filed under the key of its own id and has a "vector" property. *)
Theorem writes_keep_records_filed_under_their_id
    (getEmbeddingFromText : value -> string -> result (list float)) (this : config)
    (prompt : bool) (db : gmap idb_key (gmap string value)) :
  well_filed db ->
  (forall data, well_filed (snd (insert getEmbeddingFromText this data db)))
  /\ (forall data, well_filed (snd (insertBinary getEmbeddingFromText this data db)))
  /\ (forall data, well_filed (snd (insertManualVectors this data db)))
  /\ (forall dataArray,
        well_filed (snd (insertBatch getEmbeddingFromText this prompt dataArray db)))
  /\ (forall dataArray, well_filed (snd (insertManualBatch this dataArray db)))
  /\ (forall key data, well_filed (snd (update this key data db)))
  /\ (forall updates, well_filed (snd (updateBatch this updates db)))
  /\ (forall key, well_filed (snd (delete_ key db)))
  /\ (forall keys, well_filed (snd (deleteBatch keys db))).
Proof.
  intros Hdb. repeat apply conj.
  - intros data. rewrite insert_outcome.
    destruct (single_outcome _ _ _ _) as [r db'] eqn:E. eapply well_filed_single; eauto.
  - intros data. rewrite insertBinary_outcome.
    destruct (single_outcome _ _ _ _) as [r db'] eqn:E. eapply well_filed_single; eauto.
  - intros data. rewrite insertManualVectors_outcome.
    destruct (single_outcome _ _ _ _) as [r db'] eqn:E. eapply well_filed_single; eauto.
  - intros dataArray. unfold insertBatch.
    destruct (transaction _ db) as [r db'] eqn:E. simpl.
    eapply (transaction_keeps well_filed); [exact Hdb | | exact E].
    intros r1 s1. now apply (well_filed_insertBatch_loop getEmbeddingFromText this prompt).
  - intros dataArray. unfold insertManualBatch.
    destruct (transaction _ db) as [r db'] eqn:E. simpl.
    eapply (transaction_keeps well_filed); [exact Hdb | | exact E].
    intros r1 s1. now apply well_filed_insertManualBatch_loop.
  - intros key data. unfold update.
    destruct (transaction _ db) as [r db'] eqn:E. simpl.
    eapply (transaction_keeps well_filed); [exact Hdb | | exact E].
    intros r1 s1. unfold tx_bind, store_get.
    destruct (to_key key) as [k|] eqn:Ek; [|now intros [= _ <-]].
    destruct (db !! k) as [existing|]; [|now intros [= _ <-]].
    rewrite (store_put_merge this _ _ _ k) by exact Ek. intros [= _ <-].
    apply well_filed_insert; [exact Hdb | | apply merge_update_has_vector].
    change "id" with keyPath. now rewrite merge_update_id.
  - intros updates. unfold updateBatch.
    destruct (transaction _ db) as [r db'] eqn:E. simpl.
    eapply (transaction_keeps well_filed); [exact Hdb | | exact E].
    intros r1 s1. now apply well_filed_updateBatch_loop.
  - intros key. unfold delete_.
    destruct (transaction _ db) as [r db'] eqn:E. simpl.
    eapply (transaction_keeps well_filed); [exact Hdb | | exact E].
    intros r1 s1. unfold store_delete.
    destruct (to_key key); intros [= _ <-]; [now apply well_filed_delete | exact Hdb].
  - intros keys. unfold deleteBatch.
    destruct (transaction _ db) as [r db'] eqn:E. simpl.
    eapply (transaction_keeps well_filed); [exact Hdb | | exact E].
    intros r1 s1. now apply well_filed_deleteBatch_loop.
Qed.

(** X5. The three single insertions refuse a record without an id with their
    own error, and an id that is already in the store (the store's
    ConstraintError for [insertManualVectors]); the store stays as it
    was. *)
Theorem single_insert_refuses_bad_ids
    (getEmbeddingFromText : value -> string -> result (list float)) (this : config)
    (data : gmap string value) (db : gmap idb_key (gmap string value)) :
  (is_nullish (get_prop data "id") = true ->
     insert getEmbeddingFromText this data db
     = (Err (Wrapped "Error inserting data: " MissingIdentifier), db)
     /\ insertBinary getEmbeddingFromText this data db
        = (Err (Wrapped "Error inserting binary data: " MissingIdentifier), db)
     /\ insertManualVectors this data db
        = (Err (Wrapped "Error inserting manual vectors: " MissingIdentifier), db))
  /\ (forall k existing,
        to_key (get_prop data "id") = Some k -> db !! k = Some existing ->
        insertManualVectors this data db
        = (Err (Wrapped "Error inserting manual vectors: " ConstraintError), db)
        /\ (exists e, insert getEmbeddingFromText this data db
                      = (Err (Wrapped "Error inserting data: " e), db))
        /\ (exists e, insertBinary getEmbeddingFromText this data db
                      = (Err (Wrapped "Error inserting binary data: " e), db))).
Proof.
  rewrite insert_outcome, insertBinary_outcome, insertManualVectors_outcome.
  unfold single_outcome. split.
  - intros ->. repeat split.
  - intros k existing Hk Hex.
    destruct (is_nullish (get_prop data "id")) eqn:En.
    { apply nullish_no_key in En. congruence. }
    rewrite Hk, Hex. split; [reflexivity|]. split.
    + destruct (resolve_embedding _ _ data); eauto.
    + destruct (res_bind _ _); eauto.
Qed.

(** X6. A record with a truthy text, no "vector" property and a new id: [insert]
    stores it with the embedding of the text as its vector, [insertBinary]
    with the packed bits of that embedding; both return the id. *)
Theorem insert_embeds_the_text
    (getEmbeddingFromText : value -> string -> result (list float)) (this : config)
    (data : gmap string value) (db : gmap idb_key (gmap string value))
    (e : list float) (k : idb_key) :
  truthy (get_prop data "text") = true ->
  getEmbeddingFromText (get_prop data "text") (model this) = Ok e ->
  data !! "vector" = None ->
  to_key (get_prop data "id") = Some k ->
  db !! k = None ->
  insert getEmbeddingFromText this data db
  = (Ok (get_prop data "id"), <[k := <["vector" := VArr e]> data]> db)
  /\ insertBinary getEmbeddingFromText this data db
     = (Ok (get_prop data "id"),
        <[k := <["vector" := VBig64 (pack (binarizeVector e None))]> data]> db).
Proof.
  intros Htext He Hvec Hk Hfresh.
  rewrite insert_outcome, insertBinary_outcome. unfold single_outcome, resolve_embedding.
  rewrite Htext, He. cbn [res_bind binarize_value].
  destruct (is_nullish (get_prop data "id")) eqn:En.
  { apply nullish_no_key in En. congruence. }
  rewrite Hk, Hfresh. now rewrite !record_fresh_vector.
Qed.

(** X7. Without a truthy text, [insert] does what [insertManualVectors] does
    (same store, same key when either succeeds), and [insertBatch] is
    [insertManualBatch]. *)
Theorem insert_without_text_is_manual
    (getEmbeddingFromText : value -> string -> result (list float)) (this : config)
    (prompt : bool) (db : gmap idb_key (gmap string value)) :
  (forall data,
     truthy (get_prop data "text") = false ->
     snd (insert getEmbeddingFromText this data db) = snd (insertManualVectors this data db)
     /\ forall key, fst (insert getEmbeddingFromText this data db) = Ok key
                    <-> fst (insertManualVectors this data db) = Ok key)
  /\ (forall dataArray,
        Forall (fun data => truthy (get_prop data "text") = false) dataArray ->
        insertBatch getEmbeddingFromText this prompt dataArray db
        = insertManualBatch this dataArray db).
Proof.
  split.
  - intros data Htext.
    rewrite insert_outcome, insertManualVectors_outcome.
    unfold single_outcome, resolve_embedding. rewrite Htext.
    destruct (is_nullish (get_prop data "id")); [split; [reflexivity | split; discriminate]|].
    destruct (to_key (get_prop data "id")) as [k|];
      [|split; [reflexivity | split; discriminate]].
    destruct (db !! k); split; try reflexivity; split; try discriminate; tauto.
  - intros dataArray Htext. unfold insertBatch, insertManualBatch, transaction.
    now rewrite insertBatch_loop_manual.
Qed.

Module BatchFacts.

Lemma keys_of_total (ids : list value) :
  Forall (fun id => is_Some (to_key id)) ids -> exists ks, keys_of ids ks.
Proof.
  induction 1 as [|id ids [k Hk] _ [ks IH]]; [exists []; constructor|].
  exists (k :: ks). now constructor.
Qed.

(** A completed [deleteBatch] loop has removed the listed keys and nothing
    else. *)
Lemma deleteBatch_loop_ok (ids : list value) : forall ks s,
  keys_of ids ks ->
  exists s', deleteBatch_loop ids s = (Done tt, s')
    /\ forall j, s' !! j = if bool_decide (j ∈ ks) then None else s !! j.
Proof.
  induction ids as [|id ids IH]; intros ks s Hks.
  - inversion Hks; subst. exists s. split; [reflexivity|]. intros j.
    rewrite bool_decide_eq_false_2; [reflexivity | apply not_elem_of_nil].
  - inversion Hks as [|? k ? ks' Hk Hrest]; subst.
    cbn [deleteBatch_loop]. unfold tx_bind, store_delete. rewrite Hk.
    destruct (IH ks' (delete k s) Hrest) as (s' & Hrun & Hlook).
    exists s'. split; [exact Hrun|]. intros j. rewrite Hlook.
    destruct (decide (j = k)) as [->|Hne].
    + rewrite (bool_decide_eq_true_2 (k ∈ k :: ks')) by apply list_elem_of_here.
      rewrite lookup_delete_eq. now destruct (bool_decide _).
    + rewrite lookup_delete_ne by congruence.
      destruct (decide (j ∈ ks')) as [Hin|Hin].
      * rewrite !bool_decide_eq_true_2; [reflexivity | now apply list_elem_of_further | exact Hin].
      * rewrite !bool_decide_eq_false_2; [reflexivity | | exact Hin].
        intros [->|H]%elem_of_cons; [congruence | contradiction].
Qed.

(** The loop of [deleteBatch] deletes the keys before the first value that
    is not a valid key, and stops there. *)
Lemma deleteBatch_loop_stops (bad : value) (post : list value) (pre : list value) :
  forall ks s,
    keys_of pre ks -> to_key bad = None ->
    exists s', deleteBatch_loop pre s = (Done tt, s')
      /\ deleteBatch_loop (pre ++ bad :: post) s = (Thrown DataError, s')
      /\ forall j, s' !! j = if bool_decide (j ∈ ks) then None else s !! j.
Proof.
  intros ks s Hks Hbad.
  destruct (deleteBatch_loop_ok pre ks s Hks) as (s' & Hrun & Hlook).
  exists s'. split; [exact Hrun|]. split; [|exact Hlook].
  clear Hlook. revert ks s s' Hks Hrun.
  induction pre as [|id pre IH]; intros ks s s' Hks Hrun.
  - injection Hrun as <-. cbn [app deleteBatch_loop]. unfold tx_bind, store_delete.
    now rewrite Hbad.
  - inversion Hks as [|? k ? ks' Hk Hrest]; subst.
    cbn [app deleteBatch_loop] in *. unfold tx_bind, store_delete in *. rewrite Hk in *.
    exact (IH ks' _ _ Hrest Hrun).
Qed.

Section Methods.
Variable getEmbeddingFromText : value -> string -> result (list float).
Variable this : config.
Variable prompt : bool.

(** What a completed loop of [insertBatch] has done to the store. *)
Lemma insertBatch_loop_keys (dataArray : list (gmap string value)) :
  forall keys s keys' s',
    insertBatch_loop getEmbeddingFromText this prompt dataArray keys s = (Done keys', s') ->
    exists ks,
      keys_of (ids_of dataArray) ks
      /\ NoDup ks
      /\ (forall k, k ∈ ks -> s !! k = None /\ is_Some (s' !! k))
      /\ (forall j, j ∉ ks -> s' !! j = s !! j).
Proof.
  induction dataArray as [|data rest IH]; intros keys s keys' s' Hrun.
  - injection Hrun as <- <-. exists [].
    split; [constructor|]. split; [constructor|].
    split; [intros k Hk; now apply not_elem_of_nil in Hk | reflexivity].
  - apply insertBatch_loop_cons in Hrun as (embedding & k & _ & _ & _ & Ek & Es & Hrun).
    pose proof (insertBatch_loop_ok _ _ _ _ _ _ _ _ Hrun) as (_ & _ & Hkeep).
    apply IH in Hrun as (ks & Hks & Hnd & Hnew & Hold).
    assert (Hk : k ∉ ks).
    { intros Hin. destruct (Hnew k Hin) as [Hnone _].
      now rewrite lookup_insert_eq in Hnone. }
    exists (k :: ks).
    split; [constructor; assumption|]. split; [now constructor|]. split.
    + intros k0 [->|Hin]%elem_of_cons.
      * split; [exact Es|]. rewrite (Hkeep k _ (lookup_insert_eq _ _ _)). eauto.
      * destruct (Hnew k0 Hin) as [Hnone Hsome]. split; [|exact Hsome].
        rewrite lookup_insert_ne in Hnone; [exact Hnone | congruence].
    + intros j Hj. apply not_elem_of_cons in Hj as [Hne Hj].
      rewrite (Hold j Hj). now apply lookup_insert_ne.
Qed.

Lemma insertManualBatch_loop_ok (dataArray : list (gmap string value)) :
  forall keys s keys' s',
    insertManualBatch_loop this dataArray keys s = (Done keys', s') ->
    keys' = keys ++ ids_of dataArray
    /\ size s' = (size s + length dataArray)%nat
    /\ (forall k record, s !! k = Some record -> s' !! k = Some record)
    /\ (forall data, data ∈ dataArray ->
          exists k, to_key (get_prop data "id") = Some k
            /\ s' !! k = Some (spread {["vector" := get_prop data (vectorPath this)]} data)).
Proof.
  induction dataArray as [|data rest IH]; intros keys s keys' s' Hrun.
  - injection Hrun as <- <-. rewrite app_nil_r. simpl.
    split; [reflexivity|]. split; [lia|]. split; [tauto|].
    intros d Hd. inversion Hd.
  - cbn [insertManualBatch_loop] in Hrun.
    destruct (is_nullish (get_prop data "id")); [discriminate|].
    unfold tx_bind in Hrun. rewrite store_add_record in Hrun.
    destruct (to_key (get_prop data "id")) as [k|] eqn:Ek; [|discriminate].
    destruct (s !! k) eqn:Es; [discriminate|].
    apply IH in Hrun as (-> & Hsize & Hkeep & Hall).
    assert (Hkeep' : forall k' r, s !! k' = Some r -> s' !! k' = Some r).
    { intros k' r Hr. apply Hkeep. rewrite lookup_insert_ne; [exact Hr | congruence]. }
    split; [|split; [|split]].
    + unfold ids_of. simpl. now rewrite <- app_assoc.
    + rewrite Hsize, map_size_insert_None by exact Es. simpl. lia.
    + exact Hkeep'.
    + intros d [->|Hin]%elem_of_cons; [|now apply Hall].
      exists k. split; [exact Ek|]. apply Hkeep, lookup_insert_eq.
Qed.

Lemma insertManualBatch_loop_keys (dataArray : list (gmap string value)) :
  forall keys s keys' s',
    insertManualBatch_loop this dataArray keys s = (Done keys', s') ->
    exists ks,
      keys_of (ids_of dataArray) ks
      /\ NoDup ks
      /\ (forall k, k ∈ ks -> s !! k = None /\ is_Some (s' !! k))
      /\ (forall j, j ∉ ks -> s' !! j = s !! j).
Proof.
  induction dataArray as [|data rest IH]; intros keys s keys' s' Hrun.
  - injection Hrun as <- <-. exists [].
    split; [constructor|]. split; [constructor|].
    split; [intros k Hk; now apply not_elem_of_nil in Hk | reflexivity].
  - cbn [insertManualBatch_loop] in Hrun.
    destruct (is_nullish (get_prop data "id")); [discriminate|].
    unfold tx_bind in Hrun. rewrite store_add_record in Hrun.
    destruct (to_key (get_prop data "id")) as [k|] eqn:Ek; [|discriminate].
    destruct (s !! k) eqn:Es; [discriminate|].
    pose proof (insertManualBatch_loop_ok _ _ _ _ _ Hrun) as (_ & _ & Hkeep & _).
    apply IH in Hrun as (ks & Hks & Hnd & Hnew & Hold).
    assert (Hk : k ∉ ks).
    { intros Hin. destruct (Hnew k Hin) as [Hnone _].
      now rewrite lookup_insert_eq in Hnone. }
    exists (k :: ks).
    split; [constructor; assumption|]. split; [now constructor|]. split.
    + intros k0 [->|Hin]%elem_of_cons.
      * split; [exact Es|]. rewrite (Hkeep k _ (lookup_insert_eq _ _ _)). eauto.
      * destruct (Hnew k0 Hin) as [Hnone Hsome]. split; [|exact Hsome].
        rewrite lookup_insert_ne in Hnone; [exact Hnone | congruence].
    + intros j Hj. apply not_elem_of_cons in Hj as [Hne Hj].
      rewrite (Hold j Hj). now apply lookup_insert_ne.
Qed.

(** With valid, distinct and unused ids the manual loop completes. *)
Lemma insertManualBatch_loop_completes (dataArray : list (gmap string value)) :
  forall ks keys s,
    keys_of (ids_of dataArray) ks -> NoDup ks ->
    (forall k, k ∈ ks -> s !! k = None) ->
    exists keys' s', insertManualBatch_loop this dataArray keys s = (Done keys', s').
Proof.
  induction dataArray as [|data rest IH]; intros ks keys s Hks Hnd Hfresh.
  - now exists keys, s.
  - inversion Hks as [|? k ? ks' Hk Hrest]; subst.
    apply NoDup_cons in Hnd as [Hnotin Hnd].
    cbn [insertManualBatch_loop].
    destruct (is_nullish (get_prop data "id")) eqn:En.
    { apply nullish_no_key in En. congruence. }
    unfold tx_bind. rewrite store_add_record, Hk.
    rewrite (Hfresh k) by apply list_elem_of_here.
    apply (IH ks'); try assumption.
    intros k' Hin. rewrite lookup_insert_ne by (intros ->; contradiction).
    apply Hfresh. now apply list_elem_of_further.
Qed.

(** Removing the keys a batch added gives the store back. *)
Lemma added_then_removed (ks : list idb_key) (s s' s'' : gmap idb_key (gmap string value)) :
  (forall k, k ∈ ks -> s !! k = None /\ is_Some (s' !! k)) ->
  (forall j, j ∉ ks -> s' !! j = s !! j) ->
  (forall j, s'' !! j = if bool_decide (j ∈ ks) then None else s' !! j) ->
  s'' = s.
Proof.
  intros Hnew Hold Hdel. apply map_eq. intros j. rewrite Hdel.
  destruct (decide (j ∈ ks)) as [Hin|Hin].
  - rewrite bool_decide_eq_true_2 by exact Hin. symmetry. now apply Hnew.
  - rewrite bool_decide_eq_false_2 by exact Hin. now apply Hold.
Qed.

End Methods.

End BatchFacts.
Import BatchFacts.

Module BatchRuns.

Lemma transaction_ok {A} (body : tx A) (db : gmap idb_key (gmap string value)) (a : A) :
  fst (transaction body db) = Ok a ->
  body db = (Done a, snd (transaction body db)).
Proof.
  unfold transaction. destruct (body db) as [[a'|e|e] s]; simpl; congruence.
Qed.

Lemma transaction_run {A} (body : tx A) (db s : gmap idb_key (gmap string value)) (a : A) :
  body db = (Done a, s) -> transaction body db = (Ok a, s).
Proof. unfold transaction. now intros ->. Qed.

(** An exception in a scope none of whose requests failed: the scope
    commits what it wrote. *)
Lemma transaction_thrown {A} (body : tx A) (db s : gmap idb_key (gmap string value))
    (e : error) :
  body db = (Thrown e, s) -> transaction body db = (Err e, s).
Proof. unfold transaction. now intros ->. Qed.

(** A failed request: the scope is rolled back. *)
Lemma transaction_failed {A} (body : tx A) (db s : gmap idb_key (gmap string value))
    (e : error) :
  body db = (Failed e, s) -> transaction body db = (Err e, db).
Proof. unfold transaction. now intros ->. Qed.

End BatchRuns.
Import BatchRuns.

(** X10. A successful [insertBatch] returns the ids in input order, adds one
    record per input and touches no older record; [deleteBatch] on the
    keys it returned gives back the store before the batch. *)
Theorem insertBatch_then_deleteBatch
    (getEmbeddingFromText : value -> string -> result (list float)) (this : config)
    (prompt : bool)
    (dataArray : list (gmap string value)) (db : gmap idb_key (gmap string value))
    (keys : list value) :
  fst (insertBatch getEmbeddingFromText this prompt dataArray db) = Ok keys ->
  let db' := snd (insertBatch getEmbeddingFromText this prompt dataArray db) in
  keys = ids_of dataArray
  /\ size db' = (size db + length dataArray)%nat
  /\ (forall k record, db !! k = Some record -> db' !! k = Some record)
  /\ deleteBatch keys db' = (Ok tt, db).
Proof.
  intros Hrun db'. apply transaction_ok in Hrun. fold db' in Hrun.
  pose proof (insertBatch_loop_ok _ _ _ _ _ _ _ _ Hrun) as (Hkeys & Hsize & Hkeep).
  simpl in Hkeys.
  destruct (insertBatch_loop_keys _ _ _ _ _ _ _ _ Hrun) as (ks & Hks & _ & Hnew & Hold).
  split; [exact Hkeys|]. split; [exact Hsize|]. split; [exact Hkeep|].
  subst keys. unfold ids_of in Hks.
  destruct (deleteBatch_loop_ok _ _ db' Hks) as (s'' & Hdel & Hlook).
  unfold deleteBatch. rewrite (transaction_run _ _ _ _ Hdel).
  f_equal. exact (added_then_removed ks db db' s'' Hnew Hold Hlook).
Qed.

Lemma insertBatch_then_deleteBatch_witness :
  let run := insertBatch embedder settings true
               [<["id" := VNum 1]> without_id; with_text] ∅ in
  size (snd run) = 2%nat /\ deleteBatch [VNum 1; VNum 2] (snd run) = (Ok tt, ∅).
Proof.
  intros run.
  assert (H : fst run = Ok [VNum 1; VNum 2]) by (vm_compute; reflexivity).
  destruct (insertBatch_then_deleteBatch _ _ _ _ _ _ H) as (_ & Hsize & _ & Hdel).
  split; [exact Hsize | exact Hdel].
Defined.

(** X12. [insertManualBatch] succeeds exactly when the ids are valid keys,
    pairwise distinct and not in the store; it then returns the ids in
    order and files each input under its id, with the value under the
    configured field as its vector. *)
Theorem insertManualBatch_succeeds_iff_ids_are_new
    (this : config) (dataArray : list (gmap string value))
    (db : gmap idb_key (gmap string value)) :
  ((exists keys, fst (insertManualBatch this dataArray db) = Ok keys)
   <-> exists ks, keys_of (ids_of dataArray) ks /\ NoDup ks
                  /\ forall k, k ∈ ks -> db !! k = None)
  /\ (forall keys, fst (insertManualBatch this dataArray db) = Ok keys ->
        keys = ids_of dataArray
        /\ size (snd (insertManualBatch this dataArray db)) = (size db + length dataArray)%nat
        /\ forall data, data ∈ dataArray ->
             exists k, to_key (get_prop data "id") = Some k
               /\ snd (insertManualBatch this dataArray db) !! k
                  = Some (spread {["vector" := get_prop data (vectorPath this)]} data)).
Proof.
  split; [split|].
  - intros [keys Hrun]. apply transaction_ok in Hrun.
    destruct (insertManualBatch_loop_keys _ _ _ _ _ _ Hrun) as (ks & Hks & Hnd & Hnew & _).
    exists ks. split; [exact Hks|]. split; [exact Hnd|].
    intros k Hk. now apply Hnew.
  - intros (ks & Hks & Hnd & Hfresh).
    destruct (insertManualBatch_loop_completes this dataArray ks [] db Hks Hnd Hfresh)
      as (keys & s' & Hrun).
    exists keys. unfold insertManualBatch. now rewrite (transaction_run _ _ _ _ Hrun).
  - intros keys Hrun. apply transaction_ok in Hrun.
    destruct (insertManualBatch_loop_ok _ _ _ _ _ _ Hrun) as (Hkeys & Hsize & _ & Hall).
    split; [exact Hkeys|]. split; [exact Hsize | exact Hall].
Qed.

(** X16. With valid keys [deleteBatch] removes the listed keys and nothing
    else; doing it twice is doing it once, and on one key it is [delete]. *)
Theorem deleteBatch_removes_the_listed_keys
    (keys : list value) (ks : list idb_key) (db : gmap idb_key (gmap string value)) :
  keys_of keys ks ->
  fst (deleteBatch keys db) = Ok tt
  /\ (forall j, snd (deleteBatch keys db) !! j
                = if bool_decide (j ∈ ks) then None else db !! j)
  /\ deleteBatch keys (snd (deleteBatch keys db)) = deleteBatch keys db
  /\ forall key k, keys = [key] -> ks = [k] -> delete_ key db = (Ok tt, delete k db).
Proof.
  intros Hks. destruct (deleteBatch_loop_ok keys ks db Hks) as (s' & Hrun & Hlook).
  unfold deleteBatch at 1 2 4. rewrite (transaction_run _ _ _ _ Hrun). simpl.
  split; [reflexivity|]. split; [exact Hlook|]. split.
  - destruct (deleteBatch_loop_ok keys ks s' Hks) as (s'' & Hrun' & Hlook').
    unfold deleteBatch. rewrite (transaction_run _ _ _ _ Hrun'),  (transaction_run _ _ _ _ Hrun).
    f_equal. apply map_eq. intros j. rewrite Hlook', Hlook.
    now destruct (bool_decide _).
  - intros key k -> ->. inversion Hks as [|? ? ? ? Hk _]; subst.
    unfold delete_, transaction, store_delete. now rewrite Hk.
Qed.

Lemma deleteBatch_removes_the_listed_keys_witness :
  holds (snd (deleteBatch [VNum 1; VNum 3] three_manual)) (VNum 1) = false
  /\ holds (snd (deleteBatch [VNum 1; VNum 3] three_manual)) (VNum 2) = holds three_manual (VNum 2).
Proof.
  assert (Hks : keys_of [VNum 1; VNum 3] [key_of (VNum 1); key_of (VNum 3)]).
  { repeat constructor. }
  destruct (deleteBatch_removes_the_listed_keys _ _ three_manual Hks) as (_ & Hlook & _).
  unfold holds. rewrite !Hlook. split; reflexivity.
Defined.

(** X17. [deleteBatch] stops at the first value that is not a valid key,
    with the store's DataError: the keys listed before it are deleted and
    stay deleted, the keys listed after it are not touched. *)
Theorem deleteBatch_stops_at_an_invalid_key
    (pre post : list value) (bad : value) (ks : list idb_key)
    (db : gmap idb_key (gmap string value)) :
  keys_of pre ks -> to_key bad = None ->
  fst (deleteBatch (pre ++ bad :: post) db) = Err DataError
  /\ snd (deleteBatch (pre ++ bad :: post) db) = snd (deleteBatch pre db)
  /\ forall j, snd (deleteBatch (pre ++ bad :: post) db) !! j
               = if bool_decide (j ∈ ks) then None else db !! j.
Proof.
  intros Hks Hbad.
  destruct (deleteBatch_loop_stops bad post pre ks db Hks Hbad) as (s' & Hpre & Hrun & Hlook).
  unfold deleteBatch.
  rewrite (transaction_thrown _ _ _ _ Hrun), (transaction_run _ _ _ _ Hpre).
  cbn [fst snd]. split; [reflexivity|]. split; [reflexivity | exact Hlook].
Qed.

(** [deleteBatch([1, null, 3])] on the three manual records: the call
    fails, record 1 is gone, record 3 is still there. *)
Lemma deleteBatch_stops_at_an_invalid_key_witness :
  fst (deleteBatch [VNum 1; VNull; VNum 3] three_manual) = Err DataError
  /\ holds (snd (deleteBatch [VNum 1; VNull; VNum 3] three_manual)) (VNum 1) = false
  /\ holds (snd (deleteBatch [VNum 1; VNull; VNum 3] three_manual)) (VNum 3)
     = holds three_manual (VNum 3).
Proof.
  assert (Hks : keys_of [VNum 1] [key_of (VNum 1)]) by (repeat constructor).
  destruct (deleteBatch_stops_at_an_invalid_key [VNum 1] [VNum 3] VNull _ three_manual
              Hks eq_refl) as (Hfail & _ & Hlook).
  split; [exact Hfail|]. unfold holds. rewrite !Hlook. split; reflexivity.
Defined.

Module UpdateFacts.

Section Config.
Variable this : config.

Lemma update_run (key : value) (data : gmap string value)
    (db : gmap idb_key (gmap string value)) :
  update this key data db
  = match to_key key with
    | None => (Err DataError, db)
    | Some k =>
        match db !! k with
        | None => (Err NotFound, db)
        | Some existing => (Ok tt, <[k := merge_update this existing data key]> db)
        end
    end.
Proof.
  unfold update, transaction, tx_bind, store_get.
  destruct (to_key key) as [k|] eqn:Ek; [|reflexivity].
  destruct (db !! k) as [existing|] eqn:Edb; [|reflexivity].
  now rewrite (store_put_merge this _ _ _ k) by exact Ek.
Qed.

Lemma merge_update_other (existing data : gmap string value) (key : value) (p : string) :
  p <> "id" -> p <> "vector" ->
  get_prop (merge_update this existing data key) p
  = match data !! p with Some v => v | None => get_prop existing p end.
Proof.
  intros Hid Hvec. unfold merge_update, keyPath. rewrite !get_prop_insert.
  destruct (decide ("vector" = p)) as [E|_]; [congruence|].
  destruct (decide ("id" = p)) as [E|_]; [congruence|].
  apply get_prop_spread.
Qed.

Lemma merge_update_vector (existing data : gmap string value) (key : value) :
  get_prop (merge_update this existing data key) "vector"
  = let newVec := nullish_or (get_prop data (vectorPath this)) (get_prop data "vector") in
    if is_nonempty_array newVec then newVec else get_prop existing "vector".
Proof.
  unfold merge_update. rewrite get_prop_insert.
  now destruct (decide ("vector" = "vector")).
Qed.

Lemma updateBatch_loop_steps (updates : list (gmap string value)) :
  Forall (fun u => is_Some (to_key (get_prop u "key"))) updates ->
  forall s, updateBatch_loop this updates s
            = (Done tt, foldl (update_step this) s updates).
Proof.
  induction 1 as [|u updates [ku Hku] _ IH]; intros s; [reflexivity|].
  simpl. unfold tx_bind, store_get, update_step at 2.
  rewrite update_run, Hku.
  destruct (s !! ku) as [existing|] eqn:Es; [|apply IH].
  rewrite (store_put_merge this _ _ _ ku) by exact Hku. apply IH.
Qed.

(** The loop of [updateBatch] applies the patches before the first one
    whose key is not a valid key, and stops there. *)
Lemma updateBatch_loop_stops (bad : gmap string value) (post pre : list (gmap string value)) :
  Forall (fun u => is_Some (to_key (get_prop u "key"))) pre ->
  to_key (get_prop bad "key") = None ->
  forall s, updateBatch_loop this (pre ++ bad :: post) s
            = (Thrown DataError, foldl (update_step this) s pre).
Proof.
  intros Hpre Hbad. induction Hpre as [|u pre [ku Hku] _ IH]; intros s.
  - cbn [app updateBatch_loop foldl]. unfold tx_bind, store_get. now rewrite Hbad.
  - cbn [app updateBatch_loop foldl]. unfold tx_bind, store_get, update_step at 2.
    rewrite update_run, Hku.
    destruct (s !! ku) as [existing|] eqn:Es; [|apply IH].
    rewrite (store_put_merge this _ _ _ ku) by exact Hku. apply IH.
Qed.

(** Whatever its outcome, the loop of [updateBatch] leaves the keys of the
    store as they were. *)
Lemma updateBatch_loop_keys (updates : list (gmap string value)) :
  forall s r s' (j : idb_key),
    updateBatch_loop this updates s = (r, s') ->
    is_Some (s' !! j) <-> is_Some (s !! j).
Proof.
  induction updates as [|u updates IH]; intros s r s' j Hrun.
  - now injection Hrun as _ <-.
  - cbn [updateBatch_loop] in Hrun. unfold tx_bind, store_get in Hrun.
    destruct (to_key (get_prop u "key")) as [ku|] eqn:Eku; [|now injection Hrun as _ <-].
    destruct (s !! ku) as [existing|] eqn:Es; [|exact (IH _ _ _ j Hrun)].
    rewrite (store_put_merge this _ _ _ ku) in Hrun by exact Eku.
    rewrite (IH _ _ _ j Hrun).
    destruct (decide (ku = j)) as [->|Hne].
    + rewrite lookup_insert_eq, Es. split; eauto.
    + now rewrite lookup_insert_ne.
Qed.

Lemma update_step_keys (s : gmap idb_key (gmap string value)) (u : gmap string value)
    (j : idb_key) :
  is_Some (update_step this s u !! j) <-> is_Some (s !! j).
Proof.
  unfold update_step. rewrite update_run.
  destruct (to_key (get_prop u "key")) as [k|]; [|reflexivity].
  destruct (s !! k) as [existing|] eqn:Es; [|reflexivity].
  simpl. destruct (decide (k = j)) as [->|Hne].
  - rewrite lookup_insert_eq, Es. split; eauto.
  - now rewrite lookup_insert_ne.
Qed.

Lemma update_steps_keys (updates : list (gmap string value)) :
  forall (s : gmap idb_key (gmap string value)) (j : idb_key),
    is_Some (foldl (update_step this) s updates !! j) <-> is_Some (s !! j).
Proof.
  induction updates as [|u updates IH]; intros s j; [reflexivity|].
  simpl. rewrite IH. apply update_step_keys.
Qed.

End Config.

End UpdateFacts.
Import UpdateFacts.

(** X13. [update] on a stored key: the new record has the key as its id, the
    patch's vector only when that is a non-empty plain array (the stored
    vector otherwise), and for every other property the patch's value
    when the patch has one, the stored value otherwise. *)
Theorem update_merges_the_patch_over_the_record
    (this : config) (key : value) (data existing : gmap string value)
    (k : idb_key) (db : gmap idb_key (gmap string value)) :
  to_key key = Some k -> db !! k = Some existing ->
  exists record,
    update this key data db = (Ok tt, <[k := record]> db)
    /\ get_prop record "id" = key
    /\ get_prop record "vector"
       = (let newVec := nullish_or (get_prop data (vectorPath this)) (get_prop data "vector") in
          if is_nonempty_array newVec then newVec else get_prop existing "vector")
    /\ forall p, p <> "id" -> p <> "vector" ->
         get_prop record p = match data !! p with Some v => v | None => get_prop existing p end.
Proof.
  intros Hk Hdb. exists (merge_update this existing data key).
  rewrite update_run, Hk, Hdb.
  split; [reflexivity|]. split; [apply merge_update_id|].
  split; [apply merge_update_vector|]. intros p. apply merge_update_other.
Qed.

Lemma update_merges_the_patch_over_the_record_witness :
  exists record,
    update settings (VNum 1) packed_patch three_manual
    = (Ok tt, <[key_of (VNum 1) := record]> three_manual)
    /\ get_prop record "id" = VNum 1
    /\ get_prop record "vector" = VArr [1; 0; 0]%float
    /\ get_prop record "note" = VStr "n".
Proof.
  assert (Hin : holds three_manual (VNum 1) = true) by (vm_compute; reflexivity).
  destruct (update_merges_the_patch_over_the_record settings (VNum 1) packed_patch
              (stored three_manual (VNum 1)) (key_of (VNum 1)) three_manual
              eq_refl (holds_stored _ _ Hin)) as (record & Hrun & Hid & Hvec & Hrest).
  exists record. split; [exact Hrun|]. split; [exact Hid|]. split.
  - rewrite Hvec. vm_compute. reflexivity.
  - rewrite (Hrest "note") by discriminate. reflexivity.
Defined.

(** X14. [update] and [updateBatch] leave the set of keys of the store as it
    was, whether they complete or throw. *)
Theorem updates_never_add_or_remove_records
    (this : config) (db : gmap idb_key (gmap string value)) (j : idb_key) :
  (forall key data, is_Some (snd (update this key data db) !! j) <-> is_Some (db !! j))
  /\ (forall updates, is_Some (snd (updateBatch this updates db) !! j) <-> is_Some (db !! j)).
Proof.
  split.
  - intros key data. rewrite update_run.
    destruct (to_key key) as [k|]; [|reflexivity].
    destruct (db !! k) as [existing|] eqn:Es; [|reflexivity].
    simpl. destruct (decide (k = j)) as [->|Hne].
    + rewrite lookup_insert_eq, Es. split; eauto.
    + now rewrite lookup_insert_ne.
  - intros updates. unfold updateBatch, transaction.
    destruct (updateBatch_loop this updates db) as [[[]|e|e] s'] eqn:Hrun; cbn [snd].
    + exact (updateBatch_loop_keys this updates _ _ _ j Hrun).
    + exact (updateBatch_loop_keys this updates _ _ _ j Hrun).
    + reflexivity.
Qed.

(** A batch that throws midway: the patch for record 1 is applied, the
    call fails on the key [null], and the store still holds records 1
    and 3 and nothing under 7. *)
Lemma updates_never_add_or_remove_records_witness :
  fst (updateBatch settings
         [<["key" := VNum 1]> (<["tag" := VStr "y"]> ∅); <["key" := VNull]> ∅] three_manual)
  = Err DataError
  /\ (is_Some (snd (updateBatch settings
                      [<["key" := VNum 1]> (<["tag" := VStr "y"]> ∅); <["key" := VNull]> ∅]
                      three_manual) !! key_of (VNum 3))
      <-> is_Some (three_manual !! key_of (VNum 3)))
  /\ (is_Some (snd (updateBatch settings
                      [<["key" := VNum 1]> (<["tag" := VStr "y"]> ∅); <["key" := VNull]> ∅]
                      three_manual) !! key_of (VNum 7))
      <-> is_Some (three_manual !! key_of (VNum 7))).
Proof.
  split; [vm_compute; reflexivity|]. split.
  - exact (proj2 (updates_never_add_or_remove_records settings three_manual (key_of (VNum 3))) _).
  - exact (proj2 (updates_never_add_or_remove_records settings three_manual (key_of (VNum 7))) _).
Defined.

(** X15. With valid keys [updateBatch] is [update] patch by patch, a patch for
    an absent key changing nothing.  At the first key that is not a valid
    key it throws the store's DataError, and the patches before it stay
    applied. *)
Theorem updateBatch_is_update_in_sequence
    (this : config) (db : gmap idb_key (gmap string value)) :
  (forall updates,
     Forall (fun u => is_Some (to_key (get_prop u "key"))) updates ->
     updateBatch this updates db = (Ok tt, foldl (update_step this) db updates))
  /\ (forall pre bad post,
        Forall (fun u => is_Some (to_key (get_prop u "key"))) pre ->
        to_key (get_prop bad "key") = None ->
        updateBatch this (pre ++ bad :: post) db
        = (Err DataError, foldl (update_step this) db pre)).
Proof.
  split.
  - intros updates Hall. unfold updateBatch.
    exact (transaction_run _ _ _ _ (updateBatch_loop_steps this updates Hall db)).
  - intros pre bad post Hpre Hbad. unfold updateBatch.
    exact (transaction_thrown _ _ _ _ (updateBatch_loop_stops this bad post pre Hpre Hbad db)).
Qed.

(** [updateBatch([{ key: 1, tag: "y" }, { key: null }])] on the three
    manual records throws, and record 1 has the tag. *)
Lemma updateBatch_is_update_in_sequence_witness :
  fst (updateBatch settings
         [<["key" := VNum 1]> (<["tag" := VStr "y"]> ∅); <["key" := VNull]> ∅] three_manual)
  = Err DataError
  /\ get_prop (stored (snd (updateBatch settings
                              [<["key" := VNum 1]> (<["tag" := VStr "y"]> ∅);
                               <["key" := VNull]> ∅] three_manual)) (VNum 1)) "tag"
     = VStr "y".
Proof.
  assert (Hpre : Forall (fun u => is_Some (to_key (get_prop u "key")))
                        [<["key" := VNum 1]> (<["tag" := VStr "y"]> ∅)]).
  { repeat constructor. eexists. vm_compute. reflexivity. }
  assert (Hbad : to_key (get_prop (<["key" := VNull]> ∅) "key") = None)
    by (vm_compute; reflexivity).
  pose proof (proj2 (updateBatch_is_update_in_sequence settings three_manual)
                [<["key" := VNum 1]> (<["tag" := VStr "y"]> ∅)] (<["key" := VNull]> ∅) []
                Hpre Hbad) as Hrun.
  cbn [app] in Hrun. rewrite Hrun.
  split; [reflexivity | vm_compute; reflexivity].
Defined.

Module PatchFacts.

Section Config.
Variable this : config.

(** Patches for other keys leave the record under a key as it is. *)
Lemma update_steps_other (k : idb_key) (updates : list (gmap string value)) :
  Forall (fun u => exists j, to_key (get_prop u "key") = Some j /\ j <> k) updates ->
  forall s, foldl (update_step this) s updates !! k = s !! k.
Proof.
  induction 1 as [|u updates (j & Hj & Hne) _ IH]; intros s; [reflexivity|].
  cbn [foldl]. rewrite IH. unfold update_step. rewrite update_run, Hj.
  destruct (s !! j); [|reflexivity]. cbn [snd]. now apply lookup_insert_ne.
Qed.

Lemma other_keys_valid (k : idb_key) (updates : list (gmap string value)) :
  Forall (fun u => exists j, to_key (get_prop u "key") = Some j /\ j <> k) updates ->
  Forall (fun u => is_Some (to_key (get_prop u "key"))) updates.
Proof. intros H. eapply Forall_impl; [exact H|]. intros u (j & Hj & _). eauto. Qed.

End Config.

End PatchFacts.
Import PatchFacts.

(** C5, amended. For an identifier that is a valid key the store does not
    hold, [update] fails with [NotFound] and leaves the store as it was,
    while [updateBatch] treats a patch for that identifier as if it were
    not in the list: it raises nothing for it, creates no record for it,
    and a patch of the list for a key that is present is applied, giving
    the record the key as its id, the patch's vector when that is a
    non-empty plain array, and the patch's value for every other property
    the patch has.  For an identifier that is not a valid key, no record
    of a store filed by id has it, [update] fails with the store's DataError, and
    [updateBatch] throws it at the patch for that identifier, the patches
    before it staying applied. *)
Theorem update_missing_key_single_fails_batch_skips
    (this : config) (db : gmap idb_key (gmap string value)) (id : value) :
  (forall k,
     to_key id = Some k -> db !! k = None ->
     (forall patch, update this id patch db = (Err NotFound, db))
     /\ (forall pre post u,
           get_prop u "key" = id ->
           updateBatch this (pre ++ u :: post) db = updateBatch this (pre ++ post) db)
     /\ (forall updates,
           Forall (fun u => is_Some (to_key (get_prop u "key"))) updates ->
           fst (updateBatch this updates db) = Ok tt
           /\ snd (updateBatch this updates db) !! k = None)
     /\ (forall pre u post k' existing,
           Forall (fun u => exists j, to_key (get_prop u "key") = Some j /\ j <> k')
                  (pre ++ post) ->
           to_key (get_prop u "key") = Some k' -> db !! k' = Some existing ->
           exists record,
             fst (updateBatch this (pre ++ u :: post) db) = Ok tt
             /\ snd (updateBatch this (pre ++ u :: post) db) !! k' = Some record
             /\ get_prop record "id" = get_prop u "key"
             /\ get_prop record "vector"
                = (let newVec := nullish_or (get_prop (delete "key" u) (vectorPath this))
                                            (get_prop (delete "key" u) "vector") in
                   if is_nonempty_array newVec then newVec else get_prop existing "vector")
             /\ forall p, p <> "id" -> p <> "vector" ->
                  get_prop record p
                  = match delete "key" u !! p with
                    | Some v => v
                    | None => get_prop existing p
                    end))
  /\ (to_key id = None ->
        (well_filed db ->
           forall j record, db !! j = Some record -> get_prop record "id" <> id)
        /\ (forall patch, update this id patch db = (Err DataError, db))
        /\ (forall pre u post,
              Forall (fun u => is_Some (to_key (get_prop u "key"))) pre ->
              get_prop u "key" = id ->
              updateBatch this (pre ++ u :: post) db
              = (Err DataError, foldl (update_step this) db pre))).
Proof.
  split.
  - intros k Hk Habsent. split; [|split; [|split]].
    + intros patch. now rewrite update_run, Hk, Habsent.
    + intros pre post u Hu. unfold updateBatch, transaction.
      rewrite (updateBatch_loop_skip this u k); [reflexivity | now rewrite Hu | exact Habsent].
    + intros updates Hvalid. unfold updateBatch, transaction.
      destruct (updateBatch_loop_completes this updates Hvalid db) as (s' & -> & Hnone).
      split; [reflexivity | now apply Hnone].
    + intros pre u post k' existing Hothers Hk' Hex.
      apply Forall_app in Hothers as [Hpre Hpost].
      assert (Hvalid : Forall (fun u => is_Some (to_key (get_prop u "key")))
                              (pre ++ u :: post)).
      { apply Forall_app. split; [exact (other_keys_valid k' pre Hpre)|].
        constructor; [eauto | exact (other_keys_valid k' post Hpost)]. }
      unfold updateBatch.
      rewrite (transaction_run _ _ _ _ (updateBatch_loop_steps this _ Hvalid db)).
      cbn [fst snd]. rewrite foldl_app. cbn [foldl].
      rewrite (update_steps_other this k' post Hpost).
      unfold update_step at 1. rewrite update_run, Hk'.
      rewrite (update_steps_other this k' pre Hpre), Hex. cbn [snd].
      rewrite lookup_insert_eq. eexists. split; [reflexivity|]. split; [reflexivity|].
      split; [|split].
      * change "id" with keyPath. apply merge_update_id.
      * apply merge_update_vector.
      * intros p Hid Hvec. now apply merge_update_other.
  - intros Hk. split; [|split].
    + intros Hdb j record Hlook Hid. destruct (Hdb j record Hlook) as [Hj _]. congruence.
    + intros patch. now rewrite update_run, Hk.
    + intros pre u post Hpre Hu. unfold updateBatch.
      apply transaction_thrown, updateBatch_loop_stops; [exact Hpre | now rewrite Hu].
Qed.

(** Key 7 on the store of the three manual records: [update] fails with
    NotFound; the batch [{ key: 7, tag: "z" }, { key: 1, tag: "x" }]
    completes, creates nothing under 7 and gives record 1 the tag "x",
    leaving its vector.  The key [null]: [update] fails with DataError. *)
Lemma update_missing_key_single_fails_batch_skips_witness :
  let batch := [<["key" := VNum 7]> (<["tag" := VStr "z"]> ∅);
                <["key" := VNum 1]> (<["tag" := VStr "x"]> ∅)] in
  update settings (VNum 7) ∅ three_manual = (Err NotFound, three_manual)
  /\ fst (updateBatch settings batch three_manual) = Ok tt
  /\ snd (updateBatch settings batch three_manual) !! key_of (VNum 7) = None
  /\ (exists record,
        snd (updateBatch settings batch three_manual) !! key_of (VNum 1) = Some record
        /\ get_prop record "tag" = VStr "x"
        /\ get_prop record "vector" = VArr [1; 0; 0]%float)
  /\ update settings VNull ∅ three_manual = (Err DataError, three_manual).
Proof.
  intros batch.
  assert (Hk : to_key (VNum 7) = Some (key_of (VNum 7))) by (vm_compute; reflexivity).
  assert (Ha : three_manual !! key_of (VNum 7) = None) by (vm_compute; reflexivity).
  destruct (proj1 (update_missing_key_single_fails_batch_skips settings three_manual (VNum 7))
              (key_of (VNum 7)) Hk Ha) as (Hsingle & _ & Hbatch & Hpatch).
  assert (Hvalid : Forall (fun u => is_Some (to_key (get_prop u "key"))) batch).
  { repeat constructor; eexists; vm_compute; reflexivity. }
  assert (Hothers : Forall (fun u => exists j, to_key (get_prop u "key") = Some j
                                               /\ j <> key_of (VNum 1))
                           ([<["key" := VNum 7]> (<["tag" := VStr "z"]> ∅)] ++ [])).
  { repeat constructor. exists (key_of (VNum 7)).
    split; [vm_compute; reflexivity | vm_compute; discriminate]. }
  assert (Hex : three_manual !! key_of (VNum 1) = Some (stored three_manual (VNum 1)))
    by (vm_compute; reflexivity).
  assert (Hk1 : to_key (get_prop (<["key" := VNum 1]> (<["tag" := VStr "x"]> ∅)) "key")
                = Some (key_of (VNum 1))) by (vm_compute; reflexivity).
  destruct (Hpatch _ (<["key" := VNum 1]> (<["tag" := VStr "x"]> ∅)) _ (key_of (VNum 1)) _
              Hothers Hk1 Hex) as (record & _ & Hlook & _ & Hvec & Hprops).
  split; [apply Hsingle|]. split; [apply (Hbatch batch Hvalid)|].
  split; [apply (Hbatch batch Hvalid)|]. split.
  - exists record. split; [exact Hlook|]. split.
    + rewrite (Hprops "tag") by discriminate. vm_compute. reflexivity.
    + rewrite Hvec. vm_compute. reflexivity.
  - exact (proj1 (proj2 (proj2 (update_missing_key_single_fails_batch_skips settings
                                  three_manual VNull) eq_refl)) ∅).
Defined.

(** C5 as stated fails for an identifier that is not a valid key: no
    record of the store has the id [null], yet [update(null, {})] fails
    with the store's DataError, not with NotFound, and [updateBatch] on
    [{ key: 1, tag: "y" }, { key: null }] throws it instead of skipping,
    after it has given record 1 the tag "y". *)
Lemma update_of_an_invalid_key_raises_DataError :
  let batch := [<["key" := VNum 1]> (<["tag" := VStr "y"]> ∅); <["key" := VNull]> ∅] in
  Forall (fun record => get_prop record "id" <> VNull) (records three_manual)
  /\ fst (update settings VNull ∅ three_manual) = Err DataError
  /\ fst (updateBatch settings batch three_manual) = Err DataError
  /\ get_prop (stored (snd (updateBatch settings batch three_manual)) (VNum 1)) "tag"
     = VStr "y".
Proof.
  intros batch. split; [|repeat split; vm_compute; reflexivity].
  assert (Hrecords : records three_manual
                     = [stored three_manual (VNum 1); stored three_manual (VNum 2);
                        stored three_manual (VNum 3)])
    by (vm_compute; reflexivity).
  rewrite Hrecords. repeat constructor; vm_compute; discriminate.
Qed.

Module KeyOrder.

Lemma number_compare_antisym (x y : spec_float) :
  number_compare x y = CompOpp (number_compare y x).
Proof.
  unfold number_compare.
  destruct x as [sx|sx| |sx mx ex], y as [sy|sy| |sy my ey]; cbn;
    try reflexivity; try (destruct sx; reflexivity); try (destruct sy; reflexivity);
    try (destruct sx, sy; reflexivity).
  destruct sx, sy; try reflexivity; rewrite (Z.compare_antisym ey ex);
    destruct (ey ?= ex); cbn; try reflexivity;
    rewrite (ZC4 mx my); now rewrite ?CompOpp_involutive.
Qed.

Lemma list_compare_antisym {A} (cmp : A -> A -> comparison) :
  (forall x y, cmp x y = CompOpp (cmp y x)) ->
  forall l1 l2, list_compare cmp l1 l2 = CompOpp (list_compare cmp l2 l1).
Proof.
  intros Hcmp. induction l1 as [|x l1 IH]; intros [|y l2]; cbn; try reflexivity.
  rewrite (Hcmp x y). destruct (cmp y x); cbn; [apply IH | reflexivity..].
Qed.

Lemma key_compare_antisym (k1 k2 : idb_key) :
  key_compare k1 k2 = CompOpp (key_compare k2 k1).
Proof.
  destruct k1, k2; cbn; try reflexivity.
  - apply number_compare_antisym.
  - apply String.compare_antisym.
  - apply list_compare_antisym, number_compare_antisym.
  - apply list_compare_antisym. intros x y. apply Z.compare_antisym.
Qed.

(** Of two keys one comes no later than the other. *)
Lemma key_le_total (k1 k2 : idb_key) : key_le k1 k2 = true \/ key_le k2 k1 = true.
Proof.
  unfold key_le. rewrite (key_compare_antisym k2 k1).
  destruct (key_compare k1 k2); cbn; auto.
Qed.

Lemma by_key_total : Total by_key.
Proof.
  intros p q. unfold by_key.
  destruct (key_le_total p.1 q.1) as [H|H]; rewrite H; [left | right]; exact I.
Qed.

(** The records [getAll] gives are those of the store, each once, in
    ascending order of their keys. *)
Lemma records_in_key_order (db : gmap idb_key (gmap string value)) :
  exists entries,
    entries ≡ₚ map_to_list db
    /\ Sorted by_key entries
    /\ records db = map snd entries.
Proof.
  exists (merge_sort by_key (map_to_list db)).
  split; [apply merge_sort_Permutation|].
  split; [exact (@Sorted_merge_sort _ by_key _ by_key_total _) | reflexivity].
Qed.

End KeyOrder.
Import KeyOrder.

Module QueryRuns.

Lemma res_mapM_total {A B} (f : A -> result B) (l : list A) :
  (forall x, x ∈ l -> exists y, f x = Ok y) ->
  exists r, res_mapM f l = Ok r.
Proof.
  induction l as [|x l IH]; intros Hall; [now exists []|].
  destruct (Hall x ltac:(left)) as [y Hy].
  destruct IH as [r Hr]; [intros x' Hx'; apply Hall; now right|].
  exists (y :: r). simpl. now rewrite Hy, Hr.
Qed.

Lemma res_mapM_Forall2 {A B} (f : A -> result B) (l : list A) : forall r,
  res_mapM f l = Ok r -> Forall2 (fun x y => f x = Ok y) l r.
Proof.
  induction l as [|x l IH]; intros r Hr.
  - injection Hr as <-. constructor.
  - simpl in Hr. destruct (f x) as [y|e] eqn:Ey; [|discriminate].
    simpl in Hr. destruct (res_mapM f l) as [ys|e]; [|discriminate].
    injection Hr as <-. constructor; [exact Ey | now apply IH].
Qed.

Lemma res_mapM_fails {A B} (f : A -> result B) (l : list A) (x : A) (e : error) :
  x ∈ l -> f x = Err e -> exists e', res_mapM f l = Err e'.
Proof.
  induction l as [|x' l IH]; intros Hin Hx; [now apply elem_of_nil in Hin|].
  simpl. apply elem_of_cons in Hin as [->|Hin].
  - rewrite Hx. now exists e.
  - destruct (f x') as [y|e1]; [|now exists e1]. simpl.
    destruct (IH Hin Hx) as [e' ->]. now exists e'.
Qed.

Lemma res_mapM_error {A B} (f : A -> result B) (l : list A) (e : error) :
  res_mapM f l = Err e -> exists x, x ∈ l /\ f x = Err e.
Proof.
  induction l as [|x l IH]; [discriminate|]. simpl.
  destruct (f x) as [y|e1] eqn:Ey; simpl.
  - destruct (res_mapM f l) as [ys|e2]; [discriminate|]. simpl.
    intros [= <-]. destruct (IH eq_refl) as (x' & Hin & Hx').
    exists x'. split; [now right | exact Hx'].
  - intros [= <-]. exists x. split; [now left | exact Ey].
Qed.

Lemma Forall2_right {A B} (P : A -> B -> Prop) (l : list A) (r : list B) (y : B) :
  Forall2 P l r -> y ∈ r -> exists x, x ∈ l /\ P x y.
Proof.
  induction 1 as [|x y' l r Hxy _ IH]; intros Hin; [now apply elem_of_nil in Hin|].
  apply elem_of_cons in Hin as [->|Hin].
  - exists x. split; [now left | exact Hxy].
  - destruct (IH Hin) as (x' & Hx' & HP). exists x'. split; [now right | exact HP].
Qed.

Lemma Forall2_left {A B} (P : A -> B -> Prop) (l : list A) (r : list B) (x : A) :
  Forall2 P l r -> x ∈ l -> exists y, y ∈ r /\ P x y.
Proof.
  induction 1 as [|x' y l r Hxy _ IH]; intros Hin; [now apply elem_of_nil in Hin|].
  apply elem_of_cons in Hin as [->|Hin].
  - exists y. split; [now left | exact Hxy].
  - destruct (IH Hin) as (y' & Hy' & HP). exists y'. split; [now right | exact HP].
Qed.

Lemma slice0_all_of {A} (l : list A) (limit : Z) :
  Z.of_nat (length l) <= limit -> slice0 l limit = l.
Proof.
  intros H. unfold slice0. destruct (Z.ltb_spec limit 0); [lia|].
  apply firstn_all2. lia.
Qed.

(** The records of the store, as [getAll] gives them. *)
Lemma getAll_ok (db : gmap idb_key (gmap string value)) :
  getAll db = Ok (records db).
Proof. reflexivity. Qed.

Lemma records_perm (db : gmap idb_key (gmap string value)) :
  records db ≡ₚ map snd (map_to_list db).
Proof. unfold records. now rewrite merge_sort_Permutation. Qed.

Lemma getAll_elem (db : gmap idb_key (gmap string value)) (entry : gmap string value) :
  entry ∈ records db <-> exists k, db !! k = Some entry.
Proof.
  rewrite records_perm, list_elem_of_fmap. split.
  - intros ([k r] & -> & Hin). exists k. now apply elem_of_map_to_list in Hin.
  - intros [k Hk]. exists (k, entry). split; [reflexivity|].
    now apply elem_of_map_to_list.
Qed.

Lemma getAll_length (db : gmap idb_key (gmap string value)) :
  length (records db) = size db.
Proof. rewrite records_perm, length_map. apply length_map_to_list. Qed.

Lemma getAll_nonempty (db : gmap idb_key (gmap string value)) :
  db <> ∅ -> exists entry rest, records db = entry :: rest.
Proof.
  intros Hne. destruct (records db) as [|entry rest] eqn:E; [|eauto].
  exfalso. apply Hne, map_size_empty_inv.
  rewrite <- getAll_length, E. reflexivity.
Qed.

Lemma slice0_elem {A} (l : list A) (e : Z) (x : A) : x ∈ slice0 l e -> x ∈ l.
Proof.
  unfold slice0. apply subseteq_take.
Qed.

Lemma slice0_length_le {A} (l : list A) (e : Z) :
  (length (slice0 l e) <= length l)%nat.
Proof. unfold slice0. rewrite length_firstn. lia. Qed.

Lemma slice0_length {A} (l : list A) (e : Z) :
  0 <= e -> Z.of_nat (length (slice0 l e)) = Z.min e (Z.of_nat (length l)).
Proof.
  intros He. unfold slice0. destruct (Z.ltb_spec e 0); [lia|].
  rewrite length_firstn. lia.
Qed.

Lemma sort_elem {A} (cmp : A -> A -> float) (l : list A) (x : A) :
  x ∈ sort cmp l <-> x ∈ l.
Proof. now rewrite (sort_perm cmp l). Qed.

(** Writing a query into the fresh memory of an instance. *)
Lemma memory_set_fresh (q : list Z) :
  8 * Z.of_nat (length q) <= page_size ->
  exists mem,
    memory_set fresh_memory (words_bytes q) 0 = Ok mem
    /\ Z.of_nat (length mem) = page_size
    /\ take (length (words_bytes q)) mem = words_bytes q.
Proof.
  unfold page_size. intros Hq.
  pose proof fresh_memory_length as Hfresh. unfold page_size in Hfresh.
  pose proof (words_bytes_length q) as Hbytes.
  set (mem := take 0 fresh_memory ++ words_bytes q
                ++ drop (0 + length (words_bytes q)) fresh_memory).
  assert (Hset : memory_set fresh_memory (words_bytes q) 0 = Ok mem).
  { unfold memory_set. rewrite bool_decide_eq_true_2 by lia. reflexivity. }
  exists mem. split; [exact Hset|]. split.
  - rewrite (memory_set_length _ _ _ _ Hset). exact Hfresh.
  - unfold mem. rewrite take_0, app_nil_l. now apply take_app_length'.
Qed.

Section Methods.
Variable getEmbeddingFromText : value -> string -> result (list float).
Variable this : config.

Lemma queryBinary_run (queryText : value) (limit : option Z)
    (db : gmap idb_key (gmap string value)) (e : list float) :
  getEmbeddingFromText queryText (model this) = Ok e ->
  queryBinary getEmbeddingFromText this queryText limit db
  = rethrow "Error querying binary vectors: " (
      try! distances := res_mapM (scalar_step (pack (binarizeVector e None)))
                                 (records db) in
      Ok (slice0 (sort by_distance distances) (default default_limit limit))).
Proof.
  intros He. unfold queryBinary, packed_query. rewrite He. reflexivity.
Qed.

Lemma query_words (e : list float) :
  Z.of_nat (length (pack (binarizeVector e None))) = ceil64 (Z.of_nat (length e)).
Proof.
  rewrite pack_length. unfold binarizeVector. now rewrite length_map.
Qed.

Lemma scalar_step_packed (q w : list Z) (entry : gmap string value) :
  get_prop entry "vector" = VBig64 w -> length q = length w ->
  words_ok q -> words_ok w ->
  scalar_step q entry
  = Ok (<["distance" := VNum (float_of_Z (count_true (bits_differ q w) (64 * length w)))]> entry).
Proof.
  intros Hv Hlen Hq Hw. unfold scalar_step.
  rewrite Hv, hammingDistance_count by assumption. simpl. now rewrite Hlen.
Qed.

(** On a memory that holds a query of two words in its first sixteen
    bytes, the accelerated scan of entries of two words gives what the
    scalar scan gives. *)
Lemma simd_map_two_words (q0 q1 : Z) (vectors : list (gmap string value)) :
  words_ok [q0; q1] ->
  (forall entry, entry ∈ vectors ->
     exists w, get_prop entry "vector" = VBig64 w /\ length w = 2%nat /\ words_ok w) ->
  forall mem,
    Z.of_nat (length mem) = page_size ->
    take 16 mem = words_bytes [q0; q1] ->
    simd_map mem 2 vectors = res_mapM (scalar_step [q0; q1]) vectors.
Proof.
  intros Hq. induction vectors as [|entry rest IH]; intros Hall mem Hlen Htake;
    [reflexivity|].
  destruct (Hall entry ltac:(left)) as (w & Hv & Hw2 & Hw).
  destruct w as [|d0 [|d1 [|? ?]]]; try discriminate.
  destruct (simd_distance_two_words mem q0 q1 d0 d1 Hlen Htake Hq Hw)
    as (distance & mem' & Hsimd & Hscalar & Hlen' & Htake').
  cbn [simd_map res_mapM]. rewrite Hv, Hsimd. unfold scalar_step at 1.
  rewrite Hv, Hscalar. cbn [res_bind fst snd].
  rewrite (IH (fun x Hx => Hall x ltac:(now right)) mem' Hlen' Htake').
  reflexivity.
Qed.

Lemma packed_store_entries (n : nat) (db : gmap idb_key (gmap string value))
    (entry : gmap string value) :
  packed_store n db -> entry ∈ records db ->
  exists w, get_prop entry "vector" = VBig64 w /\ length w = n /\ words_ok w.
Proof. intros Hdb [k Hk]%getAll_elem. exact (Hdb k entry Hk). Qed.

Lemma packed_store_empty (n : nat) : packed_store n ∅.
Proof. intros k record Hk. now rewrite lookup_empty in Hk. Qed.

Lemma packed_store_insert (n : nat) (db : gmap idb_key (gmap string value))
    (k : idb_key) (record : gmap string value) (w : list Z) :
  packed_store n db -> get_prop record "vector" = VBig64 w -> length w = n ->
  words_ok w -> packed_store n (<[k := record]> db).
Proof.
  intros Hdb Hv Hn Hw j r Hj. destruct (decide (k = j)) as [->|Hne].
  - rewrite lookup_insert_eq in Hj. injection Hj as <-. now exists w.
  - rewrite lookup_insert_ne in Hj by exact Hne. exact (Hdb j r Hj).
Qed.

(** [insertBinary] of a record embedded from its text keeps a store of
    packed vectors of the embedder's size. *)
Lemma packed_store_insertBinary (n : nat) (db : gmap idb_key (gmap string value))
    (data : gmap string value) :
  packed_store n db ->
  truthy (get_prop data "text") = true -> data !! "vector" = None ->
  (forall e, getEmbeddingFromText (get_prop data "text") (model this) = Ok e ->
             ceil64 (Z.of_nat (length e)) = Z.of_nat n) ->
  packed_store n (snd (insertBinary getEmbeddingFromText this data db)).
Proof.
  intros Hdb Htext Hvec Hsize. rewrite insertBinary_outcome. unfold single_outcome.
  destruct (is_nullish (get_prop data "id")); [exact Hdb|].
  unfold resolve_embedding. rewrite Htext.
  destruct (getEmbeddingFromText _ _) as [e|err] eqn:He; [|exact Hdb].
  cbn [res_bind binarize_value].
  destruct (to_key (get_prop data "id")) as [k|]; [|exact Hdb].
  destruct (db !! k); [exact Hdb|]. cbn [snd].
  apply (packed_store_insert n db k _ (pack (binarizeVector e None))); try assumption.
  - rewrite get_prop_spread, Hvec. unfold get_prop.
    now rewrite lookup_singleton_eq.
  - pose proof (query_words e). specialize (Hsize e eq_refl). lia.
  - apply pack_words_ok.
Qed.

Lemma queryBinary_packed (queryText : value) (limit : Z)
    (db : gmap idb_key (gmap string value)) (e : list float) (n : nat) :
  getEmbeddingFromText queryText (model this) = Ok e ->
  packed_store n db ->
  0 <= limit ->
  ceil64 (Z.of_nat (length e)) = Z.of_nat n ->
  exists r,
    queryBinary getEmbeddingFromText this queryText (Some limit) db = Ok r
    /\ Z.of_nat (length r) = Z.min limit (Z.of_nat (size db))
    /\ (forall x, x ∈ r ->
         exists k record w,
           db !! k = Some record
           /\ get_prop record "vector" = VBig64 w
           /\ x = <["distance" :=
                      VNum (float_of_Z
                              (count_true (bits_differ (pack (binarizeVector e None)) w)
                                          (64 * n)))]> record)
    /\ (Z.of_nat (size db) <= limit ->
        forall k record w,
          db !! k = Some record -> get_prop record "vector" = VBig64 w ->
          <["distance" :=
              VNum (float_of_Z
                      (count_true (bits_differ (pack (binarizeVector e None)) w)
                                  (64 * n)))]> record ∈ r).
Proof.
  intros He Hdb Hlimit Hsame. rewrite (queryBinary_run _ _ _ e He).
  pose proof (query_words e) as Hq. cbn [default].
  set (q := pack (binarizeVector e None)) in *.
  assert (Hstep : forall entry, entry ∈ records db ->
            exists w, get_prop entry "vector" = VBig64 w
              /\ scalar_step q entry
                 = Ok (<["distance" :=
                           VNum (float_of_Z (count_true (bits_differ q w) (64 * n)))]> entry)).
  { intros entry Hin.
    destruct (packed_store_entries n db entry Hdb Hin) as (w & Hv & Hn & Hw).
    exists w. split; [exact Hv|].
    rewrite (scalar_step_packed q w entry Hv) by (try apply pack_words_ok; try assumption; lia).
    now rewrite Hn. }
  destruct (res_mapM_total (scalar_step q) (records db)) as [r Hr].
  { intros entry Hin. destruct (Hstep entry Hin) as (w & _ & ->). eauto. }
  rewrite Hr. cbn [res_bind rethrow]. eexists. split; [reflexivity|].
  apply res_mapM_Forall2 in Hr. split; [|split].
  - rewrite slice0_length by exact Hlimit.
    rewrite sort_length, <- (Forall2_length _ _ _ Hr), getAll_length. reflexivity.
  - intros x Hx. apply slice0_elem, sort_elem in Hx.
    destruct (Forall2_right _ _ _ _ Hr Hx) as (entry & Hin & Hx').
    destruct (Hstep entry Hin) as (w & Hv & Hok).
    apply getAll_elem in Hin as [k Hk].
    exists k, entry, w. split; [exact Hk|]. split; [exact Hv|]. congruence.
  - intros Hall k record w Hk Hv.
    rewrite slice0_all_of
      by (rewrite sort_length, <- (Forall2_length _ _ _ Hr), getAll_length; exact Hall).
    apply sort_elem.
    assert (Hin : record ∈ records db) by (apply getAll_elem; eauto).
    destruct (Forall2_left _ _ _ _ Hr Hin) as (y & Hy & Hy').
    destruct (Hstep record Hin) as (w' & Hv' & Hok).
    assert (w' = w) by congruence. subst w'. congruence.
Qed.

End Methods.

End QueryRuns.
Import QueryRuns.

(** X23. [queryBinary] on a store of packed vectors of [n] words: a query of
    another word count fails with the length error of [hammingDistance];
    a query of [n] words gives [min limit size] entries, each record with
    the number of bits its vector differs from the query in. *)
Theorem queryBinary_on_a_packed_store
    (getEmbeddingFromText : value -> string -> result (list float)) (this : config)
    (queryText : value) (limit : Z) (db : gmap idb_key (gmap string value))
    (e : list float) (n : nat) :
  getEmbeddingFromText queryText (model this) = Ok e ->
  packed_store n db ->
  0 <= limit ->
  (db <> ∅ -> ceil64 (Z.of_nat (length e)) <> Z.of_nat n ->
   queryBinary getEmbeddingFromText this queryText (Some limit) db
   = Err (Wrapped "Error querying binary vectors: " LengthMismatch))
  /\ (ceil64 (Z.of_nat (length e)) = Z.of_nat n ->
      exists r,
        queryBinary getEmbeddingFromText this queryText (Some limit) db = Ok r
        /\ Z.of_nat (length r) = Z.min limit (Z.of_nat (size db))
        /\ (forall x, x ∈ r ->
             exists k record w,
               db !! k = Some record
               /\ get_prop record "vector" = VBig64 w
               /\ x = <["distance" :=
                          VNum (float_of_Z
                                  (count_true (bits_differ (pack (binarizeVector e None)) w)
                                              (64 * n)))]> record)
        /\ (Z.of_nat (size db) <= limit ->
            forall k record w,
              db !! k = Some record -> get_prop record "vector" = VBig64 w ->
              <["distance" :=
                  VNum (float_of_Z
                          (count_true (bits_differ (pack (binarizeVector e None)) w)
                                      (64 * n)))]> record ∈ r)).
Proof.
  intros He Hdb Hlimit. split.
  - intros Hne Hmis. rewrite (queryBinary_run _ _ _ _ _ e He).
    pose proof (query_words e) as Hq. cbn [default].
    set (q := pack (binarizeVector e None)) in *.
    destruct (res_mapM (scalar_step q) (records db)) as [r|err] eqn:Hr.
    + exfalso. apply res_mapM_Forall2 in Hr.
      destruct (getAll_nonempty db Hne) as (entry & rest & Hall).
      rewrite Hall in Hr. inversion Hr as [|? y ? ? Hstep _]; subst.
      destruct (packed_store_entries n db entry Hdb) as (w & Hv & Hn & _).
      { rewrite Hall. now left. }
      unfold scalar_step in Hstep. rewrite Hv, hammingDistance_words in Hstep.
      rewrite bool_decide_eq_false_2 in Hstep by lia. discriminate.
    + apply res_mapM_error in Hr as (entry & Hin & Hstep).
      destruct (packed_store_entries n db entry Hdb Hin) as (w & Hv & Hn & _).
      unfold scalar_step in Hstep. rewrite Hv, hammingDistance_words in Hstep.
      rewrite bool_decide_eq_false_2 in Hstep by lia.
      simpl in Hstep. injection Hstep as <-. reflexivity.
  - intros Hsame. now apply queryBinary_packed.
Qed.

Lemma two_binary_packed : packed_store 1 two_binary.
Proof.
  unfold two_binary, after_insert.
  apply packed_store_insertBinary; [|reflexivity|reflexivity|now intros e [= <-]].
  apply packed_store_insertBinary; [|reflexivity|reflexivity|now intros e [= <-]].
  apply packed_store_empty.
Defined.

Lemma two_binary128_packed : packed_store 2 two_binary128.
Proof.
  unfold two_binary128, after_insert.
  apply packed_store_insertBinary; [|reflexivity|reflexivity|now intros e [= <-]].
  apply packed_store_insertBinary; [|reflexivity|reflexivity|now intros e [= <-]].
  apply packed_store_empty.
Defined.

Lemma queryBinary_on_a_packed_store_witness :
  exists r, queryBinary embedder settings (VStr "hello") (Some 1) two_binary = Ok r
            /\ Z.of_nat (length r) = Z.min 1 (Z.of_nat (size two_binary)).
Proof.
  destruct (queryBinary_on_a_packed_store embedder settings (VStr "hello") 1 two_binary
              [0.1; 0.9; 0.5; 0.4]%float 1 eq_refl two_binary_packed ltac:(lia))
    as [_ Hok].
  destruct (Hok eq_refl) as (r & Hr & Hlen & _ & _).
  exists r. split; [exact Hr | exact Hlen].
Defined.

(** X26. On vectors of two words, query and store alike, [queryBinarySIMD]
    returns what [queryBinary] returns, and both succeed. *)
Theorem queryBinarySIMD_agrees_on_two_word_vectors
    (getEmbeddingFromText : value -> string -> result (list float)) (this : config)
    (queryText : value) (limit : option Z) (db : gmap idb_key (gmap string value))
    (e : list float) :
  getEmbeddingFromText queryText (model this) = Ok e ->
  ceil64 (Z.of_nat (length e)) = 2 ->
  packed_store 2 db ->
  queryBinarySIMD getEmbeddingFromText this queryText limit db
  = queryBinary getEmbeddingFromText this queryText limit db
  /\ exists r, queryBinary getEmbeddingFromText this queryText limit db = Ok r.
Proof.
  intros He Hsize Hdb. rewrite (queryBinary_run _ _ _ _ _ e He).
  unfold queryBinarySIMD, packed_query. rewrite He, getAll_ok. cbn [res_bind].
  pose proof (query_words e) as Hq. pose proof (pack_words_ok (binarizeVector e None)) as Hwq.
  destruct (pack (binarizeVector e None)) as [|q0 [|q1 [|? ?]]] eqn:Epack;
    try (simpl in Hq; lia).
  destruct (res_mapM_total (fun entry => buffer_words (get_prop entry "vector"))
              (records db)) as [logged ->].
  { intros entry Hin. destruct (packed_store_entries 2 db entry Hdb Hin) as (w & -> & _).
    now exists w. }
  cbn [res_bind].
  destruct (memory_set_fresh [q0; q1]) as (mem & -> & Hlen & Htake).
  { unfold page_size. cbn [length]. lia. }
  rewrite words_bytes_length in Htake. change (8 * length [q0; q1])%nat with 16%nat in Htake.
  cbn [res_bind].
  change (length [q0; q1]) with 2%nat.
  rewrite (simd_map_two_words q0 q1 _ Hwq (fun entry => packed_store_entries 2 db entry Hdb)
             mem Hlen Htake).
  destruct (res_mapM_total (scalar_step [q0; q1]) (records db)) as [r Hr].
  { intros entry Hin. destruct (packed_store_entries 2 db entry Hdb Hin) as (w & Hv & Hn & Hw).
    rewrite (scalar_step_packed _ w entry Hv) by (try assumption; now rewrite Hn). eauto. }
  rewrite Hr. cbn [res_bind rethrow]. split; [reflexivity | eauto].
Qed.

Lemma queryBinarySIMD_agrees_on_two_word_vectors_witness :
  queryBinarySIMD embedder128 settings (VStr "hello") (Some 5) two_binary128
  = queryBinary embedder128 settings (VStr "hello") (Some 5) two_binary128.
Proof.
  refine (proj1 (queryBinarySIMD_agrees_on_two_word_vectors embedder128 settings
                   (VStr "hello") (Some 5) two_binary128 _ eq_refl _ two_binary128_packed)).
  vm_compute. reflexivity.
Defined.

(** X27. A query of an odd number of words on a non-empty store of packed
    vectors: [queryBinarySIMD] ends in the trap of the kernel, whose
    byte count never reaches zero. *)
Theorem queryBinarySIMD_traps_on_odd_word_counts
    (getEmbeddingFromText : value -> string -> result (list float)) (this : config)
    (queryText : value) (limit : option Z) (db : gmap idb_key (gmap string value))
    (e : list float) (n : nat) :
  getEmbeddingFromText queryText (model this) = Ok e ->
  Z.odd (ceil64 (Z.of_nat (length e))) = true ->
  8 * ceil64 (Z.of_nat (length e)) <= page_size ->
  packed_store n db -> 16 + 8 * Z.of_nat n <= page_size ->
  db <> ∅ ->
  queryBinarySIMD getEmbeddingFromText this queryText limit db = Err WasmTrap.
Proof.
  unfold page_size. intros He Hodd Hfit Hdb Hn Hne.
  unfold queryBinarySIMD, packed_query. rewrite He, getAll_ok. cbn [res_bind].
  pose proof (query_words e) as Hq.
  set (q := pack (binarizeVector e None)) in *.
  destruct (res_mapM_total (fun entry => buffer_words (get_prop entry "vector"))
              (records db)) as [logged ->].
  { intros entry Hin. destruct (packed_store_entries n db entry Hdb Hin) as (w & -> & _).
    now exists w. }
  cbn [res_bind].
  destruct (memory_set_fresh q) as (mem & -> & Hlen & _).
  { unfold page_size. lia. }
  unfold page_size in Hlen. cbn [res_bind].
  destruct (getAll_nonempty db Hne) as (entry & rest & Hall).
  destruct (packed_store_entries n db entry Hdb) as (w & Hv & Hw & _).
  { rewrite Hall. now left. }
  rewrite Hall. cbn [simd_map]. rewrite Hv.
  unfold simd_distance, buffer_bytes. cbn [buffer_words res_bind].
  destruct (memory_set mem (words_bytes w) 16) as [mem'|err] eqn:Hset'.
  2:{ unfold memory_set in Hset'. rewrite words_bytes_length in Hset'.
      rewrite bool_decide_eq_true_2 in Hset' by lia. discriminate. }
  cbn [res_bind].
  pose proof (memory_set_length _ _ _ _ Hset') as Hlen'.
  rewrite hamming_distance_odd_words; [reflexivity| | |].
  - unfold page_size. lia.
  - rewrite <- Hq in Hodd. apply Z.odd_spec in Hodd as [k Hk].
    apply Nat.odd_spec. exists (Z.to_nat k). lia.
  - unfold two32. lia.
Qed.

Lemma queryBinarySIMD_traps_on_odd_word_counts_witness :
  queryBinarySIMD embedder settings (VStr "hello") None two_binary = Err WasmTrap.
Proof.
  assert (Hin : holds two_binary (VNum 1) = true) by (vm_compute; reflexivity).
  apply (queryBinarySIMD_traps_on_odd_word_counts embedder settings (VStr "hello") None
           two_binary [0.1; 0.9; 0.5; 0.4]%float 1 eq_refl eq_refl);
    [unfold page_size; vm_compute; discriminate | exact two_binary_packed
    | unfold page_size; lia |].
  intros Hempty. apply holds_stored in Hin. rewrite Hempty in Hin.
  now rewrite lookup_empty in Hin.
Defined.

Module RankFacts.

Lemma ranked_results (field : string) (db : gmap idb_key (gmap string value))
    (cmp : gmap string value -> gmap string value -> float)
    (l : list (gmap string value)) (limit : Z) :
  Forall (scored field db) l -> (length l <= size db)%nat ->
  ranked_from field db limit (slice0 (sort cmp l) limit).
Proof.
  intros Hall Hlen. split; [|split].
  - apply Forall_forall. intros x Hx. apply slice0_elem, sort_elem in Hx.
    rewrite Forall_forall in Hall. now apply Hall.
  - pose proof (slice0_length_le (sort cmp l) limit) as H.
    rewrite sort_length in H. lia.
  - intros Hlimit. rewrite slice0_length by exact Hlimit. lia.
Qed.

Lemma scored_steps (field : string) (db : gmap idb_key (gmap string value))
    (f : gmap string value -> result (gmap string value)) (r : list (gmap string value)) :
  (forall entry y, f entry = Ok y -> exists score, y = <[field := VNum score]> entry) ->
  res_mapM f (records db) = Ok r ->
  Forall (scored field db) r /\ (length r <= size db)%nat.
Proof.
  intros Hf Hr. apply res_mapM_Forall2 in Hr. split.
  - apply Forall_forall. intros y Hy.
    destruct (Forall2_right _ _ _ _ Hr Hy) as (entry & Hin & Hstep).
    apply getAll_elem in Hin as [k Hk]. destruct (Hf entry y Hstep) as [score ->].
    now exists k, entry, score.
  - rewrite <- (Forall2_length _ _ _ Hr), getAll_length. lia.
Qed.

Lemma simd_map_scored (db : gmap idb_key (gmap string value)) (words : nat)
    (vectors : list (gmap string value)) : forall mem r,
  (forall entry, entry ∈ vectors -> exists k, db !! k = Some entry) ->
  simd_map mem words vectors = Ok r ->
  Forall (scored "distance" db) r /\ length r = length vectors.
Proof.
  induction vectors as [|entry rest IH]; intros mem r Hin Hr.
  - injection Hr as <-. split; [constructor | reflexivity].
  - cbn [simd_map] in Hr.
    destruct (simd_distance mem words _) as [[d mem']|e]; [|discriminate].
    cbn [res_bind fst snd] in Hr.
    destruct (simd_map mem' words rest) as [ds|e] eqn:Hrest; [|discriminate].
    injection Hr as <-.
    destruct (IH mem' ds (fun x Hx => Hin x ltac:(now right)) Hrest) as [Hall Hlen].
    split; [|simpl; now rewrite Hlen].
    constructor; [|exact Hall].
    destruct (Hin entry ltac:(left)) as [k Hk]. now exists k, entry, (float_of_Z d).
Qed.

Section Config.
Variable this : config.

Lemma manual_loop_scored (db : gmap idb_key (gmap string value)) (queryVector : value)
    (vectors : list (gmap string value)) : forall r,
  (forall entry, entry ∈ vectors -> exists k, db !! k = Some entry) ->
  manual_loop this queryVector vectors = Ok r ->
  Forall (scored "similarity" db) r /\ (length r <= length vectors)%nat.
Proof.
  induction vectors as [|entry rest IH]; intros r Hin Hr.
  - injection Hr as <-. split; [constructor | reflexivity].
  - cbn [manual_loop] in Hr.
    assert (Hrest : forall x, x ∈ rest -> exists k, db !! k = Some x).
    { intros x Hx. apply Hin. now right. }
    destruct (negb (is_array (if negb (is_array (get_prop entry (vectorPath this)))
                              then get_prop entry "vector"
                              else get_prop entry (vectorPath this)))).
    + destruct (IH r Hrest Hr) as [Hall Hlen]. split; [exact Hall | simpl; lia].
    + destruct (cosineSimilarity _ _) as [similarity|e]; [|discriminate].
      cbn [res_bind] in Hr.
      destruct (manual_loop this queryVector rest) as [similarities|e] eqn:Hloop;
        [|discriminate].
      injection Hr as <-. destruct (IH similarities Hrest eq_refl) as [Hall Hlen].
      split; [|simpl; lia]. constructor; [|exact Hall].
      destruct (Hin entry ltac:(left)) as [k Hk]. now exists k, entry, similarity.
Qed.

(** The entry [queryManualVectors] keeps or skips. *)
Lemma manual_loop_step (a : list float) (entry : gmap string value)
    (rest : list (gmap string value)) :
  manual_loop this (VArr a) (entry :: rest)
  = match manual_vector this entry with
    | Some v =>
        try! similarities := manual_loop this (VArr a) rest in
        Ok (<["similarity" := VNum (cosine a v)]> entry :: similarities)
    | None => manual_loop this (VArr a) rest
    end.
Proof.
  cbn [manual_loop]. unfold manual_vector.
  destruct (get_prop entry (vectorPath this)) as [| |b|x|s|v|w]; cbn [is_array negb];
    destruct (get_prop entry "vector") as [| |b'|x'|s'|v'|w']; reflexivity.
Qed.

Lemma manual_loop_array (a : list float) (vectors : list (gmap string value)) :
  exists r,
    manual_loop this (VArr a) vectors = Ok r
    /\ forall entry v, entry ∈ vectors -> manual_vector this entry = Some v ->
         <["similarity" := VNum (cosine a v)]> entry ∈ r.
Proof.
  induction vectors as [|entry rest (r & Hr & Hin)].
  - exists []. split; [reflexivity|]. intros entry v H. now apply elem_of_nil in H.
  - rewrite manual_loop_step, Hr.
    destruct (manual_vector this entry) as [v|] eqn:Ev; cbn [res_bind].
    + eexists. split; [reflexivity|].
      intros x vx [->|Hx]%elem_of_cons Hvx.
      * rewrite Ev in Hvx. injection Hvx as <-. now left.
      * right. now apply Hin.
    + exists r. split; [reflexivity|].
      intros x vx [->|Hx]%elem_of_cons Hvx; [congruence | now apply Hin].
Qed.

End Config.

Lemma cosine_step_ok (e : list float) (entry y : gmap string value) :
  cosine_step e entry = Ok y -> exists score, y = <["similarity" := VNum score]> entry.
Proof.
  unfold cosine_step. destruct (cosineSimilarity _ _) as [s|err]; [|discriminate].
  intros [= <-]. now exists s.
Qed.

Lemma cosine_step_error (e : list float) (entry : gmap string value) (err : error) :
  cosine_step e entry = Err err -> err = TypeError.
Proof.
  unfold cosine_step, cosineSimilarity. cbn [numbers_of res_bind].
  destruct (get_prop entry "vector") as [| |b|x|s|v|[|w0 w]]; cbn; congruence.
Qed.

Lemma scalar_step_ok (q : list Z) (entry y : gmap string value) :
  scalar_step q entry = Ok y -> exists score, y = <["distance" := VNum score]> entry.
Proof.
  unfold scalar_step. destruct (hammingDistance _ _) as [d|err]; [|discriminate].
  intros [= <-]. now exists (float_of_Z d).
Qed.

End RankFacts.
Import RankFacts.

Module LimitFacts.

Lemma res_mapM_length {A B} (f : A -> result B) (l : list A) (r : list B) :
  res_mapM f l = Ok r -> length r = length l.
Proof. intros H. symmetry. exact (Forall2_length _ _ _ (res_mapM_Forall2 f l r H)). Qed.

(** A query that ranks [n] entries and then slices. *)
Lemma ranked_then_sliced (n : nat) (Q : option Z -> result (list (gmap string value)))
    (ranking : result (list (gmap string value))) :
  (forall limit r,
     Q (Some limit) = Ok r <-> exists ranked, ranking = Ok ranked /\ r = slice0 ranked limit) ->
  (forall ranked, ranking = Ok ranked -> length ranked = n) ->
  slices_from_end n Q.
Proof.
  intros HQ Hn limit r Hlimit Hr.
  apply HQ in Hr as (ranked & Hranked & ->).
  pose proof (Hn ranked Hranked) as Hlen.
  exists ranked. split; [exact Hlen|]. split; [|split].
  - intros enough Henough. apply HQ. exists ranked. split; [exact Hranked|].
    symmetry. apply slice0_all_of. now rewrite Hlen.
  - intros ->. apply slice0_zero.
  - intros Hneg. rewrite <- Hlen. now apply slice0_negative.
Qed.

Lemma rethrown_ranking (prefix : string) (ranking : result (list (gmap string value)))
    (limit : Z) (r : list (gmap string value)) :
  rethrow prefix (try! ranked := ranking in Ok (slice0 ranked limit)) = Ok r
  <-> exists ranked, ranking = Ok ranked /\ r = slice0 ranked limit.
Proof.
  rewrite rethrow_ok. destruct ranking as [ranked|e]; cbn [res_bind]; split.
  - intros [= <-]. now exists ranked.
  - now intros (ranked' & [= <-] & ->).
  - discriminate.
  - now intros (ranked' & [=] & _).
Qed.

Section Config.
Variable this : config.

(** The loop of [queryManualVectors] keeps one entry for each record it
    compares. *)
Lemma manual_loop_length (queryVector : value) (vectors : list (gmap string value)) :
  forall r,
    manual_loop this queryVector vectors = Ok r ->
    length r = length (filter (fun entry => is_Some (manual_vector this entry)) vectors).
Proof.
  induction vectors as [|entry rest IH]; intros r Hr.
  - now injection Hr as <-.
  - cbn [manual_loop] in Hr. rewrite filter_cons.
    assert (Hskip : negb (is_array (if negb (is_array (get_prop entry (vectorPath this)))
                                    then get_prop entry "vector"
                                    else get_prop entry (vectorPath this)))
                    = bool_decide (manual_vector this entry = None)).
    { unfold manual_vector.
      destruct (get_prop entry (vectorPath this)) as [| |b|x|s|v|w]; cbn [is_array negb];
        destruct (get_prop entry "vector") as [| |b'|x'|s'|v'|w']; reflexivity. }
    rewrite Hskip in Hr.
    destruct (manual_vector this entry) as [v|] eqn:Ev.
    + rewrite bool_decide_eq_false_2 in Hr by discriminate.
      destruct (cosineSimilarity _ _) as [similarity|e]; [|discriminate].
      cbn [res_bind] in Hr.
      destruct (manual_loop this queryVector rest) as [similarities|e]; [|discriminate].
      injection Hr as <-.
      destruct (decide (is_Some (Some v))) as [_|Hno]; [|exfalso; apply Hno; eauto].
      cbn [length]. f_equal. now apply IH.
    + rewrite bool_decide_eq_true_2 in Hr by reflexivity.
      destruct (decide (is_Some (@None (list float)))) as [[? H]|_]; [discriminate H|].
      now apply IH.
Qed.

End Config.

End LimitFacts.
Import LimitFacts.

(** C4, amended. A dense, binary, accelerated or manual query that
    completes with the integer limit 0 returns the empty sequence; with a
    negative limit it returns the ranked sequence without its last
    [-limit] entries.  The ranked sequence is the one the query returns
    under every limit that is large enough; it has an entry for every
    record of the store (manual mode: for every record with an array to
    compare). *)
Theorem nonpositive_limit_slices_from_end
    (getEmbeddingFromText : value -> string -> result (list float))
    (this : config) (db : gmap idb_key (gmap string value))
    (queryText queryVector : value) :
  slices_from_end (size db)
    (fun limit => query getEmbeddingFromText this queryText limit db)
  /\ slices_from_end (size db)
       (fun limit => queryBinary getEmbeddingFromText this queryText limit db)
  /\ slices_from_end (size db)
       (fun limit => queryBinarySIMD getEmbeddingFromText this queryText limit db)
  /\ slices_from_end (manual_entries this db)
       (fun limit => queryManualVectors this queryVector limit db).
Proof.
  split; [|split; [|split]].
  - apply (ranked_then_sliced _ _
      (try! queryVector := getEmbeddingFromText queryText (model this) in
       try! vectors := getAll db in
       try! similarities :=
         res_mapM (fun entry =>
           try! similarity := cosineSimilarity (VArr queryVector) (get_prop entry "vector") in
           Ok (<["similarity" := VNum similarity]> entry)) vectors in
       Ok (sort (fun a b => number_of (get_prop b "similarity")
                            - number_of (get_prop a "similarity"))%float similarities))).
    + intros limit r. rewrite <- (rethrown_ranking "Error querying vectors: ").
      unfold query. cbn [default].
      destruct (getEmbeddingFromText queryText (model this)); [|reflexivity].
      cbn [res_bind]. rewrite getAll_ok. cbn [res_bind].
      now destruct (res_mapM _ _).
    + intros ranked.
      destruct (getEmbeddingFromText queryText (model this)); [|discriminate].
      cbn [res_bind]. rewrite getAll_ok. cbn [res_bind].
      destruct (res_mapM _ _) as [similarities|e] eqn:Hmap; [|discriminate].
      intros [= <-]. rewrite sort_length, (res_mapM_length _ _ _ Hmap).
      apply getAll_length.
  - apply (ranked_then_sliced _ _
      (try! packedQueryVector := packed_query getEmbeddingFromText this queryText in
       try! vectors := getAll db in
       try! distances :=
         res_mapM (fun entry =>
           try! distance := hammingDistance (VBig64 packedQueryVector) (get_prop entry "vector") in
           Ok (<["distance" := VNum (float_of_Z distance)]> entry)) vectors in
       Ok (sort by_distance distances))).
    + intros limit r. rewrite <- (rethrown_ranking "Error querying binary vectors: ").
      unfold queryBinary. cbn [default].
      destruct (packed_query _ _ _); [|reflexivity].
      cbn [res_bind]. rewrite getAll_ok. cbn [res_bind].
      now destruct (res_mapM _ _).
    + intros ranked.
      destruct (packed_query _ _ _); [|discriminate].
      cbn [res_bind]. rewrite getAll_ok. cbn [res_bind].
      destruct (res_mapM _ _) as [distances|e] eqn:Hmap; [|discriminate].
      intros [= <-]. rewrite sort_length, (res_mapM_length _ _ _ Hmap).
      apply getAll_length.
  - apply (ranked_then_sliced _ _
      (try! packedQueryVector := packed_query getEmbeddingFromText this queryText in
       try! vectors := getAll db in
       try! _ := res_mapM (fun entry => buffer_words (get_prop entry "vector")) vectors in
       try! wasmMemory := memory_set fresh_memory (words_bytes packedQueryVector) 0 in
       try! distances := simd_map wasmMemory (length packedQueryVector) vectors in
       Ok (sort by_distance distances))).
    + intros limit r. unfold queryBinarySIMD. cbn [default].
      destruct (packed_query _ _ _) as [q|e]; cbn [res_bind];
        [|split; [discriminate | now intros (? & [=] & _)]].
      rewrite getAll_ok. cbn [res_bind].
      destruct (res_mapM _ _) as [logged|e]; cbn [res_bind];
        [|split; [discriminate | now intros (? & [=] & _)]].
      destruct (memory_set _ _ _) as [mem|e]; cbn [res_bind];
        [|split; [discriminate | now intros (? & [=] & _)]].
      destruct (simd_map _ _ _) as [distances|e]; cbn [res_bind];
        [|split; [discriminate | now intros (? & [=] & _)]].
      split; [intros [= <-]; eauto | now intros (? & [= <-] & ->)].
    + intros ranked.
      destruct (packed_query _ _ _) as [q|e]; [|discriminate].
      cbn [res_bind]. rewrite getAll_ok. cbn [res_bind].
      destruct (res_mapM _ _) as [logged|e]; [|discriminate]. cbn [res_bind].
      destruct (memory_set _ _ _) as [mem|e]; [|discriminate]. cbn [res_bind].
      destruct (simd_map _ _ _) as [distances|e] eqn:Hmap; [|discriminate].
      intros [= <-]. rewrite sort_length, <- getAll_length.
      clear - Hmap. revert mem distances Hmap.
      induction (records db) as [|entry rest IH]; intros mem distances Hmap.
      * now injection Hmap as <-.
      * cbn [simd_map] in Hmap.
        destruct (simd_distance _ _ _) as [dm|e]; [|discriminate]. cbn [res_bind] in Hmap.
        destruct (simd_map _ _ rest) as [ds|e] eqn:Hrest; [|discriminate].
        injection Hmap as <-. cbn [length]. f_equal. exact (IH _ _ Hrest).
  - apply (ranked_then_sliced _ _
      (try! vectors := getAll db in
       try! similarities := manual_loop this queryVector vectors in
       Ok (sort (fun a b => number_of (get_prop b "similarity")
                            - number_of (get_prop a "similarity"))%float similarities))).
    + intros limit r. rewrite <- (rethrown_ranking "Error querying manual vectors: ").
      unfold queryManualVectors. cbn [default].
      rewrite getAll_ok. cbn [res_bind].
      now destruct (manual_loop _ _ _).
    + intros ranked. rewrite getAll_ok. cbn [res_bind].
      destruct (manual_loop _ _ _) as [similarities|e] eqn:Hloop; [|discriminate].
      intros [= <-]. rewrite sort_length. exact (manual_loop_length this _ _ _ Hloop).
Qed.

(** Limits -1 and 0 on the three manual records: the ranking has three
    entries, limit -1 returns the first two of them, limit 0 none. *)
Lemma nonpositive_limit_slices_from_end_witness :
  -1 <= 0
  /\ exists ranked,
       length ranked = 3%nat
       /\ queryManualVectors settings (VArr [1; 0; 0]%float) (Some 3) three_manual = Ok ranked
       /\ returned (queryManualVectors settings (VArr [1; 0; 0]%float) (Some (-1)) three_manual)
          = take 2 ranked
       /\ queryManualVectors settings (VArr [1; 0; 0]%float) (Some 0) three_manual = Ok [].
Proof.
  split; [lia|].
  assert (Hn : manual_entries settings three_manual = 3%nat) by (vm_compute; reflexivity).
  pose proof (proj2 (proj2 (proj2 (nonpositive_limit_slices_from_end
                                     embedder settings three_manual (VStr "hello")
                                     (VArr [1; 0; 0]%float)))))
    as Hmanual.
  rewrite Hn in Hmanual.
  destruct (Hmanual (-1)
              (returned (queryManualVectors settings (VArr [1; 0; 0]%float) (Some (-1))
                           three_manual))
              ltac:(lia) ltac:(vm_compute; reflexivity))
    as (ranked & Hlen & Hfull & _ & Hneg).
  exists ranked. split; [exact Hlen|]. split; [apply Hfull; lia|].
  split; [apply Hneg; lia|].
  assert (Hrun : queryManualVectors settings (VArr [1; 0; 0]%float) (Some 0) three_manual
                 = Ok (returned (queryManualVectors settings (VArr [1; 0; 0]%float) (Some 0)
                                   three_manual)))
    by (vm_compute; reflexivity).
  destruct (Hmanual 0 _ ltac:(lia) Hrun) as (_ & _ & _ & Hzero & _).
  rewrite Hrun, (Hzero eq_refl). reflexivity.
Defined.

(** X19. Each entry a query returns is a record of the store with its score
    added; a result is never longer than the store, nor than a limit that
    is not negative. *)
Theorem queries_return_scored_records_within_the_limit
    (getEmbeddingFromText : value -> string -> result (list float)) (this : config)
    (limit : option Z) (db : gmap idb_key (gmap string value))
    (r : list (gmap string value)) :
  (forall queryText, query getEmbeddingFromText this queryText limit db = Ok r ->
     ranked_from "similarity" db (default default_limit limit) r)
  /\ (forall queryText, queryBinary getEmbeddingFromText this queryText limit db = Ok r ->
        ranked_from "distance" db (default default_limit limit) r)
  /\ (forall queryText, queryBinarySIMD getEmbeddingFromText this queryText limit db = Ok r ->
        ranked_from "distance" db (default default_limit limit) r)
  /\ (forall queryVector, queryManualVectors this queryVector limit db = Ok r ->
        ranked_from "similarity" db (default default_limit limit) r).
Proof.
  split; [|split; [|split]].
  - intros queryText Hr. unfold query in Hr. apply rethrow_ok in Hr.
    destruct (getEmbeddingFromText queryText (model this)) as [e|err]; [|discriminate].
    rewrite getAll_ok in Hr. cbn [res_bind] in Hr.
    destruct (res_mapM _ _) as [l|err] eqn:Hl; [|discriminate].
    injection Hr as <-.
    destruct (scored_steps "similarity" db (cosine_step e) l (cosine_step_ok e) Hl).
    now apply ranked_results.
  - intros queryText Hr. unfold queryBinary, packed_query in Hr. apply rethrow_ok in Hr.
    destruct (getEmbeddingFromText queryText (model this)) as [e|err]; [|discriminate].
    rewrite getAll_ok in Hr. cbn [res_bind] in Hr.
    destruct (res_mapM _ _) as [l|err] eqn:Hl; [|discriminate].
    injection Hr as <-.
    destruct (scored_steps "distance" db (scalar_step (pack (binarizeVector e None))) l
                (scalar_step_ok _) Hl).
    now apply ranked_results.
  - intros queryText Hr. unfold queryBinarySIMD, packed_query in Hr.
    destruct (getEmbeddingFromText queryText (model this)) as [e|err]; [|discriminate].
    rewrite getAll_ok in Hr. cbn [res_bind] in Hr.
    destruct (res_mapM _ _) as [logged|err]; [|discriminate]. cbn [res_bind] in Hr.
    destruct (memory_set _ _ _) as [mem|err]; [|discriminate]. cbn [res_bind] in Hr.
    destruct (simd_map _ _ _) as [l|err] eqn:Hl; [|discriminate].
    injection Hr as <-.
    destruct (simd_map_scored db _ _ _ _ (fun x Hx => proj1 (getAll_elem db x) Hx) Hl)
      as [Hall Hlen].
    apply ranked_results; [exact Hall|]. rewrite Hlen, getAll_length. lia.
  - intros queryVector Hr. unfold queryManualVectors in Hr. apply rethrow_ok in Hr.
    rewrite getAll_ok in Hr. cbn [res_bind] in Hr.
    destruct (manual_loop _ _ _) as [l|err] eqn:Hl; [|discriminate].
    injection Hr as <-.
    destruct (manual_loop_scored this db _ _ _ (fun x Hx => proj1 (getAll_elem db x) Hx) Hl)
      as [Hall Hlen].
    apply ranked_results; [exact Hall|]. rewrite getAll_length in Hlen. exact Hlen.
Qed.

(** X21. With the query text embedded, [query] succeeds exactly on stores whose
    vectors [cosineSimilarity] can all reduce over (plain arrays, or an
    empty typed array) and fails with a TypeError otherwise; its
    entries are the records with the cosine of the query and their
    vector, all of them when the limit allows. *)
Theorem query_needs_plain_array_vectors
    (getEmbeddingFromText : value -> string -> result (list float)) (this : config)
    (queryText : value) (limit : option Z) (db : gmap idb_key (gmap string value))
    (e : list float) :
  getEmbeddingFromText queryText (model this) = Ok e ->
  ((exists r, query getEmbeddingFromText this queryText limit db = Ok r)
   <-> numeric_store db)
  /\ (forall err, query getEmbeddingFromText this queryText limit db = Err err ->
        err = Wrapped "Error querying vectors: " TypeError)
  /\ (forall r x, query getEmbeddingFromText this queryText limit db = Ok r -> x ∈ r ->
        exists k record v,
          db !! k = Some record
          /\ numbers_of (get_prop record "vector") = Ok v
          /\ x = <["similarity" := VNum (cosine e v)]> record)
  /\ (forall r k record v,
        query getEmbeddingFromText this queryText limit db = Ok r ->
        Z.of_nat (size db) <= default default_limit limit ->
        db !! k = Some record -> numbers_of (get_prop record "vector") = Ok v ->
        <["similarity" := VNum (cosine e v)]> record ∈ r).
Proof.
  intros He.
  assert (Hrun : query getEmbeddingFromText this queryText limit db
                 = rethrow "Error querying vectors: " (
                     try! similarities := res_mapM (cosine_step e) (records db) in
                     Ok (slice0 (sort (fun a b => number_of (get_prop b "similarity")
                                                  - number_of (get_prop a "similarity"))%float
                                      similarities)
                                (default default_limit limit)))).
  { unfold query. rewrite He. reflexivity. }
  rewrite Hrun. clear Hrun. split; [split|split; [|split]].
  - intros [r Hr]. apply rethrow_ok in Hr.
    destruct (res_mapM _ _) as [l|err] eqn:Hl; [|discriminate].
    apply res_mapM_Forall2 in Hl. intros k record Hk.
    assert (Hin : record ∈ records db) by (apply getAll_elem; eauto).
    apply list_elem_of_lookup in Hin as [i Hi].
    destruct (Forall2_lookup_l _ _ _ _ _ Hl Hi) as (y & _ & Hstep).
    unfold cosine_step, cosineSimilarity in Hstep. cbn [numbers_of res_bind] in Hstep.
    destruct (numbers_of (get_prop record "vector")) as [v|err]; [eauto | discriminate].
  - intros Hdb.
    destruct (res_mapM_total (cosine_step e) (records db)) as [l ->].
    { intros entry [k Hk]%getAll_elem. destruct (Hdb k entry Hk) as [v Hv].
      unfold cosine_step, cosineSimilarity. cbn [numbers_of res_bind]. rewrite Hv.
      cbn [res_bind]. eauto. }
    cbn [res_bind rethrow]. eauto.
  - intros err Herr.
    destruct (res_mapM _ _) as [l|err'] eqn:Hl; [discriminate|].
    cbn [res_bind rethrow] in Herr. injection Herr as <-.
    apply res_mapM_error in Hl as (entry & _ & Hstep).
    now rewrite (cosine_step_error e entry err' Hstep).
  - intros r x Hr Hx. apply rethrow_ok in Hr.
    destruct (res_mapM _ _) as [l|err] eqn:Hl; [|discriminate].
    cbn [res_bind] in Hr. injection Hr as <-.
    apply slice0_elem, sort_elem in Hx. apply res_mapM_Forall2 in Hl.
    destruct (Forall2_right _ _ _ _ Hl Hx) as (entry & Hin & Hstep).
    apply getAll_elem in Hin as [k Hk].
    unfold cosine_step, cosineSimilarity in Hstep. cbn [numbers_of res_bind] in Hstep.
    destruct (numbers_of (get_prop entry "vector")) as [v|err] eqn:Ev; [|discriminate].
    cbn [res_bind] in Hstep. injection Hstep as <-.
    now exists k, entry, v.
  - intros r k record v Hr Hall Hk Hv. apply rethrow_ok in Hr.
    destruct (res_mapM _ _) as [l|err] eqn:Hl; [|discriminate].
    cbn [res_bind] in Hr. injection Hr as <-. apply res_mapM_Forall2 in Hl.
    rewrite slice0_all_of
      by (rewrite sort_length, <- (Forall2_length _ _ _ Hl), getAll_length; exact Hall).
    apply sort_elem.
    assert (Hin : record ∈ records db) by (apply getAll_elem; eauto).
    destruct (Forall2_left _ _ _ _ Hl Hin) as (y & Hy & Hstep).
    unfold cosine_step, cosineSimilarity in Hstep. cbn [numbers_of res_bind] in Hstep.
    rewrite Hv in Hstep. cbn [res_bind] in Hstep. injection Hstep as <-. exact Hy.
Qed.

Lemma query_needs_plain_array_vectors_witness :
  (exists r, query embedder settings (VStr "hello") None two_binary = Ok r)
  <-> numeric_store two_binary.
Proof.
  exact (proj1 (query_needs_plain_array_vectors embedder settings (VStr "hello") None
                  two_binary [0.1; 0.9; 0.5; 0.4]%float eq_refl)).
Defined.

(** X24. One record with a plain array as its vector makes [queryBinary] fail,
    for every query with a non-empty embedding. *)
Theorem queryBinary_fails_on_a_plain_array
    (getEmbeddingFromText : value -> string -> result (list float)) (this : config)
    (queryText : value) (limit : option Z) (db : gmap idb_key (gmap string value))
    (e v : list float) (k : idb_key) (record : gmap string value) :
  getEmbeddingFromText queryText (model this) = Ok e -> e <> [] ->
  db !! k = Some record -> get_prop record "vector" = VArr v ->
  exists err,
    queryBinary getEmbeddingFromText this queryText limit db
    = Err (Wrapped "Error querying binary vectors: " err).
Proof.
  intros He Hne Hk Hv. rewrite (queryBinary_run _ _ _ _ _ e He).
  pose proof (query_words e) as Hq.
  assert (Hstep : exists err, scalar_step (pack (binarizeVector e None)) record = Err err).
  { unfold scalar_step, hammingDistance. rewrite Hv. cbn [length_prop res_bind buffer_words].
    destruct (negb _); [eauto|].
    destruct (pack (binarizeVector e None)) as [|w0 w]; [|cbn; eauto].
    destruct e; [congruence|]. exfalso.
    pose proof (ceil64_bounds (Z.of_nat (length (f :: e)))). simpl length in *. lia. }
  destruct Hstep as [err Hstep].
  destruct (res_mapM_fails (scalar_step (pack (binarizeVector e None)))
              (records db) record err) as [err' ->];
    [apply getAll_elem; eauto | exact Hstep |].
  cbn [res_bind rethrow]. eauto.
Qed.

Lemma queryBinary_fails_on_a_plain_array_witness :
  exists err, queryBinary embedder settings (VStr "hello") None three_manual
              = Err (Wrapped "Error querying binary vectors: " err).
Proof.
  assert (Hin : holds three_manual (VNum 1) = true) by (vm_compute; reflexivity).
  apply (queryBinary_fails_on_a_plain_array embedder settings (VStr "hello") None three_manual
           [0.1; 0.9; 0.5; 0.4]%float [1; 0; 0]%float (key_of (VNum 1))
           (stored three_manual (VNum 1)) eq_refl);
    [discriminate | exact (holds_stored _ _ Hin) | vm_compute; reflexivity].
Defined.

(** X22. On an array query [queryManualVectors] never fails: entries without an
    array are skipped, every entry returned carries the cosine of the
    query and the array chosen for it, and none is missing when the limit
    allows. *)
Theorem queryManualVectors_never_fails_on_an_array
    (this : config) (a : list float) (limit : option Z)
    (db : gmap idb_key (gmap string value)) :
  exists r,
    queryManualVectors this (VArr a) limit db = Ok r
    /\ (forall x, x ∈ r ->
          exists k record v,
            db !! k = Some record /\ manual_vector this record = Some v
            /\ x = <["similarity" := VNum (cosine a v)]> record)
    /\ (Z.of_nat (size db) <= default default_limit limit ->
        forall k record v,
          db !! k = Some record -> manual_vector this record = Some v ->
          <["similarity" := VNum (cosine a v)]> record ∈ r).
Proof.
  unfold queryManualVectors. rewrite getAll_ok. cbn [res_bind].
  destruct (manual_loop_array this a (records db)) as (l & Hl & Hall).
  rewrite Hl. cbn [res_bind rethrow]. eexists. split; [reflexivity|]. split.
  - intros x Hx. apply slice0_elem, sort_elem in Hx.
    revert x Hx. clear Hall. revert l Hl.
    generalize (fun entry => proj1 (getAll_elem db entry)).
    induction (records db) as [|entry rest IH]; intros Hdb l Hl x Hx.
    + injection Hl as <-. now apply elem_of_nil in Hx.
    + rewrite manual_loop_step in Hl.
      assert (Hrest : forall y, y ∈ rest -> exists k, db !! k = Some y).
      { intros y Hy. apply Hdb. now right. }
      destruct (manual_vector this entry) as [v|] eqn:Ev; [|now apply (IH Hrest l)].
      destruct (manual_loop this (VArr a) rest) as [similarities|err]; [|discriminate].
      injection Hl as <-. apply elem_of_cons in Hx as [->|Hx].
      * destruct (Hdb entry ltac:(left)) as [k Hk]. now exists k, entry, v.
      * now apply (IH Hrest similarities).
  - intros Hlimit k record v Hk Hv.
    pose proof (manual_loop_scored this db _ _ _
                  (fun x Hx => proj1 (getAll_elem db x) Hx) Hl) as [_ Hlen].
    rewrite getAll_length in Hlen.
    rewrite slice0_all_of by (rewrite sort_length; lia).
    apply sort_elem, Hall; [apply getAll_elem; eauto | exact Hv].
Qed.

Module OrderFacts.

Lemma Sorted_firstn {A} (R : A -> A -> Prop) (l : list A) : forall n,
  Sorted R l -> Sorted R (firstn n l).
Proof.
  induction l as [|x l IH]; intros [|n] Hs; simpl; try constructor.
  - apply IH. now inversion Hs.
  - inversion Hs as [|? ? _ Hhd]; subst.
    destruct l as [|y l]; destruct n; simpl; constructor. now inversion Hhd.
Qed.

Lemma ranked_sorted (cmp : gmap string value -> gmap string value -> float)
    (l : list (gmap string value)) (limit : Z) :
  (forall x y, after cmp x y = true -> after cmp y x = false) ->
  Sorted (in_place cmp) (slice0 (sort cmp l) limit).
Proof.
  intros Hasym. unfold slice0. apply Sorted_firstn. now apply sort_sorted.
Qed.

Lemma by_similarity_asym (x y : gmap string value) :
  after by_similarity x y = true -> after by_similarity y x = false.
Proof. unfold after, by_similarity. apply sub_antisym. Qed.

Lemma by_distance_asym (x y : gmap string value) :
  after by_distance x y = true -> after by_distance y x = false.
Proof. unfold after, by_distance. apply sub_antisym. Qed.

End OrderFacts.
Import OrderFacts.

(** X20. The result of each query is ordered by its comparator: no entry asks
    to come after its successor (similarity descending, distance
    ascending). *)
Theorem queries_rank_their_results
    (getEmbeddingFromText : value -> string -> result (list float)) (this : config)
    (limit : option Z) (db : gmap idb_key (gmap string value))
    (r : list (gmap string value)) :
  (forall queryText, query getEmbeddingFromText this queryText limit db = Ok r ->
     Sorted (in_place by_similarity) r)
  /\ (forall queryText, queryBinary getEmbeddingFromText this queryText limit db = Ok r ->
        Sorted (in_place by_distance) r)
  /\ (forall queryText, queryBinarySIMD getEmbeddingFromText this queryText limit db = Ok r ->
        Sorted (in_place by_distance) r)
  /\ (forall queryVector, queryManualVectors this queryVector limit db = Ok r ->
        Sorted (in_place by_similarity) r).
Proof.
  split; [|split; [|split]].
  - intros queryText Hr. unfold query in Hr. apply rethrow_ok in Hr.
    destruct (getEmbeddingFromText queryText (model this)) as [e|err]; [|discriminate].
    cbn [res_bind] in Hr. destruct (getAll db) as [vectors|err]; [|discriminate].
    cbn [res_bind] in Hr. destruct (res_mapM _ _) as [l|err]; [|discriminate].
    injection Hr as <-. apply (ranked_sorted by_similarity), by_similarity_asym.
  - intros queryText Hr. unfold queryBinary in Hr. apply rethrow_ok in Hr.
    destruct (packed_query _ _ _) as [q|err]; [|discriminate].
    cbn [res_bind] in Hr. destruct (getAll db) as [vectors|err]; [|discriminate].
    cbn [res_bind] in Hr. destruct (res_mapM _ _) as [l|err]; [|discriminate].
    injection Hr as <-. apply ranked_sorted, by_distance_asym.
  - intros queryText Hr. unfold queryBinarySIMD in Hr.
    destruct (packed_query _ _ _) as [q|err]; [|discriminate].
    cbn [res_bind] in Hr. destruct (getAll db) as [vectors|err]; [|discriminate].
    cbn [res_bind] in Hr. destruct (res_mapM _ _) as [logged|err]; [|discriminate].
    cbn [res_bind] in Hr. destruct (memory_set _ _ _) as [mem|err]; [|discriminate].
    cbn [res_bind] in Hr. destruct (simd_map _ _ _) as [l|err]; [|discriminate].
    injection Hr as <-. apply ranked_sorted, by_distance_asym.
  - intros queryVector Hr. unfold queryManualVectors in Hr. apply rethrow_ok in Hr.
    destruct (getAll db) as [vectors|err]; [|discriminate].
    cbn [res_bind] in Hr. destruct (manual_loop _ _ _) as [l|err]; [|discriminate].
    injection Hr as <-. apply (ranked_sorted by_similarity), by_similarity_asym.
Qed.

Module SequenceFacts.

Section Methods.
Variable getEmbeddingFromText : value -> string -> result (list float).
Variable this : config.
Variable prompt : bool.

(** A completed loop of [insertBatch] leaves the store that inserting the
    records one by one leaves, and each of those insertions succeeds. *)
Lemma insertBatch_loop_sequence (dataArray : list (gmap string value)) :
  forall keys s keys' s',
    insertBatch_loop getEmbeddingFromText this prompt dataArray keys s = (Done keys', s') ->
    s' = foldl (insert_step getEmbeddingFromText this) s dataArray.
Proof.
  induction dataArray as [|data rest IH]; intros keys s keys' s' Hrun.
  - now injection Hrun as <- <-.
  - apply insertBatch_loop_cons in Hrun as (embedding & k & Hid & Hres & _ & Ek & Es & Hrun).
    cbn [foldl]. unfold insert_step at 2. rewrite insert_outcome. unfold single_outcome.
    rewrite Hid, Hres, Ek, Es. cbn [snd]. exact (IH _ _ _ _ Hrun).
Qed.

(** A completed loop of [insertBatch] has filed every record of the
    batch, spread over its embedding, under a key that was not there. *)
Lemma insertBatch_loop_stores (dataArray : list (gmap string value)) :
  forall keys s keys' s',
    insertBatch_loop getEmbeddingFromText this prompt dataArray keys s = (Done keys', s') ->
    forall data, data ∈ dataArray ->
      exists k embedding,
        to_key (get_prop data "id") = Some k
        /\ resolve_embedding getEmbeddingFromText this data = Ok embedding
        /\ s !! k = None
        /\ s' !! k = Some (spread {["vector" := embedding]} data).
Proof.
  induction dataArray as [|data rest IH]; intros keys s keys' s' Hrun d Hin.
  - inversion Hin.
  - apply insertBatch_loop_cons in Hrun as (embedding & k & _ & Hres & _ & Ek & Es & Hrun).
    apply elem_of_cons in Hin as [->|Hin].
    + exists k, embedding. split; [exact Ek|]. split; [exact Hres|]. split; [exact Es|].
      apply (insertBatch_loop_ok _ _ _ _ _ _ _ _ Hrun), lookup_insert_eq.
    + destruct (IH _ _ _ _ Hrun d Hin) as (kd & ed & Hkd & Hed & Hnone & Hlook).
      exists kd, ed. split; [exact Hkd|]. split; [exact Hed|]. split; [|exact Hlook].
      now apply lookup_insert_None in Hnone as [Hnone _].
Qed.

(** The loop on a list whose first part completes goes on with the rest,
    from the keys and the store the first part leaves. *)
Lemma insertBatch_loop_app (pre rest : list (gmap string value)) :
  forall keys s keys' s',
    insertBatch_loop getEmbeddingFromText this prompt pre keys s = (Done keys', s') ->
    insertBatch_loop getEmbeddingFromText this prompt (pre ++ rest) keys s
    = insertBatch_loop getEmbeddingFromText this prompt rest keys' s'.
Proof.
  induction pre as [|data pre IH]; intros keys s keys' s' Hrun.
  - now injection Hrun as <- <-.
  - cbn [app insertBatch_loop] in *.
    destruct (is_nullish (get_prop data "id")); [discriminate|].
    unfold tx_bind at 1, tx_lift in Hrun. unfold tx_bind at 1, tx_lift.
    destruct (resolve_embedding _ _ data) as [embedding|e]; [|discriminate].
    unfold tx_bind in *.
    destruct (scope_add _ _ _ s) as [[key|e|e] s1]; [|discriminate..].
    exact (IH _ _ _ _ Hrun).
Qed.

(** The scope of [insertBatch] after a first part of the batch that
    inserts well. *)
Lemma insertBatch_after (pre rest : list (gmap string value))
    (db : gmap idb_key (gmap string value)) (keys : list value) :
  fst (insertBatch getEmbeddingFromText this prompt pre db) = Ok keys ->
  insertBatch_loop getEmbeddingFromText this prompt (pre ++ rest) [] db
  = insertBatch_loop getEmbeddingFromText this prompt rest keys
      (foldl (insert_step getEmbeddingFromText this) db pre)
  /\ snd (insertBatch getEmbeddingFromText this prompt pre db)
     = foldl (insert_step getEmbeddingFromText this) db pre.
Proof.
  intros Hpre. apply transaction_ok in Hpre.
  pose proof (insertBatch_loop_sequence _ _ _ _ _ Hpre) as Hseq.
  change (transaction (insertBatch_loop getEmbeddingFromText this prompt pre []) db)
    with (insertBatch getEmbeddingFromText this prompt pre db) in *.
  rewrite Hseq in Hpre. split; [|exact Hseq].
  exact (insertBatch_loop_app pre rest _ _ _ _ Hpre).
Qed.

(** The loop of [insertBatch] at a record without an id. *)
Lemma insertBatch_loop_no_id (bad : gmap string value) (post : list (gmap string value))
    (keys : list value) (s : gmap idb_key (gmap string value)) :
  is_nullish (get_prop bad "id") = true ->
  insertBatch_loop getEmbeddingFromText this prompt (bad :: post) keys s
  = (Thrown MissingIdentifier, s).
Proof. intros Hbad. cbn [insertBatch_loop]. now rewrite Hbad. Qed.

End Methods.

End SequenceFacts.
Import SequenceFacts.

(** C2, a defect of the code. When the records before the first record
    without an id insert well, [insertBatch] throws at that record and the
    records before it stay in the store: the store after the call is the
    one [insertBatch] leaves on those records alone, it has one record
    more for each of them, and each is filed under its id.  Nothing is
    rolled back. *)
Theorem insertBatch_missing_id_keeps_earlier_records
    (getEmbeddingFromText : value -> string -> result (list float)) (this : config)
    (prompt : bool) (pre post : list (gmap string value)) (bad : gmap string value)
    (db : gmap idb_key (gmap string value)) (keys : list value) :
  fst (insertBatch getEmbeddingFromText this prompt pre db) = Ok keys ->
  is_nullish (get_prop bad "id") = true ->
  let run := insertBatch getEmbeddingFromText this prompt (pre ++ bad :: post) db in
  fst run = Err MissingIdentifier
  /\ snd run = snd (insertBatch getEmbeddingFromText this prompt pre db)
  /\ size (snd run) = (size db + length pre)%nat
  /\ forall data, data ∈ pre ->
       exists k embedding,
         to_key (get_prop data "id") = Some k
         /\ db !! k = None
         /\ snd run !! k = Some (spread {["vector" := embedding]} data).
Proof.
  intros Hpre Hbad run.
  destruct (insertBatch_after getEmbeddingFromText this prompt pre (bad :: post) db keys Hpre)
    as [Hgo Hseq].
  rewrite (insertBatch_loop_no_id _ _ _ bad post keys _ Hbad) in Hgo.
  assert (Hrun : run = (Err MissingIdentifier,
                        foldl (insert_step getEmbeddingFromText this) db pre))
    by exact (transaction_thrown _ _ _ _ Hgo).
  rewrite Hrun, Hseq. cbn [fst snd].
  apply transaction_ok in Hpre.
  change (transaction (insertBatch_loop getEmbeddingFromText this prompt pre []) db)
    with (insertBatch getEmbeddingFromText this prompt pre db) in Hpre.
  rewrite Hseq in Hpre.
  split; [reflexivity|]. split; [reflexivity|]. split.
  - exact (proj1 (proj2 (insertBatch_loop_ok _ _ _ _ _ _ _ _ Hpre))).
  - intros data Hin.
    destruct (insertBatch_loop_stores _ _ _ _ _ _ _ _ Hpre data Hin)
      as (k & embedding & Hk & _ & Hnone & Hlook).
    now exists k, embedding.
Qed.

(** The batch [{ id: 2, embedding: [0, 1, 0] }, {}, { id: 3, embedding:
    [1, 1, 0] }] on the empty store, with no text to embed: the call
    throws at the second record, and record 2 is in the store. *)
Lemma insertBatch_missing_id_keeps_earlier_records_witness :
  let run := insertBatch embedder settings false
               [manual 2 [0; 1; 0]%float; ∅; manual 3 [1; 1; 0]%float] ∅ in
  fst run = Err MissingIdentifier
  /\ size (snd run) = 1%nat
  /\ holds (snd run) (VNum 2) = true
  /\ holds (snd run) (VNum 3) = false.
Proof.
  intros run.
  assert (Hpre : fst (insertBatch embedder settings false [manual 2 [0; 1; 0]%float] ∅)
                 = Ok [VNum 2]) by (vm_compute; reflexivity).
  assert (Hbad : is_nullish (get_prop (∅ : gmap string value) "id") = true)
    by (vm_compute; reflexivity).
  destruct (insertBatch_missing_id_keeps_earlier_records embedder settings false
              [manual 2 [0; 1; 0]%float] [manual 3 [1; 1; 0]%float] ∅ ∅ _ Hpre Hbad)
    as (Hfail & Hsame & Hsize & Hall).
  split; [exact Hfail|]. split; [exact Hsize|].
  change (insertBatch embedder settings false
            ([manual 2 [0; 1; 0]%float] ++ ∅ :: [manual 3 [1; 1; 0]%float]) ∅)
    with run in Hsame.
  rewrite Hsame. split; vm_compute; reflexivity.
Defined.



(** X11. [insertBatch] is [insert] record by record up to the first record
    that fails: when it completes, the store is the one the single
    insertions leave in sequence.  When the records before a record
    insert well and that record fails, the call throws what that record
    raises: its missing id, the rejection of the embedder, the scope being
    finished after an embedder that is not prompt, an id that is not a
    valid key; in all these cases the records before it stay in the
    store.  Only an id that is already in the store, the one failure of a
    request, gives back the store before the call. *)
Theorem insertBatch_is_insert_in_sequence
    (getEmbeddingFromText : value -> string -> result (list float)) (this : config)
    (prompt : bool) (db : gmap idb_key (gmap string value)) :
  (forall dataArray keys,
     fst (insertBatch getEmbeddingFromText this prompt dataArray db) = Ok keys ->
     snd (insertBatch getEmbeddingFromText this prompt dataArray db)
     = foldl (insert_step getEmbeddingFromText this) db dataArray)
  /\ (forall pre bad post keys,
        fst (insertBatch getEmbeddingFromText this prompt pre db) = Ok keys ->
        let s := foldl (insert_step getEmbeddingFromText this) db pre in
        let run := insertBatch getEmbeddingFromText this prompt (pre ++ bad :: post) db in
        (is_nullish (get_prop bad "id") = true -> run = (Err MissingIdentifier, s))
        /\ (is_nullish (get_prop bad "id") = false ->
            forall e, resolve_embedding getEmbeddingFromText this bad = Err e ->
                      run = (Err e, s))
        /\ (is_nullish (get_prop bad "id") = false ->
            forall embedding,
              resolve_embedding getEmbeddingFromText this bad = Ok embedding ->
              (truthy (get_prop bad "text") && negb prompt = true ->
                 run = (Err TransactionInactiveError, s))
              /\ (truthy (get_prop bad "text") && negb prompt = false ->
                    (to_key (get_prop bad "id") = None -> run = (Err DataError, s))
                    /\ (forall k existing,
                          to_key (get_prop bad "id") = Some k -> s !! k = Some existing ->
                          run = (Err ConstraintError, db))))).
Proof.
  split.
  - intros dataArray keys Hrun. apply transaction_ok in Hrun.
    exact (insertBatch_loop_sequence _ _ _ _ _ _ _ _ Hrun).
  - intros pre bad post keys Hpre s run.
    destruct (insertBatch_after getEmbeddingFromText this prompt pre (bad :: post) db keys Hpre)
      as [Hgo _].
    fold s in Hgo. cbn [insertBatch_loop] in Hgo.
    split; [|split].
    + intros Hbad. rewrite Hbad in Hgo. exact (transaction_thrown _ _ _ _ Hgo).
    + intros Hid e He. rewrite Hid in Hgo.
      unfold tx_bind at 1, tx_lift in Hgo. rewrite He in Hgo.
      exact (transaction_thrown _ _ _ _ Hgo).
    + intros Hid embedding He. rewrite Hid in Hgo.
      unfold tx_bind at 1, tx_lift in Hgo. rewrite He in Hgo.
      unfold tx_bind, scope_add in Hgo. split.
      * intros Hlate. rewrite Hlate in Hgo. exact (transaction_thrown _ _ _ _ Hgo).
      * intros Hopen. rewrite Hopen, store_add_record in Hgo. split.
        -- intros Hk. rewrite Hk in Hgo. exact (transaction_thrown _ _ _ _ Hgo).
        -- intros k existing Hk Hex. rewrite Hk, Hex in Hgo.
           exact (transaction_failed _ _ _ _ Hgo).
Qed.

(** Two batches on the three manual records.  [{ id: 5 }, { id: true }]
    throws the store's DataError and record 5 stays; [{ id: 5 }, { id: 1 }]
    throws the ConstraintError of the failed request and record 5 is
    gone with the scope.  With an embedder that is not prompt,
    [{ id: 5 }, { id: 2, text: "world" }] finds the scope finished and
    record 5 stays. *)
Lemma insertBatch_is_insert_in_sequence_witness :
  (let run := insertBatch embedder settings false
                [bare; <["id" := VBool true]> ∅] three_manual in
   fst run = Err DataError /\ holds (snd run) (VNum 5) = true)
  /\ (let run := insertBatch embedder settings false
                   [bare; <["id" := VNum 1]> ∅] three_manual in
      fst run = Err ConstraintError /\ snd run = three_manual)
  /\ (let run := insertBatch embedder settings false [bare; <["id" := VNum 6]> without_id]
                   three_manual in
      fst run = Err TransactionInactiveError /\ holds (snd run) (VNum 5) = true).
Proof.
  assert (Hpre : fst (insertBatch embedder settings false [bare] three_manual) = Ok [VNum 5])
    by (vm_compute; reflexivity).
  pose proof (fun bad =>
                proj2 (insertBatch_is_insert_in_sequence embedder settings false three_manual)
                  [bare] bad [] _ Hpre) as Hstop.
  cbn zeta in Hstop. cbn [app] in Hstop.
  split; [|split].
  - destruct (Hstop (<["id" := VBool true]> ∅)) as (_ & _ & Hadd).
    destruct (Hadd eq_refl VUndef eq_refl) as [_ Hopen].
    destruct (Hopen eq_refl) as [Hkey _].
    intros run. unfold run. rewrite (Hkey eq_refl).
    split; [reflexivity | vm_compute; reflexivity].
  - destruct (Hstop (<["id" := VNum 1]> ∅)) as (_ & _ & Hadd).
    destruct (Hadd eq_refl VUndef eq_refl) as [_ Hopen].
    destruct (Hopen eq_refl) as [_ Hdup].
    intros run. unfold run.
    rewrite (Hdup (key_of (VNum 1)) (stored three_manual (VNum 1)) eq_refl).
    + split; reflexivity.
    + vm_compute. reflexivity.
  - destruct (Hstop (<["id" := VNum 6]> without_id)) as (_ & _ & Hadd).
    destruct (Hadd eq_refl (VArr [0.1; 0.9; 0.5; 0.4]%float) eq_refl) as [Hlate _].
    intros run. unfold run. rewrite (Hlate eq_refl).
    split; [reflexivity | vm_compute; reflexivity].
Defined.

Module NanFacts.

Lemma is_nan_sf (x : float) : is_nan x = true <-> Prim2SF x = S754_nan.
Proof.
  unfold is_nan. rewrite FloatAxioms.eqb_spec. unfold SFeqb, SFcompare.
  destruct (Prim2SF x) as [s|s| |s m e]; try (destruct s); simpl;
    rewrite ?Z.compare_refl, ?Pos.compare_refl; simpl; split; congruence.
Qed.

Lemma is_zero_sf (x : float) : is_zero x = true <-> exists s, Prim2SF x = S754_zero s.
Proof.
  unfold is_zero. rewrite FloatAxioms.eqb_spec.
  change (Prim2SF 0) with (S754_zero false). unfold SFeqb, SFcompare.
  destruct (Prim2SF x) as [s|s| |s m e]; try (destruct s); simpl; split;
    try congruence; try (intros [s' H]; congruence); eauto.
Qed.

Lemma zero_or_nan_sf (x : float) :
  zero_or_nan x = true <-> Prim2SF x = S754_nan \/ exists s, Prim2SF x = S754_zero s.
Proof.
  unfold zero_or_nan. rewrite orb_true_iff, is_nan_sf, is_zero_sf. tauto.
Qed.

Lemma add_nan_r (x y : float) : is_nan y = true -> is_nan (x + y) = true.
Proof.
  rewrite !is_nan_sf, FloatAxioms.add_spec. intros ->. unfold FloatAxioms.SF64add, SFadd.
  now destruct (Prim2SF x).
Qed.

Lemma add_nan_l (x y : float) : is_nan x = true -> is_nan (x + y) = true.
Proof. rewrite !is_nan_sf, FloatAxioms.add_spec. now intros ->. Qed.

Lemma mul_nan_r (x y : float) : is_nan y = true -> is_nan (x * y) = true.
Proof.
  rewrite !is_nan_sf, FloatAxioms.mul_spec. intros ->. unfold FloatAxioms.SF64mul, SFmul.
  now destruct (Prim2SF x).
Qed.

Lemma div_nan_l (x y : float) : is_nan x = true -> is_nan (x / y) = true.
Proof. rewrite !is_nan_sf, FloatAxioms.div_spec. now intros ->. Qed.

Lemma add_zero_or_nan (x y : float) :
  zero_or_nan x = true -> zero_or_nan y = true -> zero_or_nan (x + y) = true.
Proof.
  rewrite !zero_or_nan_sf, FloatAxioms.add_spec. unfold FloatAxioms.SF64add, SFadd.
  intros [Hx|[sx Hx]] [Hy|[sy Hy]]; rewrite ?Hx, ?Hy; auto.
  right. destruct sx, sy; eauto.
Qed.

Lemma mul_zero_l (x y : float) : is_zero x = true -> zero_or_nan (x * y) = true.
Proof.
  rewrite zero_or_nan_sf, is_zero_sf, FloatAxioms.mul_spec. unfold FloatAxioms.SF64mul, SFmul.
  intros [sx ->]. destruct (Prim2SF y); eauto.
Qed.

Lemma mul_zero_r (x y : float) : zero_or_nan y = true -> zero_or_nan (x * y) = true.
Proof.
  rewrite !zero_or_nan_sf, FloatAxioms.mul_spec. unfold FloatAxioms.SF64mul, SFmul.
  intros [->|[sy ->]]; destruct (Prim2SF x); eauto.
Qed.

Lemma add_zero (x y : float) : is_zero x = true -> is_zero y = true -> is_zero (x + y) = true.
Proof.
  rewrite !is_zero_sf, FloatAxioms.add_spec. unfold FloatAxioms.SF64add, SFadd.
  intros [sx Hx] [sy Hy]. rewrite ?Hx, ?Hy. destruct sx, sy; eauto.
Qed.

Lemma mul_zero (x y : float) : is_zero x = true -> is_zero y = true -> is_zero (x * y) = true.
Proof.
  rewrite !is_zero_sf, FloatAxioms.mul_spec. unfold FloatAxioms.SF64mul, SFmul.
  intros [sx Hx] [sy Hy]. rewrite ?Hx, ?Hy. eauto.
Qed.

Lemma sqrt_zero (x : float) : is_zero x = true -> is_zero (sqrt x) = true.
Proof.
  rewrite !is_zero_sf, FloatAxioms.sqrt_spec. unfold FloatAxioms.SF64sqrt, SFsqrt. intros [sx ->]. eauto.
Qed.

Lemma div_zero_or_nan (x y : float) :
  zero_or_nan x = true -> zero_or_nan y = true -> is_nan (x / y) = true.
Proof.
  rewrite !zero_or_nan_sf, is_nan_sf, FloatAxioms.div_spec. unfold FloatAxioms.SF64div, SFdiv.
  intros [Hx|[sx Hx]] [Hy|[sy Hy]]; rewrite ?Hx, ?Hy; reflexivity.
Qed.

Lemma num_at_beyond (l : list float) (i : Z) :
  Z.of_nat (length l) <= i -> is_nan (num_at l i) = true.
Proof.
  intros Hi. unfold num_at. destruct (Z.ltb_spec i 0); [reflexivity|].
  rewrite nth_overflow by lia. reflexivity.
Qed.

(** Once the running sum is [NaN] it stays so. *)
Lemma dot_from_nan (vecA vecB : list float) : forall index sum,
  is_nan sum = true -> is_nan (dot_from index vecA vecB sum) = true.
Proof.
  induction vecA as [|val rest IH]; intros index sum Hsum; [exact Hsum|].
  cbn [dot_from]. apply IH. now apply add_nan_l.
Qed.

Lemma dot_from_short (vecA vecB : list float) : forall index sum,
  0 <= index <= Z.of_nat (length vecB) ->
  Z.of_nat (length vecB) < index + Z.of_nat (length vecA) ->
  is_nan (dot_from index vecA vecB sum) = true.
Proof.
  induction vecA as [|val rest IH]; intros index sum Hidx Hlen.
  - simpl in Hlen. lia.
  - cbn [dot_from]. destruct (Z_le_gt_dec (Z.of_nat (length vecB)) index) as [Hout|Hin].
    + apply dot_from_nan, add_nan_r, mul_nan_r, num_at_beyond. exact Hout.
    + cbn [length] in Hlen. apply IH; lia.
Qed.

Lemma dot_from_zero_l (vecA vecB : list float) : forall index sum,
  Forall (fun x => is_zero x = true) vecA -> zero_or_nan sum = true ->
  zero_or_nan (dot_from index vecA vecB sum) = true.
Proof.
  induction vecA as [|val rest IH]; intros index sum Hz Hsum; [exact Hsum|].
  apply Forall_cons in Hz as [Hval Hrest]. cbn [dot_from].
  apply IH; [exact Hrest|]. apply add_zero_or_nan; [exact Hsum|].
  now apply mul_zero_l.
Qed.

Lemma num_at_zero (l : list float) (i : Z) :
  Forall (fun x => is_zero x = true) l -> zero_or_nan (num_at l i) = true.
Proof.
  intros Hl. unfold num_at. destruct (Z.ltb_spec i 0); [reflexivity|].
  destruct (Nat.lt_ge_cases (Z.to_nat i) (length l)) as [Hlt|Hge].
  - rewrite Forall_forall in Hl. unfold zero_or_nan.
    rewrite (Hl (nth (Z.to_nat i) l nan)); [reflexivity|].
    apply list_elem_of_In, nth_In, Hlt.
  - rewrite nth_overflow by lia. reflexivity.
Qed.

Lemma dot_from_zero_r (vecA vecB : list float) : forall index sum,
  Forall (fun x => is_zero x = true) vecB -> zero_or_nan sum = true ->
  zero_or_nan (dot_from index vecA vecB sum) = true.
Proof.
  induction vecA as [|val rest IH]; intros index sum Hz Hsum; [exact Hsum|].
  cbn [dot_from]. apply IH; [exact Hz|]. apply add_zero_or_nan; [exact Hsum|].
  apply mul_zero_r. now apply num_at_zero.
Qed.

Lemma sum_squares_zero (vec : list float) :
  Forall (fun x => is_zero x = true) vec -> is_zero (sum_squares vec) = true.
Proof.
  unfold sum_squares. generalize 0%float (eq_refl : is_zero 0 = true).
  induction vec as [|val rest IH]; intros sum Hsum Hz; [exact Hsum|].
  apply Forall_cons in Hz as [Hval Hrest]. cbn [fold_left].
  apply IH; [|exact Hrest]. apply add_zero; [exact Hsum|]. now apply mul_zero.
Qed.

End NanFacts.
Import NanFacts.

(** X4. [cosineSimilarity] has no guard on lengths or magnitudes: the result
    is [NaN] when the second array is the shorter one, and when either
    array holds only zeros. *)
Theorem cosineSimilarity_is_NaN_without_its_guards (vecA vecB : list float) :
  (length vecB < length vecA)%nat
  \/ Forall (fun x => is_zero x = true) vecA
  \/ Forall (fun x => is_zero x = true) vecB ->
  exists x, cosineSimilarity (VArr vecA) (VArr vecB) = Ok x /\ is_nan x = true.
Proof.
  intros H. exists (cosine vecA vecB). split; [reflexivity|].
  unfold cosine. destruct H as [Hshort|[Hz|Hz]].
  - apply div_nan_l, dot_from_short; lia.
  - apply div_zero_or_nan.
    + now apply dot_from_zero_l.
    + apply mul_zero_l, sqrt_zero, sum_squares_zero, Hz.
  - apply div_zero_or_nan.
    + now apply dot_from_zero_r.
    + apply mul_zero_r. unfold zero_or_nan.
      now rewrite (sqrt_zero _ (sum_squares_zero _ Hz)).
Qed.

Lemma cosineSimilarity_is_NaN_without_its_guards_witness :
  exists x, cosineSimilarity (VArr [1; 0]%float) (VArr [1]%float) = Ok x /\ is_nan x = true.
Proof.
  apply cosineSimilarity_is_NaN_without_its_guards. left. simpl. lia.
Defined.

Module RoundTrips.

Lemma well_filed_empty : well_filed ∅.
Proof. intros k record Hk. now rewrite lookup_empty in Hk. Qed.

Section Config.
Variable this : config.

(** What [hasEmbedding] reads in the record built from an input is what
    it would read in the input. *)
Lemma record_vector_of_input (data : gmap string value) :
  is_nonempty_array
    (record_vector this (spread {["vector" := get_prop data (vectorPath this)]} data))
  = is_nonempty_array (record_vector this data).
Proof.
  set (a := get_prop data (vectorPath this)).
  assert (H1 : get_prop (spread {["vector" := a]} data) (vectorPath this) = a).
  { rewrite get_prop_spread. unfold a, get_prop.
    destruct (data !! vectorPath this) as [v|] eqn:Ev; [reflexivity|].
    destruct (decide (vectorPath this = "vector")) as [E|Hne].
    - rewrite E in *. now rewrite lookup_singleton_eq.
    - now rewrite lookup_singleton_ne by congruence. }
  assert (H2 : get_prop (spread {["vector" := a]} data) "vector"
               = match data !! "vector" with Some v => v | None => a end).
  { rewrite get_prop_spread. destruct (data !! "vector"); [reflexivity|].
    unfold get_prop. now rewrite lookup_singleton_eq. }
  unfold record_vector, nullish_or. rewrite H1, H2. fold a.
  destruct (is_nullish a) eqn:En; [|reflexivity].
  unfold get_prop. destruct (data !! "vector"); [reflexivity|]. simpl.
  now destruct a.
Qed.

Lemma hasEmbedding_stored (key : value) (k : idb_key) (record : gmap string value)
    (db : gmap idb_key (gmap string value)) :
  to_key key = Some k -> db !! k = Some record ->
  hasEmbedding this key db = Ok (is_nonempty_array (record_vector this record)).
Proof.
  intros Hk Hr. unfold hasEmbedding, transaction, store_get. rewrite Hk. simpl.
  rewrite Hr. destruct (is_nonempty_array (record_vector this record)) eqn:Ev.
  - now rewrite (nonempty_is_array _ Ev).
  - now rewrite orb_true_r.
Qed.

End Config.

End RoundTrips.
Import RoundTrips.

(** X18. After [insertManualVectors] files an input under a new id,
    [hasEmbedding] answers for the id what its check answers on the
    input; after [delete] it answers false. *)
Theorem hasEmbedding_follows_insert_and_delete
    (this : config) (data : gmap string value) (k : idb_key)
    (db : gmap idb_key (gmap string value)) :
  to_key (get_prop data "id") = Some k ->
  (db !! k = None ->
   hasEmbedding this (get_prop data "id") (snd (insertManualVectors this data db))
   = Ok (is_nonempty_array (record_vector this data)))
  /\ hasEmbedding this (get_prop data "id") (snd (delete_ (get_prop data "id") db))
     = Ok false.
Proof.
  intros Hk. split.
  - intros Hfresh. rewrite insertManualVectors_outcome. unfold single_outcome.
    destruct (is_nullish (get_prop data "id")) eqn:En.
    { apply nullish_no_key in En. congruence. }
    rewrite Hk, Hfresh. cbn [snd].
    rewrite (hasEmbedding_stored this _ k _ _ Hk (lookup_insert_eq _ _ _)).
    now rewrite record_vector_of_input.
  - unfold delete_, transaction, store_delete. rewrite Hk. cbn [snd].
    unfold hasEmbedding, transaction, store_get. rewrite Hk. simpl.
    now rewrite lookup_delete_eq.
Qed.

Lemma hasEmbedding_follows_insert_and_delete_witness :
  hasEmbedding settings (VNum 1)
    (snd (insertManualVectors settings (manual 1 [1; 0; 0]%float) ∅)) = Ok true
  /\ hasEmbedding settings (VNum 1) (snd (delete_ (VNum 1) three_manual)) = Ok false.
Proof.
  destruct (hasEmbedding_follows_insert_and_delete settings (manual 1 [1; 0; 0]%float)
              (key_of (VNum 1)) ∅ eq_refl) as [Hins _].
  destruct (hasEmbedding_follows_insert_and_delete settings (manual 1 [1; 0; 0]%float)
              (key_of (VNum 1)) three_manual eq_refl) as [_ Hdel].
  split; [exact (Hins (lookup_empty _)) | exact Hdel].
Defined.

(** X25. A record stored by [insertBinary] from its text is returned by
    [queryBinary] on the same text at distance 0, when the limit is above
    the number of records. *)
Theorem insertBinary_then_queryBinary_finds_the_record
    (getEmbeddingFromText : value -> string -> result (list float)) (this : config)
    (data : gmap string value) (db : gmap idb_key (gmap string value))
    (e : list float) (k : idb_key) (n : nat) (limit : Z) :
  truthy (get_prop data "text") = true ->
  getEmbeddingFromText (get_prop data "text") (model this) = Ok e ->
  data !! "vector" = None ->
  to_key (get_prop data "id") = Some k -> db !! k = None ->
  packed_store n db -> ceil64 (Z.of_nat (length e)) = Z.of_nat n ->
  Z.of_nat (size db) < limit ->
  exists r,
    queryBinary getEmbeddingFromText this (get_prop data "text") (Some limit)
      (snd (insertBinary getEmbeddingFromText this data db)) = Ok r
    /\ <["distance" := VNum 0]>
         (<["vector" := VBig64 (pack (binarizeVector e None))]> data) ∈ r.
Proof.
  intros Htext He Hvec Hk Hfresh Hdb Hsize Hlimit.
  pose proof (packed_store_insertBinary getEmbeddingFromText this n db data Hdb Htext Hvec)
    as Hdb'.
  assert (Hins : insertBinary getEmbeddingFromText this data db
                 = (Ok (get_prop data "id"),
                    <[k := <["vector" := VBig64 (pack (binarizeVector e None))]> data]> db)).
  { rewrite insertBinary_outcome. unfold single_outcome, resolve_embedding.
    rewrite Htext, He. cbn [res_bind binarize_value].
    destruct (is_nullish (get_prop data "id")) eqn:En.
    { apply nullish_no_key in En. congruence. }
    rewrite Hk, Hfresh. now rewrite record_fresh_vector. }
  rewrite Hins in *. cbn [snd] in *.
  assert (Hdb'' : packed_store n
            (<[k := <["vector" := VBig64 (pack (binarizeVector e None))]> data]> db)).
  { apply Hdb'. intros e' He'. congruence. }
  destruct (queryBinary_packed getEmbeddingFromText this (get_prop data "text")
              limit _ e n He Hdb'' ltac:(lia) Hsize) as (r & Hr & _ & _ & Hall).
  exists r. split; [exact Hr|].
  assert (Hzero : count_true (bits_differ (pack (binarizeVector e None))
                                          (pack (binarizeVector e None))) (64 * n) = 0).
  { apply count_true_zero. intros i _. unfold bits_differ. apply xorb_nilpotent. }
  replace (VNum 0) with (VNum (float_of_Z (count_true
             (bits_differ (pack (binarizeVector e None)) (pack (binarizeVector e None)))
             (64 * n)))) by now rewrite Hzero.
  apply (Hall ltac:(rewrite map_size_insert_None by exact Hfresh; lia) k).
  - apply lookup_insert_eq.
  - unfold get_prop. now rewrite lookup_insert_eq.
Qed.

(** X8. [insert] accepts a record that has neither a text nor a vector and
    stores it with an undefined vector, where [insertBinary] throws a
    TypeError; after it every [query] fails with a TypeError. *)
Theorem insert_accepts_a_record_without_a_vector
    (getEmbeddingFromText : value -> string -> result (list float)) (this : config)
    (data : gmap string value) (db : gmap idb_key (gmap string value)) (k : idb_key) :
  to_key (get_prop data "id") = Some k -> db !! k = None ->
  truthy (get_prop data "text") = false ->
  get_prop data (vectorPath this) = VUndef -> data !! "vector" = None ->
  insert getEmbeddingFromText this data db
  = (Ok (get_prop data "id"), <[k := <["vector" := VUndef]> data]> db)
  /\ insertBinary getEmbeddingFromText this data db
     = (Err (Wrapped "Error inserting binary data: " TypeError), db)
  /\ forall queryText limit e,
       getEmbeddingFromText queryText (model this) = Ok e ->
       query getEmbeddingFromText this queryText limit
         (snd (insert getEmbeddingFromText this data db))
       = Err (Wrapped "Error querying vectors: " TypeError).
Proof.
  intros Hk Hfresh Htext Hvp Hvec.
  assert (Hins : insert getEmbeddingFromText this data db
                 = (Ok (get_prop data "id"), <[k := <["vector" := VUndef]> data]> db)).
  { rewrite insert_outcome. unfold single_outcome, resolve_embedding.
    destruct (is_nullish (get_prop data "id")) eqn:En.
    { apply nullish_no_key in En. congruence. }
    rewrite Htext, Hvp, Hk, Hfresh. now rewrite record_fresh_vector. }
  split; [exact Hins|]. split.
  - rewrite insertBinary_outcome. unfold single_outcome, resolve_embedding.
    destruct (is_nullish (get_prop data "id")) eqn:En.
    { apply nullish_no_key in En. congruence. }
    rewrite Htext, Hvp. reflexivity.
  - intros queryText limit e He. rewrite Hins. cbn [snd].
    unfold query. rewrite He, getAll_ok. cbn [res_bind].
    set (step := fun entry : gmap string value => _).
    destruct (res_mapM step _) as [l|err] eqn:Hl.
    + exfalso. apply res_mapM_Forall2 in Hl.
      assert (Hin : <["vector" := VUndef]> data
                    ∈ records (<[k := <["vector" := VUndef]> data]> db)).
      { apply getAll_elem. exists k. apply lookup_insert_eq. }
      destruct (Forall2_left _ _ _ _ Hl Hin) as (y & _ & Hy).
      unfold step, cosineSimilarity, get_prop in Hy.
      rewrite lookup_insert_eq in Hy. discriminate.
    + apply res_mapM_error in Hl as (entry & _ & Hstep).
      cbn [res_bind rethrow]. do 2 f_equal.
      unfold step, cosineSimilarity in Hstep. cbn [numbers_of res_bind] in Hstep.
      destruct (get_prop entry "vector") as [| |b|x|s|v|[|w0 w]]; cbn in Hstep; congruence.
Qed.

Lemma insert_accepts_a_record_without_a_vector_witness :
  fst (insert embedder settings bare ∅) = Ok (VNum 5)
  /\ query embedder settings (VStr "hello") None (snd (insert embedder settings bare ∅))
     = Err (Wrapped "Error querying vectors: " TypeError).
Proof.
  destruct (insert_accepts_a_record_without_a_vector embedder settings bare ∅
              (key_of (VNum 5)) eq_refl (lookup_empty _) eq_refl eq_refl eq_refl)
    as (Hins & _ & Hq).
  split; [now rewrite Hins|].
  exact (Hq (VStr "hello") None [0.1; 0.9; 0.5; 0.4]%float eq_refl).
Defined.

Lemma insert_embeds_the_text_witness :
  insert embedder settings with_text ∅
  = (Ok (get_prop with_text "id"),
     <[key_of (VNum 2) := <["vector" := VArr [0.1; 0.9; 0.5; 0.4]%float]> with_text]> ∅)
  /\ insertBinary embedder settings with_text ∅
     = (Ok (get_prop with_text "id"),
        <[key_of (VNum 2) :=
            <["vector" := VBig64 (pack (binarizeVector [0.1; 0.9; 0.5; 0.4]%float None))]>
              with_text]> ∅).
Proof.
  exact (insert_embeds_the_text embedder settings with_text ∅ [0.1; 0.9; 0.5; 0.4]%float
           (key_of (VNum 2)) eq_refl eq_refl eq_refl eq_refl (lookup_empty _)).
Defined.

(** On the empty store; the batch [{ id: 5 }, {}] throws at its second
    record and leaves record 5, filed under 5. *)
Lemma writes_keep_records_filed_under_their_id_witness :
  well_filed (snd (insertManualVectors settings (manual 1 [1; 0; 0]%float) ∅))
  /\ well_filed (snd (updateBatch settings [with_text] ∅))
  /\ well_filed (snd (insertBatch embedder settings false [bare; ∅] ∅))
  /\ fst (insertBatch embedder settings false [bare; ∅] ∅) = Err MissingIdentifier
  /\ holds (snd (insertBatch embedder settings false [bare; ∅] ∅)) (VNum 5) = true.
Proof.
  destruct (writes_keep_records_filed_under_their_id embedder settings false ∅
              well_filed_empty)
    as (_ & _ & Hmanual & Hbatch & _ & _ & Hupdate & _).
  split; [apply Hmanual|]. split; [apply Hupdate|]. split; [apply Hbatch|].
  split; vm_compute; reflexivity.
Defined.

Lemma insertBinary_then_queryBinary_finds_the_record_witness :
  exists r,
    queryBinary embedder settings (VStr "world") (Some 10)
      (snd (insertBinary embedder settings with_text ∅)) = Ok r
    /\ <["distance" := VNum 0]> (<["vector" := VBig64 [6]]> with_text) ∈ r.
Proof.
  exact (insertBinary_then_queryBinary_finds_the_record embedder settings with_text ∅
           [0.1; 0.9; 0.5; 0.4]%float (key_of (VNum 2)) 1 10
           eq_refl eq_refl eq_refl eq_refl (lookup_empty _) (packed_store_empty 1)
           eq_refl eq_refl).
Defined.

Module LengthFacts.

(** One stored vector of two or more words, on a memory whose first
    sixteen bytes are a query of two words: the kernel compares the query
    with the first two words and the query bytes stay in place. *)
Lemma simd_distance_long (mem : list Z) (q0 q1 d0 d1 : Z) (rest : list Z) :
  Z.of_nat (length mem) = page_size ->
  take 16 mem = words_bytes [q0; q1] ->
  words_ok [q0; q1] -> words_ok [d0; d1] ->
  16 + 8 * Z.of_nat (length (d0 :: d1 :: rest)) <= page_size ->
  exists distance mem',
    simd_distance mem 2 (VBig64 (d0 :: d1 :: rest)) = Ok (distance, mem')
    /\ hammingDistance (VBig64 [q0; q1]) (VBig64 [d0; d1]) = Ok distance
    /\ Z.of_nat (length mem') = page_size
    /\ take 16 mem' = words_bytes [q0; q1].
Proof.
  unfold page_size. intros Hlen Hq Hwq Hwd Hfit.
  set (w := d0 :: d1 :: rest) in *.
  pose proof (words_bytes_length w) as Hbytes.
  assert (Hsplit : words_bytes w = words_bytes [d0; d1] ++ words_bytes rest).
  { unfold w, words_bytes. cbn [flat_map]. now rewrite app_nil_r, app_assoc. }
  assert (Hd16 : length (words_bytes [d0; d1]) = 16%nat).
  { rewrite words_bytes_length. reflexivity. }
  assert (Hq16 : length (take 16 mem) = 16%nat).
  { rewrite length_take. lia. }
  set (mem' := take 16 mem ++ words_bytes w ++ drop (16 + length (words_bytes w)) mem).
  assert (Hset : memory_set mem (words_bytes w) 16 = Ok mem').
  { unfold memory_set. rewrite bool_decide_eq_true_2 by lia. reflexivity. }
  assert (Hlen' : Z.of_nat (length mem') = 65536).
  { rewrite (memory_set_length _ _ _ _ Hset). exact Hlen. }
  assert (Hload0 : v128_load mem' 0 = Some (words_bytes [q0; q1])).
  { unfold v128_load. rewrite bool_decide_eq_true_2 by lia.
    change (Z.to_nat 0) with 0%nat. rewrite drop_0. unfold mem'.
    rewrite take_app_length' by (first [exact Hq16 | symmetry; exact Hq16]). now rewrite Hq. }
  assert (Hload16 : v128_load mem' 16 = Some (words_bytes [d0; d1])).
  { unfold v128_load. rewrite bool_decide_eq_true_2 by lia.
    change (Z.to_nat 16) with 16%nat. unfold mem'.
    rewrite drop_app_length' by (first [exact Hq16 | symmetry; exact Hq16]).
    rewrite Hsplit, <- app_assoc.
    rewrite take_app_length' by (first [exact Hd16 | symmetry; exact Hd16]).
    reflexivity. }
  destruct (kernel_two_words mem' q0 q1 d0 d1 Hload0 Hload16 Hwq Hwd)
    as (distance & Hk & Hs).
  exists distance, mem'. split; [|split; [exact Hs|split; [exact Hlen'|]]].
  - unfold simd_distance, buffer_bytes. cbn [buffer_words res_bind].
    fold w. rewrite Hset. cbn [res_bind]. now rewrite Hk.
  - unfold mem'. rewrite take_app_length' by (first [exact Hq16 | symmetry; exact Hq16]).
    exact Hq.
Qed.

Lemma simd_map_long (q0 q1 : Z) (n : nat) (vectors : list (gmap string value)) :
  words_ok [q0; q1] -> (2 <= n)%nat -> 16 + 8 * Z.of_nat n <= page_size ->
  (forall entry, entry ∈ vectors ->
     exists w, get_prop entry "vector" = VBig64 w /\ length w = n /\ words_ok w) ->
  forall mem,
    Z.of_nat (length mem) = page_size ->
    take 16 mem = words_bytes [q0; q1] ->
    exists r, simd_map mem 2 vectors = Ok r.
Proof.
  intros Hq Hn Hfit. induction vectors as [|entry rest IH]; intros Hall mem Hlen Htake.
  - now exists [].
  - destruct (Hall entry ltac:(left)) as (w & Hv & Hwn & Hw).
    destruct w as [|d0 [|d1 tail]]; try (simpl in Hwn; lia).
    assert (Hw2 : words_ok [d0; d1]).
    { apply Forall_cons in Hw as [H0 Hw]. apply Forall_cons in Hw as [H1 _].
      constructor; [exact H0|]. constructor; [exact H1 | constructor]. }
    destruct (simd_distance_long mem q0 q1 d0 d1 tail Hlen Htake Hq Hw2)
      as (distance & mem' & Hsimd & _ & Hlen' & Htake').
    { rewrite Hwn. exact Hfit. }
    cbn [simd_map]. rewrite Hv, Hsimd. cbn [res_bind fst snd].
    destruct (IH (fun x Hx => Hall x ltac:(now right)) mem' Hlen' Htake') as [r ->].
    cbn [res_bind]. eauto.
Qed.

Section Methods.
Variable getEmbeddingFromText : value -> string -> result (list float).
Variable this : config.

(** A query of another word count than the store's: [queryBinary] stops
    at the length check of [hammingDistance]. *)
Lemma queryBinary_mismatch (queryText : value) (limit : option Z)
    (db : gmap idb_key (gmap string value)) (e : list float) (n : nat) :
  getEmbeddingFromText queryText (model this) = Ok e ->
  packed_store n db -> db <> ∅ ->
  ceil64 (Z.of_nat (length e)) <> Z.of_nat n ->
  queryBinary getEmbeddingFromText this queryText limit db
  = Err (Wrapped "Error querying binary vectors: " LengthMismatch).
Proof.
  intros He Hdb Hne Hmis. rewrite (queryBinary_run _ _ _ _ _ e He).
  pose proof (query_words e) as Hq.
  set (q := pack (binarizeVector e None)) in *.
  destruct (res_mapM (scalar_step q) (records db)) as [r|err] eqn:Hr.
  - exfalso. apply res_mapM_Forall2 in Hr.
    destruct (getAll_nonempty db Hne) as (entry & rest & Hall).
    rewrite Hall in Hr. inversion Hr as [|? y ? ? Hstep _]; subst.
    destruct (packed_store_entries n db entry Hdb) as (w & Hv & Hn & _).
    { rewrite Hall. now left. }
    unfold scalar_step in Hstep. rewrite Hv, hammingDistance_words in Hstep.
    rewrite bool_decide_eq_false_2 in Hstep by lia. discriminate.
  - apply res_mapM_error in Hr as (entry & Hin & Hstep).
    destruct (packed_store_entries n db entry Hdb Hin) as (w & Hv & Hn & _).
    unfold scalar_step in Hstep. rewrite Hv, hammingDistance_words in Hstep.
    rewrite bool_decide_eq_false_2 in Hstep by lia.
    simpl in Hstep. injection Hstep as <-. reflexivity.
Qed.

End Methods.

End LengthFacts.
Import LengthFacts.

(** X28. The packed query of an embedding [e] of numbers (no [NaN]):
    [ceil (len / 64)] words below [2^64], bit [i] set exactly when [e[i]]
    reaches the median of [e], the median of any ascending arrangement
    [sorted] of its components. *)
Theorem packed_query_holds_the_median_bits
    (getEmbeddingFromText : value -> string -> result (list float)) (this : config)
    (queryText : value) (e sorted : list float) :
  getEmbeddingFromText queryText (model this) = Ok e ->
  numbers e -> sorted ≡ₚ e -> ascending sorted ->
  exists w,
    packed_query getEmbeddingFromText this queryText = Ok w
    /\ Z.of_nat (length w) = ceil64 (Z.of_nat (length e))
    /\ words_ok w
    /\ forall i : nat,
         bit_at w (Z.of_nat i)
         = match e !! i with
           | Some x => (median_of sorted <=? x)%float
           | None => false
           end.
Proof.
  intros He Ne Hp Hs. exists (pack (binarizeVector e None)).
  unfold packed_query. rewrite He. split; [reflexivity|].
  split; [apply query_words|]. split; [apply pack_words_ok|].
  intros i. rewrite median_bit.
  destruct (e !! i) as [x|]; [|reflexivity].
  exact (median_threshold e sorted x Ne Hp Hs).
Qed.

(** The embedding [[0.1, 0.9, 0.5, 0.4]] and its ascending arrangement
    [[0.1, 0.4, 0.5, 0.9]], of median 0.45: one word, bits 1 and 2 set. *)
Lemma packed_query_holds_the_median_bits_witness :
  median_of [0.1; 0.4; 0.5; 0.9]%float = 0.45%float
  /\ exists w,
       packed_query embedder settings (VStr "hello") = Ok w
       /\ Z.of_nat (length w) = 1
       /\ bit_at w 0 = false /\ bit_at w 1 = true /\ bit_at w 2 = true /\ bit_at w 3 = false.
Proof.
  split; [reflexivity|].
  assert (Ne : numbers [0.1; 0.9; 0.5; 0.4]%float) by (repeat constructor).
  assert (Hp : [0.1; 0.4; 0.5; 0.9]%float ≡ₚ [0.1; 0.9; 0.5; 0.4]%float).
  { constructor. apply (Permutation_trans (l' := [0.4; 0.9; 0.5]%float)).
    - constructor. apply perm_swap.
    - apply (Permutation_cons_append [0.9; 0.5]%float 0.4%float). }
  assert (Hs : ascending [0.1; 0.4; 0.5; 0.9]%float) by (repeat constructor).
  destruct (packed_query_holds_the_median_bits embedder settings (VStr "hello")
              [0.1; 0.9; 0.5; 0.4]%float _ eq_refl Ne Hp Hs)
    as (w & Hw & Hlen & _ & Hbits).
  exists w. split; [exact Hw|]. split; [exact Hlen|].
  split; [exact (Hbits 0%nat)|]. split; [exact (Hbits 1%nat)|].
  split; [exact (Hbits 2%nat) | exact (Hbits 3%nat)].
Defined.

(** X29. [queryBinarySIMD] compares no lengths: a query of two words on a store
    of longer packed vectors makes [queryBinary] throw its length error
    and [queryBinarySIMD] return a result. *)
Theorem queryBinarySIMD_has_no_length_check
    (getEmbeddingFromText : value -> string -> result (list float)) (this : config)
    (queryText : value) (limit : option Z) (db : gmap idb_key (gmap string value))
    (e : list float) (n : nat) :
  getEmbeddingFromText queryText (model this) = Ok e ->
  ceil64 (Z.of_nat (length e)) = 2 ->
  packed_store n db -> (2 < n)%nat -> 16 + 8 * Z.of_nat n <= page_size ->
  db <> ∅ ->
  queryBinary getEmbeddingFromText this queryText limit db
  = Err (Wrapped "Error querying binary vectors: " LengthMismatch)
  /\ exists r, queryBinarySIMD getEmbeddingFromText this queryText limit db = Ok r.
Proof.
  intros He Hsize Hdb Hn Hfit Hne. split.
  - apply (queryBinary_mismatch _ _ _ _ _ e n He Hdb Hne). lia.
  - unfold queryBinarySIMD, packed_query. rewrite He, getAll_ok. cbn [res_bind].
    pose proof (query_words e) as Hq.
    pose proof (pack_words_ok (binarizeVector e None)) as Hwq.
    destruct (pack (binarizeVector e None)) as [|q0 [|q1 [|? ?]]] eqn:Epack;
      try (simpl in Hq; lia).
    destruct (res_mapM_total (fun entry => buffer_words (get_prop entry "vector"))
                (records db)) as [logged ->].
    { intros entry Hin. destruct (packed_store_entries n db entry Hdb Hin) as (w & -> & _).
      now exists w. }
    cbn [res_bind].
    destruct (memory_set_fresh [q0; q1]) as (mem & -> & Hlen & Htake).
    { unfold page_size. cbn [length]. lia. }
    rewrite words_bytes_length in Htake.
    change (8 * length [q0; q1])%nat with 16%nat in Htake.
    cbn [res_bind]. change (length [q0; q1]) with 2%nat.
    destruct (simd_map_long q0 q1 n (records db) Hwq ltac:(lia) Hfit
                (fun entry => packed_store_entries n db entry Hdb) mem Hlen Htake) as [r ->].
    cbn [res_bind]. eauto.
Qed.

Lemma two_binary_long_packed : packed_store 4 two_binary_long.
Proof.
  unfold two_binary_long, after_insert.
  apply packed_store_insertBinary; [|reflexivity|reflexivity|now intros e [= <-]].
  apply packed_store_insertBinary; [|reflexivity|reflexivity|now intros e [= <-]].
  apply packed_store_empty.
Defined.

Lemma queryBinarySIMD_has_no_length_check_witness :
  queryBinary embedder_by_text settings (VStr "short") None two_binary_long
  = Err (Wrapped "Error querying binary vectors: " LengthMismatch)
  /\ exists r, queryBinarySIMD embedder_by_text settings (VStr "short") None two_binary_long
               = Ok r.
Proof.
  assert (Hin : holds two_binary_long (VNum 1) = true) by (vm_compute; reflexivity).
  apply (queryBinarySIMD_has_no_length_check embedder_by_text settings (VStr "short") None
           two_binary_long (replicate 64 1%float ++ replicate 64 0%float) 4 eq_refl);
    [vm_compute; reflexivity | exact two_binary_long_packed | lia
    | unfold page_size; lia |].
  intros Hempty. apply holds_stored in Hin. rewrite Hempty in Hin.
  now rewrite lookup_empty in Hin.
Defined.
